(** * wikifinder: claim extraction and query synthesis

    A shallow embedding of the algorithmic core of the wikifinder sources
    ([finderwikicorpus.py], [claims.py], [bingapi.py]) together with the
    properties checked against it.

    Conventions of the embedding.
    - Text is a list of characters ([str]).  The sources run on Python 2
      [unicode] objects; the embedding covers text in the ASCII range, where
      [lower] and [strip] have the behaviour written out in [PyStr].  Where
      the sources compare a [unicode] object with a byte string, which
      Python 2 answers differently outside that range, the comparison is
      modelled as it is ([Query.unicode_eqb]) and the properties that depend
      on it carry the restriction to ASCII text as a hypothesis.
    - Python floats are idealised as exact rationals ([Q]), so no result
      here speaks of rounding: two values that are equal here can differ in
      the last place once computed in doubles.  The two transcendental
      library functions the sources call ([math.log], [math.sqrt]) are taken
      as parameters.
    - A Python exception escaping a function is an explicit [Raise] result. *)

From Stdlib Require Import Ascii String DecimalString DecimalNat.
From Stdlib Require Import List ZArith QArith Qround Bool Lia Lqa Arith Sorted
  Permutation.
Import ListNotations.

Local Open Scope Z_scope.

(** ** Python string primitives *)

Module PyStr.

Definition str := list ascii.

Definition lit (s : string) : str := list_ascii_of_string s.

Definition str_eqb (a b : str) : bool :=
  if list_eq_dec ascii_dec a b then true else false.

(** [unicode.lower] on the ASCII range. *)
Definition lower_char (c : ascii) : ascii :=
  let n := nat_of_ascii c in
  if ((65 <=? n) && (n <=? 90))%nat then ascii_of_nat (n + 32) else c.

Definition lower (s : str) : str := map lower_char s.

(** [unicode.isspace] on the ASCII range: TAB, LF, VT, FF, CR, the four
    separators FS, GS, RS, US, and the space. *)
Definition is_space (c : ascii) : bool :=
  let n := nat_of_ascii c in
  (((9 <=? n) && (n <=? 13)) || ((28 <=? n) && (n <=? 32)))%nat.

Fixpoint lstrip (s : str) : str :=
  match s with
  | c :: s' => if is_space c then lstrip s' else s
  | [] => []
  end.

Definition rstrip (s : str) : str := rev (lstrip (rev s)).

Definition strip (s : str) : str := rstrip (lstrip s).

Fixpoint startswith (p s : str) : bool :=
  match p, s with
  | [], _ => true
  | a :: p', b :: s' => Ascii.eqb a b && startswith p' s'
  | _ :: _, [] => false
  end.

(** [sub in s] *)
Fixpoint contains (sub s : str) : bool :=
  startswith sub s ||
  match s with
  | [] => false
  | _ :: s' => contains sub s'
  end.

(** [s.replace(c, '')] for a one-character [c]: every [c] is deleted. *)
Definition remove_char (c : ascii) (s : str) : str :=
  filter (fun x => negb (Ascii.eqb x c)) s.

(** [s.split(sep)] for a non-empty separator: left to right, occurrences
    do not overlap.  [skip] counts the characters of a separator that has
    been recognised and still has to be consumed; [cur] is the piece being
    read, reversed. *)
Fixpoint split_go (sep : str) (skip : nat) (cur : str) (s : str) : list str :=
  match s with
  | [] => [rev cur]
  | c :: s' =>
      match skip with
      | S k => split_go sep k cur s'
      | O =>
          if startswith sep s
          then rev cur :: split_go sep (List.length sep - 1) [] s'
          else split_go sep 0 (c :: cur) s'
      end
  end.

Definition split (sep s : str) : list str := split_go sep 0 [] s.

(** [sep.join(l)] *)
Fixpoint join (sep : str) (l : list str) : str :=
  match l with
  | [] => []
  | [x] => x
  | x :: l' => x ++ sep ++ join sep l'
  end.

(** Python index normalisation for slices: a negative bound counts from the
    end, and every bound is clipped to [0, len]. *)
Definition clip (len i : Z) : Z :=
  let j := if i <? 0 then i + len else i in
  Z.max 0 (Z.min len j).

(** [s[a:b]]; [None] is an omitted bound. *)
Definition slice {A} (s : list A) (a b : option Z) : list A :=
  let len := Z.of_nat (List.length s) in
  let lo := match a with Some i => clip len i | None => 0 end in
  let hi := match b with Some i => clip len i | None => len end in
  firstn (Z.to_nat (hi - lo)) (skipn (Z.to_nat lo) s).

(** [l[-1]] on a non-empty list. *)
Definition last_opt {A} (l : list A) : option A :=
  match rev l with
  | x :: _ => Some x
  | [] => None
  end.

Definition mem (x : str) (l : list str) : bool := existsb (str_eqb x) l.

(** A text that [lower] leaves alone, character by character. *)
Definition lowered (s : str) : Prop := Forall (fun c => lower_char c = c) s.

(** A text in the ASCII range: every character is below 128. *)
Definition is_ascii_char (c : ascii) : bool := (nat_of_ascii c <? 128)%nat.

Definition is_ascii (s : str) : bool := forallb is_ascii_char s.

(** [s.rstrip(c)]: only the trailing run of [c] goes. *)
Fixpoint lstrip_char (c : ascii) (s : str) : str :=
  match s with
  | x :: s' => if Ascii.eqb x c then lstrip_char c s' else s
  | [] => []
  end.

Definition rstrip_char (c : ascii) (s : str) : str :=
  rev (lstrip_char c (rev s)).

End PyStr.

Import PyStr.

(** ** finderwikicorpus.py: the template rewriter *)

Module Wiki.

Definition CNMARK : str := lit "$$CNMARK$$".

Definition lbrace : ascii := "{"%char.
Definition rbrace : ascii := "}"%char.
Definition newline : ascii := "010"%char.

(** The identifier both classifiers compute:
    the first piece of [template.lower().split("|")], with every brace
    deleted ([replace]) and then stripped.
    A split always has a first piece. *)
Definition template_name (template : str) : str :=
  strip (remove_char rbrace (remove_char lbrace
    (hd [] (split (lit "|") (lower template))))).

Definition is_cn (template : str) (set_citation : list str) : bool :=
  mem (template_name template) set_citation.

Definition is_quote (template identifier : str) : bool :=
  str_eqb (template_name template) identifier.

(** The loop of [get_quote] over the parts: every part that contains
    [text_identifier + "="] overwrites [quote]. *)
Definition quote_of_parts (identifier_with_euqals : str) (parts : list str)
  : str :=
  fold_left
    (fun quote part =>
       if contains identifier_with_euqals part
       then strip (nth 1 (split identifier_with_euqals part) [])
       else quote)
    parts [].

(** [split[1:]] of the fallback. *)
Definition quote_fallback (parts : list str) : str :=
  strip (remove_char rbrace (concat (tl parts))).

Definition get_quote (template text_identifier : str) : str :=
  let parts := split (lit "|") (lower template) in
  let quote := quote_of_parts (text_identifier ++ lit "=") parts in
  match quote with
  | [] => quote_fallback parts
  | _ => quote
  end.

(** State of the brace scanner of [replace_citation_templates]. *)
Record scan_state := mkScan {
  n_open : Z;
  n_close : Z;
  starts : list Z;
  ends : list Z;
  in_template : bool;
  prev_c : option ascii
}.

Definition scan_init : scan_state := mkScan 0 0 [] [] false None.

Definition opt_ascii_eqb (c : ascii) (p : option ascii) : bool :=
  match p with
  | Some d => Ascii.eqb c d
  | None => false
  end.

(** One iteration of [for i, c in enumerate(iter(s))]. *)
Definition scan_step (st : scan_state) (i : Z) (c : ascii) : scan_state :=
  let st1 :=
    if negb (in_template st) && Ascii.eqb c lbrace && opt_ascii_eqb c (prev_c st)
    then mkScan 1 (n_close st) (starts st ++ [i - 1]) (ends st) true (prev_c st)
    else st in
  let st2 :=
    if in_template st1 then
      let o := if Ascii.eqb c lbrace then n_open st1 + 1 else n_open st1 in
      let k := if Ascii.eqb c lbrace then n_close st1
               else if Ascii.eqb c rbrace then n_close st1 + 1
               else n_close st1 in
      if o =? k
      then mkScan 0 0 (starts st1) (ends st1 ++ [i]) false (prev_c st1)
      else mkScan o k (starts st1) (ends st1) true (prev_c st1)
    else st1 in
  mkScan (n_open st2) (n_close st2) (starts st2) (ends st2) (in_template st2)
         (Some c).

Fixpoint scan_from (st : scan_state) (i : Z) (s : str) : scan_state :=
  match s with
  | [] => st
  | c :: s' => scan_from (scan_step st i c) (i + 1) s'
  end.

Definition scan (s : str) : scan_state := scan_from scan_init 0 s.

(** Python's [zip] stops with the shorter list. *)
Definition zip {A B} (l : list A) (l' : list B) : list (A * B) := combine l l'.

(** [[s[start:end+1] for start, end in zip(starts, ends)]] *)
Definition templates (s : str) (sts ens : list Z) : list str :=
  map (fun p => slice s (Some (fst p)) (Some (snd p + 1))) (zip sts ens).

(** [[s[end + 1:start] for start, end in zip(starts + [None], [-1] + ends)]] *)
Definition pieces (s : str) (sts ens : list Z) : list str :=
  map (fun p => slice s (Some (snd p + 1)) (fst p))
      (zip (map Some sts ++ [None]) ((-1) :: ens)).

(** [re.match("\n+", x)]: anchored at the start of [x]. *)
Definition match_newlines (x : str) : bool :=
  match x with
  | c :: _ => Ascii.eqb c newline
  | [] => false
  end.

(** [while len(aList) != 0 and re.match(pattern, aList[-1]): del aList[-1]],
    on the list kept in reverse. *)
Fixpoint drop_newline_tail (rev_aList : list str) : list str :=
  match rev_aList with
  | x :: l => if match_newlines x then drop_newline_tail l else rev_aList
  | [] => []
  end.

(** The body of the loop over the templates; [aList] is threaded through. *)
Definition emit (s : str) (sts ens : list Z) (set_citation : list str)
  (quote_identifier text_identifier : str)
  (aList : list str) (i : nat) (template : str) : list str :=
  let aList := aList ++ [nth i (pieces s sts ens) []] in
  if is_cn template set_citation then aList ++ [CNMARK]
  else if is_quote template quote_identifier then
    rev (drop_newline_tail (rev aList))
      ++ [[newline]] ++ [get_quote template text_identifier]
  else aList.

Fixpoint emit_all (s : str) (sts ens : list Z) (set_citation : list str)
  (quote_identifier text_identifier : str)
  (aList : list str) (i : nat) (ts : list str) : list str :=
  match ts with
  | [] => aList
  | t :: ts' =>
      emit_all s sts ens set_citation quote_identifier text_identifier
        (emit s sts ens set_citation quote_identifier text_identifier aList i t)
        (S i) ts'
  end.

Definition replace_citation_templates (s : str) (set_citation : list str)
  (quote_identifier text_identifier : str) : str :=
  let st := scan s in
  let sts := starts st in
  let ens := ends st in
  let aList :=
    emit_all s sts ens set_citation quote_identifier text_identifier
      [] 0%nat (templates s sts ens) in
  match aList with
  | [] => concat (pieces s sts ens)
  | _ => concat (aList ++ [last (pieces s sts ens) []])
  end.

(** The fallback of [get_quote] as the specification words it: everything
    after the first pipe-delimited segment, stripped only of trailing
    closing braces. *)
Definition fallback_as_specified (template : str) : str :=
  rstrip_char rbrace (join (lit "|") (tl (split (lit "|") template))).

(** What the scanner has seen after each prefix of [s] of length 1, 2, ...:
    whether it is inside a template and the depth [n_open - n_close]. *)
Definition depth_trace (s : str) : list (bool * Z) :=
  map (fun k =>
         let st := scan (firstn k s) in
         (in_template st, n_open st - n_close st))
      (seq 1 (length s)).

(** The character the scanner saw last, as a text. *)
Definition prev_text (st : scan_state) : str :=
  match prev_c st with
  | Some c => [c]
  | None => []
  end.

(** The spans the scanner records. *)
Definition spans (s : str) : list (Z * Z) :=
  zip (starts (scan s)) (ends (scan s)).

End Wiki.

(** ** Python exceptions *)

Inductive exn := IndexError | AssertionError | IOError | ValueError.

(** The outcome of a call: a value, an exception that escapes, or [OutOfFuel]
    when a [while] loop was cut by the bound of the embedding. *)
Inductive result (A : Type) :=
| Ok (a : A)
| Raise (e : exn)
| OutOfFuel.

Arguments Ok {A} a.
Arguments Raise {A} e.
Arguments OutOfFuel {A}.

Definition bind {A B} (r : result A) (f : A -> result B) : result B :=
  match r with
  | Ok a => f a
  | Raise e => Raise e
  | OutOfFuel => OutOfFuel
  end.

Notation "x <- r ;; k" := (bind r (fun x => k))
  (at level 61, r at next level, right associativity).

(** ** claims.py: the sentence splitter *)

Module Sentences.

Definition non_empty (x : str) : bool :=
  match x with
  | [] => false
  | _ => true
  end.

(** [filter(lambda z: z != '', part.split(" "))] *)
Definition words (part : str) : list str :=
  filter non_empty (split (lit " ") part).

(** [part.split(" ")[-1]]; a split always has a last piece. *)
Definition last_word (part : str) : str := last (split (lit " ") part) [].

(** [x.lower() == x] *)
Definition is_lower (x : str) : bool := str_eqb (lower x) x.

(** Condition c) of the heuristic, on [sentence_part[-1]]:
    [part.split(" ")[-1].lower() != part.split(" ")[-1] and len(part) < 5]. *)
Definition abbreviation (part : str) : bool :=
  negb (is_lower (last_word part)) && (Z.of_nat (length part) <? 5).

(** What the loop decides at the boundary before [part_next]. *)
Inductive boundary := Terminates | Continues.

Definition decide (sentence_part : list str) (part_next : str) : boundary :=
  let aList := words part_next in
  if Z.of_nat (length aList) <? 1 then Terminates
  else if (Z.of_nat (length aList) =? 1)
          || is_lower (hd [] aList)
          || abbreviation (last sentence_part [])
  then Continues
  else Terminates.

(** The loop [for x, elem in enumerate(split)], with [sentence_part] as it is
    when the iteration starts; the result is what the iterations from here
    on append to [sentences]. *)
Fixpoint sents_loop (sentence_part : list str) (parts : list str) : list str :=
  match parts with
  | [] => []
  | elem :: rest =>
      let sentence_part := sentence_part ++ [elem] in
      match rest with
      | [] => [join (lit ".") sentence_part]
      | part_next :: _ =>
          match decide sentence_part part_next with
          | Continues => sents_loop sentence_part rest
          | Terminates =>
              join (lit ".") sentence_part :: sents_loop [] rest
          end
      end
  end.

Definition _split_in_sents (string : str) : list str :=
  sents_loop [] (filter non_empty (split (lit ".") string)).

(** The abbreviation rule as the specification words it: the last word of
    the current buffer begins with an upper-case letter and has at most 4
    characters. *)
Definition is_upper_char (c : ascii) : bool := negb (Ascii.eqb (lower_char c) c).

Definition abbreviation_as_specified (sentence_part : list str) : bool :=
  let w := last_word (last sentence_part []) in
  match w with
  | c :: _ => is_upper_char c && (Z.of_nat (length w) <=? 4)
  | [] => false
  end.

(** A word that begins with an upper-case letter, as comment c) of the
    heuristic has it. *)
Definition begins_with_upper (w : str) : bool :=
  match w with
  | c :: _ => is_upper_char c
  | [] => false
  end.

End Sentences.

(** ** claims.py: claim extraction *)

Module Segmenter.

Import Sentences.

Inductive claim_type := B | F.

Record Claim := mkClaim {
  title : str;
  text : str;
  ctype : claim_type;
  article_text : str
}.

(** [while "*" in lines[line_no+i]: claim = ''.join([claim, lines[line_no+i]])],
    [following] being the lines [lines[line_no+i:]].  Indexing past the last
    line raises. *)
Fixpoint list_continuation (claim : str) (following : list str) : result str :=
  match following with
  | [] => Raise IndexError
  | l :: rest =>
      if contains (lit "*") l
      then list_continuation (claim ++ l) rest
      else Ok claim
  end.

(** The branch taken when the segment after the marker is short.
    [following] is [lines[line_no+1:]]; the test ["*" in lines[line_no+1]]
    stands outside the [try]. *)
Definition next_paragraph (claim : str) (following : list str) : result str :=
  match following with
  | [] => Raise IndexError
  | l :: _ =>
      if contains (lit "*") l
      then list_continuation claim following
      else
        (* try: claim = " ".join([claim, lines[line_no + 1]])
           except IndexError: pass *)
        Ok (join (lit " ") [claim; l])
  end.

(** [claims[k]] for an index known to be in range. *)
Definition seg (claims : list str) (k : Z) : str :=
  nth (Z.to_nat k) claims [].

(** One iteration of [for claim_no, claim in enumerate(claims)] that reaches
    the classification: the text and type of the claim to append. *)
Definition classify (claims : list str) (following : list str)
  (claim_no : Z) (claim : str) : result (str * claim_type) :=
  if contains (lit ":") (slice claim (Some (-4)) None) then
    let sents := _split_in_sents claim in
    match last_opt sents with
    | None => Raise IndexError
    | Some claim =>
        if Z.of_nat (length (seg claims (claim_no + 1))) >? 5
        then Ok (claim ++ seg claims (claim_no + 1), F)
        else
          c <- next_paragraph claim following ;; Ok (c, F)
    end
  else
    Ok ((if claim_no - 2 >=? 0 then seg claims (claim_no - 2) else [])
        ++ (if claim_no - 1 >=? 0 then seg claims (claim_no - 1) else [])
        ++ seg claims claim_no, B).

Section Line.

Variables (article_title article_text_ : str).
Variables (claims following : list str).

(** The loop over the segments of one marked line; [todo] holds the
    segments from index [claim_no] on. *)
Fixpoint line_loop (claim_no : Z) (todo : list str) : result (list Claim) :=
  match todo with
  | [] => Ok []
  | claim :: todo' =>
      if claim_no =? Z.of_nat (length claims) - 1 then Ok []
      else if Z.of_nat (length claim) <? 15
      then line_loop (claim_no + 1) todo'
      else
        ct <- classify claims following claim_no claim ;;
        cs <- line_loop (claim_no + 1) todo' ;;
        Ok (mkClaim article_title (fst ct) (snd ct) article_text_ :: cs)
  end.

End Line.

(** The loop over the lines; [lines] holds the lines from the current one
    on, so that [lines[line_no+1:]] is its tail. *)
Fixpoint lines_loop (article_title article_text_ : str) (lines : list str)
  : result (list Claim) :=
  match lines with
  | [] => Ok []
  | line :: rest =>
      if contains Wiki.CNMARK line then
        let claims := split Wiki.CNMARK line in
        cs <- line_loop article_title article_text_ claims rest 0 claims ;;
        cs' <- lines_loop article_title article_text_ rest ;;
        Ok (cs ++ cs')
      else lines_loop article_title article_text_ rest
  end.

(** [ArticleClaims.from_text]: the claims stored in [self.claims], or the
    exception that escapes. *)
Definition from_text (article_title article_text_ : str) : result (list Claim) :=
  lines_loop article_title article_text_ (split [Wiki.newline] article_text_).

End Segmenter.

(** ** Numbers *)

Module Num.

Local Open Scope Q_scope.

(** [a < b] on floats. *)
Definition Qltb (a b : Q) : bool := negb (Qle_bool b a).

(** The builtin [sum]: from 0, left to right. *)
Definition sum (l : list Q) : Q := fold_left Qplus l 0.

(** A float that may be infinite or not a number: what dividing a
    [numpy.float64] gives, a zero divisor raising nothing. *)
Inductive fval :=
| Fin (q : Q)
| PlusInf
| MinusInf
| NaN.

Definition np_div (a b : Q) : fval :=
  if Qeq_bool b 0 then
    if Qltb 0 a then PlusInf
    else if Qltb a 0 then MinusInf
    else NaN
  else Fin (a / b).

(** [v > c]; false on [NaN]. *)
Definition fgt (v : fval) (c : Q) : bool :=
  match v with
  | Fin q => Qltb c q
  | PlusInf => true
  | MinusInf => false
  | NaN => false
  end.

(** [sorted(a)] in ascending order. *)
Fixpoint insert_sorted (x : Q) (l : list Q) : list Q :=
  match l with
  | [] => [x]
  | y :: l' => if Qle_bool x y then x :: l else y :: insert_sorted x l'
  end.

Definition sorted (l : list Q) : list Q := fold_right insert_sorted [] l.

(** [numpy.percentile(a, q)] with its default linear interpolation (library
    code, outside the repository): on the sorted values, the index
    [q / 100 * (n - 1)] is split into its floor and the fraction above it,
    and the two neighbouring values are weighted by the fraction, the upper
    neighbour being capped at the last value.  An empty [a] has no value to
    take: the call raises.  The products and the sum are exact here; numpy
    rounds each of them to a double, so percentiles that are equal here can
    differ there in the last place. *)
Definition percentile_value (a : list Q) (q : Z) : Q :=
  let ap := sorted a in
  let n := Z.of_nat (length ap) in
  let index := (inject_Z q / 100) * inject_Z (n - 1) in
  let below := Qfloor index in
  let above := Z.min (below + 1) (n - 1) in
  let w := index - inject_Z below in
  nth (Z.to_nat below) ap 0 * (1 - w) + nth (Z.to_nat above) ap 0 * w.

Definition percentile (a : list Q) (q : Z) : result Q :=
  match a with
  | [] => Raise IndexError
  | _ => Ok (percentile_value a q)
  end.

End Num.

(** ** claims.py: the numeric part of [Claim] *)

Module Cutoff.

Import Num.
Local Open Scope Q_scope.

Inductive tag :=
| very_large | large | medium_large | medium | medium_small | small
| very_small.

Definition TAGS : list tag :=
  [very_large; large; medium_large; medium; medium_small; small; very_small].

Definition tag_eqb (a b : tag) : bool :=
  match a, b with
  | very_large, very_large | large, large | medium_large, medium_large
  | medium, medium | medium_small, medium_small | small, small
  | very_small, very_small => true
  | _, _ => false
  end.

Definition __normalize (list_to_normalize : list Q) : list Q :=
  let list_sum := sum list_to_normalize in
  if Qeq_bool list_sum 0 then list_to_normalize
  else map (fun elem => 1 * elem / list_sum) list_to_normalize.

Definition __get_tag (value : fval) : tag :=
  if fgt value (85 # 100) then nth 0 TAGS very_small
  else if fgt value (7 # 10) then nth 1 TAGS very_small
  else if fgt value (6 # 10) then nth 2 TAGS very_small
  else if fgt value (4 # 10) then nth 3 TAGS very_small
  else if fgt value (3 # 10) then nth 4 TAGS very_small
  else if fgt value (15 # 100) then nth 5 TAGS very_small
  else nth 6 TAGS very_small.

(** [while maximum >= 0]; each iteration that does not return takes one
    unit of [fuel]. *)
Fixpoint __lower_by_max (fuel : nat) (breaking_point maximum change : Z)
  : result Z :=
  if (maximum >=? 0)%Z then
    if (breaking_point - maximum >=? 0)%Z then Ok (breaking_point - maximum)%Z
    else
      match fuel with
      | O => OutOfFuel
      | S fuel' =>
          __lower_by_max fuel' breaking_point (maximum - change)%Z change
      end
  else Ok breaking_point.

Definition coeff : list Z := [6; 5; 4; 4; 4; 3; 2]%Z.
Definition rates : list Z := [3; 3; 2; 2; 2; 1; 1]%Z.

(** [for j in range(0, 7)] with its [break]; [js] holds the values of [j]
    still to come. *)
Fixpoint strategy_inner (breaking_point : Z) (i : nat) (break_rate : tag)
  (strategy : Z) (js : list nat) : result Z :=
  match js with
  | [] => Ok strategy
  | j :: js' =>
      if tag_eqb break_rate (nth j TAGS very_small) then
        let maximum := (nth i coeff 0 * (Z.of_nat j + 1))%Z in
        __lower_by_max (S (Z.to_nat maximum)) breaking_point maximum
          (nth i rates 0%Z)
      else strategy_inner breaking_point i break_rate strategy js'
  end.

(** [for i in range(0, 7)] *)
Fixpoint strategy_outer (breaking_point : Z) (spread break_rate : tag)
  (strategy : Z) (is_ : list nat) : result Z :=
  match is_ with
  | [] => Ok strategy
  | i :: is' =>
      strategy <-
        (if tag_eqb spread (nth i TAGS very_small)
         then strategy_inner breaking_point i break_rate strategy (seq 0 7)
         else Ok strategy) ;;
      strategy_outer breaking_point spread break_rate strategy is'
  end.

(** The value [strategy] holds when [__get_strategy] returns. *)
Definition lowered_strategy (spread : tag) (breaking_point : Z)
  (break_rate : tag) : result Z :=
  strategy_outer breaking_point spread break_rate breaking_point (seq 0 7).

Definition __get_strategy (spread : tag) (breaking_point : Z)
  (break_rate : tag) : result Z :=
  _ <- lowered_strategy spread breaking_point break_rate ;;
  Ok breaking_point.

Record cutoff_state := mkCut {
  cumulative : Q;
  cur_max : Q;
  position : Z
}.

(** The body of the loop of [__get_cutoff] at [perc_value]. *)
Definition cutoff_step (tfidfs : list Q) (perc_value : Z) (st : cutoff_state)
  : result cutoff_state :=
  hi <- percentile tfidfs (perc_value + 10) ;;
  lo <- percentile tfidfs perc_value ;;
  let diff := hi - lo in
  Ok (if Qltb (cur_max st) diff
      then mkCut (cumulative st + diff) diff perc_value
      else mkCut (cumulative st + diff) (cur_max st) (position st)).

(** [while (perc_value >= 0): ...; perc_value -= 10] *)
Fixpoint cutoff_loop (fuel : nat) (tfidfs : list Q) (perc_value : Z)
  (st : cutoff_state) : result cutoff_state :=
  if (perc_value >=? 0)%Z then
    match fuel with
    | O => OutOfFuel
    | S fuel' =>
        st' <- cutoff_step tfidfs perc_value st ;;
        cutoff_loop fuel' tfidfs (perc_value - 10)%Z st'
    end
  else Ok st.

Definition __get_cutoff (tfidfs : list Q) : result Z :=
  st <- cutoff_loop 10 tfidfs 90 (mkCut 0 0 0) ;;
  let spread := __get_tag (Fin (cumulative st)) in
  let break_rate := __get_tag (np_div (cur_max st) (cumulative st)) in
  __get_strategy spread (position st) break_rate.

(** The reference definition of the cutoff, in the words of the
    specification: with [delta p = percentile (p + 10) - percentile p] on
    the buckets 0, 10, ..., 90, the largest bucket whose delta is the
    greatest of all, or 0 when no delta is positive. *)
Definition buckets_descending : list Z :=
  [90; 80; 70; 60; 50; 40; 30; 20; 10; 0]%Z.

Definition delta (tfidfs : list Q) (p : Z) : Q :=
  percentile_value tfidfs (p + 10) - percentile_value tfidfs p.

Definition qmax (a b : Q) : Q := if Qltb a b then b else a.

(** The loop of [__get_cutoff] once the percentiles are known to exist:
    one iteration on the delta function [d], and the buckets a run of [n]
    iterations visits. *)
Definition pure_step (d : Z -> Q) (st : cutoff_state) (p : Z) : cutoff_state :=
  if Qltb (cur_max st) (d p)
  then mkCut (cumulative st + d p) (d p) p
  else mkCut (cumulative st + d p) (cur_max st) (position st).

Definition descending (n : nat) : list Z :=
  map (fun k => (10 * Z.of_nat k)%Z) (rev (seq 0 n)).

Definition max_delta (tfidfs : list Q) : Q :=
  fold_left qmax (map (delta tfidfs) buckets_descending) 0.

Definition steepest_bucket (tfidfs : list Q) : Z :=
  if Qltb 0 (max_delta tfidfs) then
    match find (fun p => Qle_bool (max_delta tfidfs) (delta tfidfs p))
               buckets_descending with
    | Some p => p
    | None => 0%Z
    end
  else 0%Z.

End Cutoff.

(** ** gensim.utils.tokenize *)

Module Tokens.

(** The pattern of [gensim.utils.tokenize] (library code, outside the
    repository) is [(((?![\d])\w)+)]: a token is a maximal run of word
    characters that are not digits, that is, on the ASCII range, of letters
    and underscores. *)
Definition is_word_char (c : ascii) : bool :=
  let n := nat_of_ascii c in
  (((65 <=? n) && (n <=? 90)) || ((97 <=? n) && (n <=? 122)) || (n =? 95))%nat.

Definition flush (cur : str) : list str :=
  match cur with
  | [] => []
  | _ => [rev cur]
  end.

(** [cur] is the run being read, reversed. *)
Fixpoint tokenize_go (cur : str) (s : str) : list str :=
  match s with
  | [] => flush cur
  | c :: s' =>
      if is_word_char c then tokenize_go (c :: cur) s'
      else flush cur ++ tokenize_go [] s'
  end.

Definition tokenize (s : str) : list str := tokenize_go [] s.

(** [tokenize(text, to_lower=True)] lower-cases the text first. *)
Definition tokenize_lower (s : str) : list str := tokenize (lower s).

End Tokens.

(** ** claims.py: [Claim.get_query] *)

Module Query.

Import Num Cutoff Tokens Sentences Segmenter.
Local Open Scope Q_scope.

(** The [gensim] dictionary as the code reads it: [token2id] and [dfs],
    a missing key raising [KeyError]. *)
Record Dictionary := mkDict {
  token2id : str -> option Z;
  dfs : Z -> option Z
}.

(** [token == stored] for a [unicode] token and a stored byte string.  The
    list [tokens] holds [token.encode("utf-8")]; Python 2 compares a
    [unicode] object with a byte string by decoding the byte string as
    ASCII, and takes the two as different when that fails.  A stored byte
    string is written here as the token it encodes, so it decodes exactly
    when it is in the ASCII range. *)
Definition unicode_eqb (token stored : str) : bool :=
  is_ascii stored && str_eqb token stored.

(** [token in tokens] for a [unicode] token. *)
Definition unicode_mem (token : str) (tokens : list str) : bool :=
  existsb (unicode_eqb token) tokens.

(** [tokens.index(token)] for a [unicode] token that is in [tokens]. *)
Fixpoint index_of (token : str) (tokens : list str) : nat :=
  match tokens with
  | [] => 0
  | stored :: tokens' =>
      if unicode_eqb token stored then 0 else S (index_of token tokens')
  end.

(** [l[n] += v] *)
Fixpoint add_at (n : nat) (v : Q) (l : list Q) : list Q :=
  match l, n with
  | [], _ => []
  | y :: l', O => (y + v) :: l'
  | y :: l', S n' => y :: add_at n' v l'
  end.

(** [sentences[-i]] for [i >= 1]. *)
Definition nth_back (sentences : list str) (i : Z) : result str :=
  let len := Z.of_nat (length sentences) in
  if (i <=? len)%Z then Ok (nth (Z.to_nat (len - i)) sentences [])
  else Raise IndexError.

Record tf_state := mkTf {
  tokens : list str;
  token_weights : list Q;
  token_tfs : list Q
}.

Definition COEFFICIENT : Q := 6 # 10.

Section WithLog.

(** [math.log(x, base)] on arguments where it is defined. *)
Variable log : Q -> Q -> Q.

(** The body of [for token in tokenize(sentences[-i])]; the token is a
    [unicode] object, the list holds byte strings. *)
Definition weigh (i : Z) (st : tf_state) (token : str) : tf_state :=
  let token := lower token in
  if unicode_mem token (tokens st) then
    if negb (i =? 1)%Z
    then mkTf (tokens st)
              (add_at (index_of token (tokens st)) (1 * COEFFICIENT ^ i)
                 (token_weights st))
              (token_tfs st)
    else st
  else
    mkTf (tokens st ++ [token])
         (token_weights st ++ [if negb (i =? 1)%Z then 1 * COEFFICIENT ^ i else 1])
         (token_tfs st ++ [0]).

(** [while i < 4], with its [break] at the first sentence. *)
Fixpoint weight_loop (fuel : nat) (sentences : list str) (i : Z)
  (st : tf_state) : result tf_state :=
  if (i <? 4)%Z then
    match fuel with
    | O => OutOfFuel
    | S fuel' =>
        s <- nth_back sentences i ;;
        let st := fold_left (weigh i) (tokenize s) st in
        if str_eqb s (hd [] sentences) then Ok st
        else weight_loop fuel' sentences (i + 1)%Z st
    end
  else Ok st.

(** The tokens of the first sentence of an [F] claim of more than three
    sentences, weight 0.7; [token not in tokens] is the comparison of
    [weigh]. *)
Definition introduce (st : tf_state) (token : str) : tf_state :=
  let token := lower token in
  if negb (unicode_mem token (tokens st))
  then mkTf (tokens st ++ [token]) (token_weights st ++ [7 # 10])
            (token_tfs st ++ [0])
  else st.

(** [for x, token in enumerate(tokens): if token == word: ...; break];
    here the stored token is decoded first, so two [unicode] objects are
    compared. *)
Fixpoint count_word (word : str) (tokens : list str) (tfs : list Q) : list Q :=
  match tokens, tfs with
  | token :: tokens', tf :: tfs' =>
      if str_eqb (lower token) word then (tf + 1) :: tfs'
      else tf :: count_word word tokens' tfs'
  | _, _ => tfs
  end.

Definition count (st : tf_state) (word : str) : tf_state :=
  mkTf (tokens st) (token_weights st)
       (count_word (lower word) (tokens st) (token_tfs st)).

Definition __get_tokens_with_tfs (claim_type_ : claim_type)
  (sentences : list str) (text_ : str) : result (list str * list Q) :=
  st <- weight_loop 3 sentences 1 (mkTf [] [] []) ;;
  let st :=
    match claim_type_ with
    | F => if (Z.of_nat (length sentences) >? 3)%Z
           then fold_left introduce (tokenize (hd [] sentences)) st
           else st
    | B => st
    end in
  let st := fold_left count (tokenize text_) st in
  let weighted :=
    map (fun p => log (fst p + 14) 15 * snd p)
        (combine (token_tfs st) (token_weights st)) in
  Ok (tokens st, __normalize weighted).

(** One token of [__get_idfs]; whatever is raised inside the [try] (a
    missing key, a division by zero, a logarithm outside its domain) gives
    0. *)
Definition idf (dictionary : Dictionary) (num_documents : Z) (token : str) : Q :=
  match token2id dictionary token with
  | None => 0
  | Some tok_id =>
      match dfs dictionary tok_id with
      | None => 0
      | Some df =>
          if (df =? 0)%Z then 0
          else
            let ratio := 1 * inject_Z num_documents / inject_Z df in
            if Qle_bool ratio 0 then 0 else log ratio 2
      end
  end.

Definition __get_idfs (tokens : list str) (dictionary : Dictionary)
  (num_documents : Z) : list Q :=
  map (idf dictionary num_documents) tokens.

(** [sort(key=lambda tup: tup[1], reverse=True)]: descending and stable. *)
Fixpoint insert_desc (x : str * Q) (l : list (str * Q)) : list (str * Q) :=
  match l with
  | [] => [x]
  | y :: l' => if Qltb (snd x) (snd y) then y :: insert_desc x l' else x :: l
  end.

Definition sort_desc (l : list (str * Q)) : list (str * Q) :=
  fold_right insert_desc [] l.

(** [prequery.add(x)] on a set kept as a duplicate-free list. *)
Definition set_add (x : str) (s : list str) : list str :=
  if mem x s then s else s ++ [x].

(** The loop that fills [prequery], with its two [break]s. *)
Fixpoint select (perc : Q) (prequery : list str) (sorted_tokens : list (str * Q))
  : list str :=
  match sorted_tokens with
  | [] => prequery
  | token :: rest =>
      if Qle_bool perc (snd token) then
        let prequery := set_add (fst token) prequery in
        if (Z.of_nat (length prequery) >=? 10)%Z then prequery
        else select perc prequery rest
      else prequery
  end.

(** [if len(query) > 8: query = query[:7]] *)
Definition truncate (query : list str) : list str :=
  if (Z.of_nat (length query) >? 8)%Z then slice query None (Some 7%Z)
  else query.

(** The body of [for keyword in reversed(title_array)]; a token from
    [tokenize] is a [unicode] object, so the [isinstance(keyword, str)]
    branch is not taken. *)
Definition prepend (query : list str) (keyword : str) : list str :=
  let keyword := lower keyword in
  if negb (mem keyword query) then keyword :: query else query.

(** From the scores on: the selection, its order in the claim, the cut to
    length and the title. *)
Definition assemble (title_ : str) (tokens : list str) (tfidfs : list Q)
  (perc : Q) : list str :=
  let tokens_with_idfs := sort_desc (combine tokens tfidfs) in
  let prequery := select perc [] tokens_with_idfs in
  let query := filter (fun token => mem token prequery) tokens in
  let query := truncate query in
  fold_left prepend (rev (tokenize title_)) query.

(** The selected body tokens: [query] as it is before the title loop. *)
Definition body (tokens : list str) (tfidfs : list Q) (perc : Q) : list str :=
  let prequery := select perc [] (sort_desc (combine tokens tfidfs)) in
  truncate (filter (fun token => mem token prequery) tokens).

(** The scores of [get_query] up to the normalised [tfidfs]. *)
Definition scores (c : Claim) (dictionary : Dictionary) (article_count : Z)
  : result (list str * list Q) :=
  let sentences := _split_in_sents (text c) in
  tt <- __get_tokens_with_tfs (ctype c) sentences (article_text c) ;;
  let tokens := fst tt in
  let token_tfs := snd tt in
  let token_idfs := __get_idfs tokens dictionary article_count in
  let tfidfs := map (fun p => fst p * snd p) (combine token_tfs token_idfs) in
  Ok (tokens, __normalize tfidfs).

(** The list [query] that [get_query] joins. *)
Definition get_query_tokens (c : Claim) (dictionary : Dictionary)
  (article_count : Z) : result (list str) :=
  ts <- scores c dictionary article_count ;;
  let tokens := fst ts in
  let tfidfs := snd ts in
  cutoff <- __get_cutoff tfidfs ;;
  perc <- percentile tfidfs cutoff ;;
  Ok (assemble (title c) tokens tfidfs perc).

(** [Claim.get_query]: the string stored in [self.query]. *)
Definition get_query (c : Claim) (dictionary : Dictionary) (article_count : Z)
  : result str :=
  query <- get_query_tokens c dictionary article_count ;;
  Ok (join (lit " ") query).

End WithLog.

(** The title tokens in front of the query, as the specification words
    them: the lower-cased tokens of the title, in title order, each once. *)
Definition title_tokens (title_ : str) : list str :=
  map lower (tokenize title_).

(** The property of the specification: at most 8 tokens, the deduplicated
    title tokens in front of the body tokens. *)
Definition query_as_specified (title_ : str) (query : list str) : Prop :=
  (Z.of_nat (length query) <= 8)%Z
  /\ exists body_tokens,
       query = nodup (list_eq_dec ascii_dec) (title_tokens title_) ++ body_tokens.

(** What the title loop puts in front: the title tokens that are not among
    the body tokens, each once. *)
Definition title_front (title_ : str) (body_tokens : list str) : list str :=
  nodup (list_eq_dec ascii_dec)
    (filter (fun k => negb (mem k body_tokens)) (title_tokens title_)).

(** The claim of the running example, as [from_text] extracts it. *)
Definition tea_article : str :=
  lit "Green tea was first brewed in ancient China$$CNMARK$$.".

Definition tea_claim : Claim :=
  mkClaim (lit "Tea history")
    (lit "Green tea was first brewed in ancient China") B tea_article.

(** A claim of two sentences. *)
Definition stayed_claim : Claim :=
  mkClaim (lit "Notes") (lit "He left. She stayed") B
    (lit "He left. She stayed$$CNMARK$$.").

(** A dictionary that knows no token. *)
Definition empty_dictionary : Dictionary :=
  mkDict (fun _ => None) (fun _ => None).

(** An instance of [log] for runs whose outcome does not depend on it. *)
Definition log_any : Q -> Q -> Q := fun x _ => x.

End Query.

(** ** bingapi.py: the similarity scorer *)

Module Bing.

Import Num Tokens.
Local Open Scope Q_scope.

(** A bag of words: the tokens of a document that the dictionary knows,
    each with its number of occurrences.  [gensim] numbers the tokens of the
    dictionary and keys the bag by these numbers; the bag is keyed here by
    the token itself. *)
Definition bow := list (str * Q).

Definition count_occ_str (t : str) (tokens : list str) : Q :=
  inject_Z (Z.of_nat (length (filter (str_eqb t) tokens))).

(** [gensim.corpora.Dictionary(documents)]: the tokens of the documents. *)
Definition Dictionary (documents : list (list str)) : list str :=
  nodup (list_eq_dec ascii_dec) (concat documents).

(** [dictionary.doc2bow(tokens)]: tokens outside the dictionary are left
    out. *)
Definition doc2bow (dictionary : list str) (tokens : list str) : bow :=
  map (fun t => (t, count_occ_str t tokens))
      (nodup (list_eq_dec ascii_dec)
         (filter (fun t => mem t dictionary) tokens)).

(** [vec.get(index, 0.0)] *)
Definition get (vec : bow) (index : str) : Q :=
  match find (fun p => str_eqb (fst p) index) vec with
  | Some p => snd p
  | None => 0
  end.

Section WithSqrt.

(** [math.sqrt] *)
Variable sqrt : Q -> Q.

Definition veclen (vec : bow) : Q :=
  1 * sqrt (sum (map (fun p => snd p * snd p) vec)).

(** [gensim.matutils.cossim] (library code, outside the repository): 0.0
    when either vector is empty; otherwise the two lengths are asserted to be
    positive, and the sum of the products over the shorter vector is divided
    by the product of the lengths. *)
Definition cossim (vec1 vec2 : bow) : result Q :=
  match vec1, vec2 with
  | [], _ => Ok 0
  | _, [] => Ok 0
  | _, _ =>
      let vec1len := veclen vec1 in
      let vec2len := veclen vec2 in
      if Qltb 0 vec1len && Qltb 0 vec2len then
        let (a, b) :=
          if (length vec2 <? length vec1)%nat then (vec2, vec1)
          else (vec1, vec2) in
        Ok (sum (map (fun p => snd p * get b (fst p)) a) / (vec1len * vec2len))
      else Raise AssertionError
  end.

(** The page fetch ([urllib2.urlopen], [geturl], [read]) gives the resolved
    URL and the page or raises; the extractor ([justext.justext]) gives the
    texts of the paragraphs or raises. *)
Variable urlopen : str -> exn + (str * str).
Variable justext : str -> exn + list str.

Variables (article_text claim_text : str).

(** The body of [for paragraph in paragraphs]; the state is
    [(similar_paragraph, max_similarity)]. *)
Definition compare_paragraph (dictionary : list str) (claim_bow : bow)
  (st : str * Q) (paragraph : str) : result (str * Q) :=
  let paragraph_tokens := tokenize_lower paragraph in
  let paragraph_bow := doc2bow dictionary paragraph_tokens in
  paragraph_similarity <- cossim paragraph_bow claim_bow ;;
  Ok (if Qltb (snd st) paragraph_similarity
      then (paragraph, paragraph_similarity)
      else st).

Fixpoint compare_paragraphs (dictionary : list str) (claim_bow : bow)
  (st : str * Q) (paragraphs : list str) : result (str * Q) :=
  match paragraphs with
  | [] => Ok st
  | paragraph :: rest =>
      st' <- compare_paragraph dictionary claim_bow st paragraph ;;
      compare_paragraphs dictionary claim_bow st' rest
  end.

(** [BingResponse.__compare_site]: [Ok None] is the [None] it returns,
    [Ok (Some (url, excerpt))] the tuple. *)
Definition __compare_site (url : str) : result (option (str * str)) :=
  match urlopen url with
  | inl _ => Ok None
  | inr (actual_url, page) =>
      match justext page with
      | inl _ => Ok None
      | inr paragraphs =>
          let page_text := join [Wiki.newline] paragraphs in
          let text_tokens := tokenize_lower page_text in
          let article_tokens := tokenize_lower article_text in
          let claim_tokens := tokenize_lower claim_text in
          let dictionary := Dictionary [text_tokens; claim_tokens] in
          let text_bow := doc2bow dictionary text_tokens in
          let article_bow := doc2bow dictionary article_tokens in
          let claim_bow := doc2bow dictionary claim_tokens in
          page_similarity <- cossim text_bow article_bow ;;
          st <- compare_paragraphs dictionary claim_bow ([], 0) paragraphs ;;
          let similar_paragraph := fst st in
          let similar_paragraph :=
            if (Z.of_nat (length similar_paragraph) >? 1000)%Z
            then slice similar_paragraph None (Some 1000%Z)
            else similar_paragraph in
          Ok (Some (actual_url, similar_paragraph))
      end
  end.

End WithSqrt.

(** Two texts share a token. *)
Definition shares_token (a b : str) : Prop :=
  exists t, In t (tokenize_lower a) /\ In t (tokenize_lower b).

(** All the values of a bag are positive. *)
Definition positive (vec : bow) : Prop := Forall (fun p => 0 < snd p) vec.

(** Instances of the parameters for runs: a square root positive on
    positive numbers, a network with one page, an extractor that takes every
    line of the page for a paragraph. *)
Definition sqrt_any : Q -> Q := fun x => x.

Definition one_page (url : str) : exn + (str * str) :=
  if str_eqb url (lit "http://a.example")
  then inr (lit "http://b.example/", lit "Green tea" ++ [Wiki.newline] ++ lit "Red wine")
  else inl IOError.

Definition lines_extractor (page : str) : exn + list str :=
  inr (split [Wiki.newline] page).

End Bing.

(** ** bingapi.py: host names and the search query *)

Module Urls.

(** [s.index(sub)]: the lowest index where [sub] starts, [ValueError] when
    there is none. *)
Fixpoint index_from (sub s : str) (i : Z) : result Z :=
  if startswith sub s then Ok i
  else
    match s with
    | [] => Raise ValueError
    | _ :: s' => index_from sub s' (i + 1)
    end.

Definition index (s sub : str) : result Z := index_from sub s 0.

(** [l[k]] for [k >= 0]. *)
Definition getitem {A} (l : list A) (k : nat) : result A :=
  match nth_error l k with
  | Some x => Ok x
  | None => Raise IndexError
  end.

Definition _extract_hostname (url : str) : result str :=
  i <- index url (lit "://") ;;
  hostname <-
    (if i >? -1 then getitem (split (lit "/") url) 2
     else getitem (split (lit "/") url) 0) ;;
  hostname <- getitem (split (lit ":") hostname) 0 ;;
  getitem (split (lit "?") hostname) 0.

Definition _extract_root_domain (url : str) : result str :=
  domain <- _extract_hostname url ;;
  let split_ := split (lit ".") domain in
  let arr_length := length split_ in
  if (Z.of_nat arr_length >? 2) then
    a <- getitem split_ (arr_length - 2) ;;
    b <- getitem split_ (arr_length - 1) ;;
    let domain := a ++ lit "." ++ b in
    if (Z.of_nat (length b) =? 2) && (Z.of_nat (length b) =? 2) then
      c <- getitem split_ (arr_length - 3) ;;
      Ok (c ++ lit "." ++ domain)
    else Ok domain
  else Ok domain.

(** The loop of [__build_query] over the ignored sites, with its [break];
    [length_] is the variable [length]. *)
Fixpoint add_sites (query : str) (length_ : Z) (sites : list str) : str :=
  match sites with
  | [] => query
  | site :: rest =>
      let append := lit " OR site:" ++ site in
      let length_ := length_ + Z.of_nat (length append) in
      if length_ <=? 1400 then add_sites (query ++ append) length_ rest
      else query
  end.

(** The query before the loop. *)
Definition query_head (keywords : str) (ignored_sites : list str) : str :=
  let query := keywords ++ lit " NOT (link:wikipedia.org" in
  if negb (mem (lit "wikipedia.org") ignored_sites)
  then query ++ lit "OR site:wikipedia.org"
  else query.

Definition __build_query (keywords : str) (ignored_sites : list str) : str :=
  let query := query_head keywords ignored_sites in
  let length_ := Z.of_nat (length query) in
  add_sites query length_ ignored_sites ++ lit ")".

(** The exclusions the loop appends for the first [k] sites. *)
Definition exclusions (sites : list str) (k : nat) : str :=
  concat (map (fun site => lit " OR site:" ++ site) (firstn k sites)).

End Urls.

(** ** Counting markers *)

Module Markers.

(** The number of markers in the lines of an article: a line split on the
    marker has one segment more than it has markers. *)
Definition marker_count (lines : list str) : nat :=
  fold_right (fun line acc => (length (split Wiki.CNMARK line) - 1 + acc)%nat)
    0%nat lines.

(** What every extracted claim satisfies: it carries the title and the
    text of its article, and a backward claim has at least 15 characters. *)
Definition claim_ok (article_title article_text_ : str)
  (c : Segmenter.Claim) : Prop :=
  Segmenter.title c = article_title
  /\ Segmenter.article_text c = article_text_
  /\ (Segmenter.ctype c = Segmenter.B ->
      (15 <= length (Segmenter.text c))%nat).

End Markers.

(** ** Ranks of the tags *)

Module Ranks.

Import Cutoff.

(** The index of a tag in [TAGS]: 0 for [very_large], 6 for [very_small]. *)
Definition tag_rank (t : tag) : nat :=
  match t with
  | very_large => 0
  | large => 1
  | medium_large => 2
  | medium => 3
  | medium_small => 4
  | small => 5
  | very_small => 6
  end.

End Ranks.

(** ** The invariant of the token tables *)

Module TokenTables.

Import Query.

(** What the three parallel lists of [__get_tokens_with_tfs] keep whatever
    the text is: every token lower-cased, one weight and one count per
    token. *)
Definition tables_ok (st : tf_state) : Prop :=
  Forall lowered (tokens st)
  /\ length (token_weights st) = length (tokens st)
  /\ length (token_tfs st) = length (tokens st).

(** What they keep on text in the ASCII range: the tokens are in that range
    and none is stored twice. *)
Definition tokens_ok (st : tf_state) : Prop :=
  NoDup (tokens st) /\ Forall (fun t => is_ascii t = true) (tokens st).

(** The entry [k] of the tokens repeats an earlier entry: the loop over the
    words of the article stops at the earlier one. *)
Definition repeats (tokens : list str) (k : nat) : bool :=
  mem (lower (nth k tokens [])) (map lower (firstn k tokens)).

(** The number of words that, lower-cased, are the token [t]. *)
Definition occurrences (t : str) (words : list str) : Q :=
  inject_Z (Z.of_nat (length (filter (fun w => str_eqb t (lower w)) words))).

End TokenTables.

(** ** A claim made of dots *)

Module Dots.

(** An article whose marker follows sixteen dots, and the backward claim
    [from_text] extracts from it. *)
Definition dots_article : str := lit "................$$CNMARK$$ and more".

Definition dots_claim : Segmenter.Claim :=
  Segmenter.mkClaim (lit "Dots") (lit "................") Segmenter.B
    dots_article.

End Dots.

(** ** The positions the scanner records *)

Module Positions.

Import Wiki.

(** The starts and ends in the order of the text: a start, its end, the
    next start, its end, ... *)
Fixpoint interleave (sts ens : list Z) : list Z :=
  match sts, ens with
  | a :: sts', b :: ens' => a :: b :: interleave sts' ens'
  | a :: _, [] => [a]
  | [], _ => []
  end.

(** What the scanner keeps, [i] characters having been read. *)
Definition scan_ok (st : scan_state) (i : Z) : Prop :=
  let il := interleave (starts st) (ends st) in
  StronglySorted Z.lt il
  /\ Forall (fun x => 0 <= x < i) il
  /\ (prev_c st = None \/ 1 <= i)
  /\ (if in_template st
      then length (starts st) = S (length (ends st))
           /\ n_close st < n_open st
      else length (starts st) = length (ends st)
           /\ n_close st = 0
           /\ (prev_c st = Some lbrace -> Forall (fun x => x < i - 1) il)).

(** A text without braces. *)
Definition flat (a : str) : Prop :=
  Forall (fun c => c <> lbrace /\ c <> rbrace) a.

(** The position [i] lies in one of the spans, both ends included. *)
Definition covered (sps : list (Z * Z)) (i : Z) : bool :=
  existsb (fun p => (fst p <=? i) && (i <=? snd p)) sps.

(** The characters of [s], which begins at position [i] of the text, that
    lie in none of the spans. *)
Fixpoint outside_from (sps : list (Z * Z)) (i : Z) (s : str) : str :=
  match s with
  | [] => []
  | c :: s' =>
      if covered sps i then outside_from sps (i + 1) s'
      else c :: outside_from sps (i + 1) s'
  end.

(** The text up to the opening braces of a template that is never closed;
    the whole text when the scanner ends outside a template. *)
Definition closed_part (s : str) : str :=
  if in_template (scan s)
  then firstn (Z.to_nat (last (starts (scan s)) 0)) s
  else s.

End Positions.

(** ** bingapi.py: the sites kept for a claim *)

Module Sites.

Import Bing.

(** An entry of the Bing response: [website['url']], [website['name']],
    [website['snippet']]. *)
Record website := mkSite {
  url : str;
  name : str;
  snippet : str
}.

Section WithNetwork.

Variable sqrt : Q -> Q.
Variable urlopen : str -> exn + (str * str).
Variable justext : str -> exn + list str.
Variables (article_text claim_text : str).

(** The loop of [BingResponse.__init__] that fills [self.valid_sites]. *)
Fixpoint valid_sites (response_sites : list website)
  : result (list (str * str * str * str)) :=
  match response_sites with
  | [] => Ok []
  | w :: rest =>
      response_tuple <-
        __compare_site sqrt urlopen justext article_text claim_text (url w) ;;
      found <- valid_sites rest ;;
      Ok match response_tuple with
         | Some t => (fst t, name w, snippet w, snd t) :: found
         | None => found
         end
  end.

(** The page of the site can be fetched and its paragraphs extracted. *)
Definition reachable (w : website) : bool :=
  match urlopen (url w) with
  | inr (_, page) =>
      match justext page with
      | inr _ => true
      | inl _ => false
      end
  | inl _ => false
  end.

(** The similarity of a paragraph to the claim, as the loop of
    [__compare_site] computes it. *)
Definition paragraph_similarity (dictionary : list str) (paragraph : str)
  : result Q :=
  cossim sqrt (doc2bow dictionary (Tokens.tokenize_lower paragraph))
    (doc2bow dictionary (Tokens.tokenize_lower claim_text)).

End WithNetwork.

End Sites.

(** ** runfinder.py: the identifiers of the claims of an article *)

Module Report.

(** [str(i)] for a count [i]. *)
Definition str_of_nat (i : nat) : str :=
  list_ascii_of_string (NilEmpty.string_of_uint (Nat.to_uint i)).

(** [ClaimResponses]: [claim_id] is ['-'] until the article sets it. *)
Record ClaimResponses := mkResponses {
  claim_text : str;
  claim_id : str;
  google_link : str;
  valid_sites : list (str * str * str * str)
}.

(** The loop of [ArticleResponse.__init__], [i] being its counter. *)
Fixpoint number_claims (article_id : str) (i : nat)
  (claims : list ClaimResponses) : list ClaimResponses :=
  match claims with
  | [] => []
  | claim :: rest =>
      mkResponses (claim_text claim) (article_id ++ lit "-" ++ str_of_nat i)
        (google_link claim) (valid_sites claim)
      :: number_claims article_id (i + 1) rest
  end.

Record ArticleResponse := mkArticle {
  article_id : str;
  article_title : str;
  claims : list ClaimResponses
}.

Definition new_ArticleResponse (article_id_ article_title_ : str)
  (claims_responses : list ClaimResponses) : ArticleResponse :=
  mkArticle article_id_ article_title_
    (number_claims article_id_ 0 claims_responses).

End Report.

(** * Properties *)

(** ** Sanity checks of the string primitives *)

Example split_pipe :
  split (lit "|") (lit "a||b|") = [lit "a"; []; lit "b"; []].
Proof. reflexivity. Qed.

Example split_multi :
  split (lit "ab") (lit "xabababy") = [lit "x"; []; []; lit "y"].
Proof. reflexivity. Qed.

Example slice_tail : slice (lit "abcdef") (Some (-4)) None = lit "cdef".
Proof. reflexivity. Qed.

Example strip_ex : strip (lit "  a b ") = lit "a b".
Proof. reflexivity. Qed.

Example rewrite_quote :
  Wiki.replace_citation_templates
    (lit "Intro{{Quote|text=Hello World|author=Me}} end{{x}}.")
    [lit "cn"] (lit "quote") (lit "text")
  = lit "Intro" ++ [Wiki.newline] ++ lit "hello world end.".
Proof. vm_compute. reflexivity. Qed.

(** ** The template rewriter *)

Section Rewriter.

Import Wiki.

Lemma lower_char_idem c : lower_char (lower_char c) = lower_char c.
Proof.
  destruct c as [[] [] [] [] [] [] [] []]; vm_compute; reflexivity.
Qed.

Lemma lowered_lower s : lowered (lower s).
Proof.
  unfold lowered, lower. induction s as [|c s IH]; simpl; constructor; auto.
  apply lower_char_idem.
Qed.

Lemma lowered_fix s : lowered s -> lower s = s.
Proof.
  unfold lowered, lower. induction 1; simpl; congruence.
Qed.

Lemma lowered_app a b : lowered a -> lowered b -> lowered (a ++ b).
Proof. unfold lowered. intros. apply Forall_app. auto. Qed.

Lemma lowered_rev s : lowered s -> lowered (rev s).
Proof. unfold lowered. apply Forall_rev. Qed.

Lemma lowered_lstrip s : lowered s -> lowered (lstrip s).
Proof.
  unfold lowered. induction 1; simpl; auto.
  destruct (is_space x); auto.
Qed.

Lemma lowered_strip s : lowered s -> lowered (strip s).
Proof.
  intros H. unfold strip, rstrip.
  apply lowered_rev, lowered_lstrip, lowered_rev, lowered_lstrip, H.
Qed.

Lemma lowered_remove_char c s : lowered s -> lowered (remove_char c s).
Proof.
  unfold lowered, remove_char. intros H. apply Forall_forall.
  intros x Hx. apply filter_In in Hx. destruct Hx as [Hx _].
  revert x Hx. apply Forall_forall. exact H.
Qed.

Lemma lowered_concat l : Forall lowered l -> lowered (concat l).
Proof.
  induction 1; simpl; [constructor | apply lowered_app; auto].
Qed.

Lemma lowered_split_go sep s : forall skip cur,
  lowered cur -> lowered s -> Forall lowered (split_go sep skip cur s).
Proof.
  induction s as [|c s IH]; intros skip cur Hcur Hs; simpl.
  - constructor; [apply lowered_rev, Hcur | constructor].
  - inversion Hs; subst. destruct skip.
    + destruct (startswith sep (c :: s)).
      * constructor; [apply lowered_rev, Hcur|]. apply IH; [constructor | assumption].
      * apply IH; [constructor; assumption | assumption].
    + apply IH; assumption.
Qed.

Lemma lowered_split sep s : lowered s -> Forall lowered (split sep s).
Proof. intros. apply lowered_split_go; [constructor | assumption]. Qed.

Lemma lowered_nth (l : list str) n : Forall lowered l -> lowered (nth n l []).
Proof.
  intros H. revert n. induction H; intros [|n]; simpl; auto; constructor.
Qed.

Lemma lowered_tl (l : list str) : Forall lowered l -> Forall lowered (tl l).
Proof. destruct 1; simpl; auto. Qed.

Lemma lowered_quote_fold sep parts : forall q0,
  Forall lowered parts -> lowered q0 ->
  lowered (fold_left
    (fun quote part =>
       if contains sep part then strip (nth 1 (split sep part) []) else quote)
    parts q0).
Proof.
  induction parts as [|p ps IH]; intros q0 H Hq0; simpl; auto.
  inversion H; subst. apply IH; auto.
  destruct (contains sep p); auto.
  apply lowered_strip, lowered_nth, lowered_split. assumption.
Qed.

Lemma lowered_get_quote template text_identifier :
  lowered (get_quote template text_identifier).
Proof.
  unfold get_quote.
  assert (Hp : Forall lowered (split (lit "|") (lower template)))
    by apply lowered_split, lowered_lower.
  assert (Hq : lowered (quote_of_parts (text_identifier ++ lit "=")
                          (split (lit "|") (lower template))))
    by (apply lowered_quote_fold; [exact Hp | constructor]).
  destruct (quote_of_parts _ _) eqn:E; [|exact Hq].
  unfold quote_fallback.
  apply lowered_strip, lowered_remove_char, lowered_concat, lowered_tl, Hp.
Qed.

(** C10. The quote text [get_quote] hands to the rewriter is lower-cased
    whichever way it was found: lower-casing it again changes nothing, and no
    character of it is an upper-case letter, because both the value of a
    matching text parameter and the fallback are cut out of
    [template.lower()].  This text is what the rewriter emits, after a
    newline, for a template it takes for a quote. *)
Theorem get_quote_is_lowercase : forall template text_identifier,
  lower (get_quote template text_identifier) = get_quote template text_identifier
  /\ Forall (fun c => lower_char c = c) (get_quote template text_identifier)
  /\ (forall s sts ens set_citation quote_identifier aList i,
        is_cn template set_citation = false ->
        is_quote template quote_identifier = true ->
        emit s sts ens set_citation quote_identifier text_identifier aList i
          template
        = rev (drop_newline_tail (rev (aList ++ [nth i (pieces s sts ens) []])))
          ++ [[newline]; get_quote template text_identifier]).
Proof.
  intros. split; [apply lowered_fix, lowered_get_quote|].
  split; [apply lowered_get_quote|].
  intros s sts ens cs q aList i Hcn Hq. unfold emit. rewrite Hcn, Hq.
  reflexivity.
Qed.

Lemma get_quote_is_lowercase_witness :
  emit (lit "a{{Quote|text=Hello World}}") [1%Z] [26%Z] [lit "cn"] (lit "quote")
    (lit "text") [] 0 (lit "{{Quote|text=Hello World}}")
  = [lit "a"; [newline]; lit "hello world}}"].
Proof.
  exact (proj2 (proj2 (get_quote_is_lowercase
                         (lit "{{Quote|text=Hello World}}") (lit "text")))
           (lit "a{{Quote|text=Hello World}}") [1%Z] [26%Z] [lit "cn"]
           (lit "quote") [] 0%nat eq_refl eq_refl).
Defined.

Example get_quote_param :
  get_quote (lit "{{Quote|text=Hello World|author=Me}}") (lit "text")
  = lit "hello world".
Proof. reflexivity. Qed.

Example get_quote_fallback :
  get_quote (lit "{{Quote|Hello World|Me}}") (lit "text") = lit "hello worldme".
Proof. reflexivity. Qed.

Lemma quote_fold_none sep parts : forall q0,
  Forall (fun part => contains sep part = false) parts ->
  fold_left
    (fun quote part =>
       if contains sep part then strip (nth 1 (split sep part) []) else quote)
    parts q0 = q0.
Proof.
  induction parts as [|p ps IH]; intros q0 H; simpl; auto.
  inversion H as [|? ? Hp Hps]; subst. rewrite Hp. apply IH, Hps.
Qed.

Lemma remove_char_not_in c s : ~ In c (remove_char c s).
Proof.
  unfold remove_char. intros H. apply filter_In in H. destruct H as [_ H].
  rewrite Ascii.eqb_refl in H. discriminate.
Qed.

Lemma lstrip_incl s x : In x (lstrip s) -> In x s.
Proof.
  induction s as [|c s IH]; simpl; auto.
  destruct (is_space c); simpl; auto.
Qed.

Lemma strip_incl s x : In x (strip s) -> In x s.
Proof.
  unfold strip, rstrip. intros H.
  apply in_rev, lstrip_incl in H. apply in_rev in H.
  apply lstrip_incl, H.
Qed.

(** C3, as the code has it.  When no pipe-delimited part of the lower-cased
    template contains [text_identifier + "="], [get_quote] returns the parts
    after the first one concatenated (the pipes are gone), with every closing
    brace removed, interior ones included, and then stripped of surrounding
    white space; no closing brace is left in it. *)
Theorem get_quote_fallback_removes_all_braces :
  forall template text_identifier,
  Forall (fun part => contains (text_identifier ++ lit "=") part = false)
         (split (lit "|") (lower template)) ->
  get_quote template text_identifier
  = strip (remove_char rbrace (concat (tl (split (lit "|") (lower template)))))
  /\ ~ In rbrace (get_quote template text_identifier).
Proof.
  intros template text_identifier H.
  assert (E : get_quote template text_identifier
    = strip (remove_char rbrace
               (concat (tl (split (lit "|") (lower template)))))).
  { unfold get_quote, quote_of_parts. rewrite quote_fold_none by exact H.
    reflexivity. }
  split; [exact E|]. rewrite E. intros Hin.
  apply strip_incl in Hin. exact (remove_char_not_in _ _ Hin).
Qed.

Lemma get_quote_fallback_removes_all_braces_witness :
  get_quote (lit "{{quote|a}b}}") (lit "text") = lit "ab"
  /\ ~ In rbrace (get_quote (lit "{{quote|a}b}}") (lit "text")).
Proof.
  apply (get_quote_fallback_removes_all_braces (lit "{{quote|a}b}}") (lit "text")).
  repeat constructor.
Defined.

(** C3 as stated fails: on [{{quote|a}b}}], whose parts hold no [text=], the
    code emits [ab], while everything after the identifier stripped of its
    trailing braces only is [a}b]. *)
Lemma get_quote_fallback_interior_brace_lost :
  Forall (fun part => contains (lit "text=") part = false)
         (split (lit "|") (lit "{{quote|a}b}}"))
  /\ fallback_as_specified (lit "{{quote|a}b}}") = lit "a}b"
  /\ get_quote (lit "{{quote|a}b}}") (lit "text") = lit "ab"
  /\ get_quote (lit "{{quote|a}b}}") (lit "text")
     <> fallback_as_specified (lit "{{quote|a}b}}").
Proof.
  split; [repeat constructor|]. split; [reflexivity|]. split; [reflexivity|].
  vm_compute. discriminate.
Qed.

(** C6. On ["x {{cn}} y"] with the citation names [{"cn"}] the rewriter
    returns ["x $$CNMARK$$ y"], whatever the quote identifiers are; on the
    nested ["{{a{{b}}c}}"] the scanner records the single span from index 0
    to index 10, which is the whole string, and its depth, positive from the
    second character on, is back at zero only after the last [}]. *)
Theorem rewriter_examples : forall quote_identifier text_identifier,
  replace_citation_templates (lit "x {{cn}} y") [lit "cn"]
    quote_identifier text_identifier = lit "x $$CNMARK$$ y"
  /\ spans (lit "{{a{{b}}c}}") = [(0, 10)]
  /\ templates (lit "{{a{{b}}c}}") [0] [10] = [lit "{{a{{b}}c}}"]
  /\ Z.of_nat (length (lit "{{a{{b}}c}}")) = 11
  /\ depth_trace (lit "{{a{{b}}c}}")
     = [(false, 0); (true, 2); (true, 2); (true, 3); (true, 4); (true, 4);
        (true, 3); (true, 2); (true, 2); (true, 1); (false, 0)].
Proof.
  intros. repeat split; vm_compute; reflexivity.
Qed.

Lemma scan_from_no_template s : forall st i,
  in_template st = false -> starts st = [] -> ends st = [] ->
  contains (lit "{{") (prev_text st ++ s) = false ->
  starts (scan_from st i s) = [] /\ ends (scan_from st i s) = [].
Proof.
  induction s as [|c s IH]; intros st i Hin Hst Hen Hno; simpl; [auto|].
  assert (Hstep : scan_step st i c
                  = mkScan (n_open st) (n_close st) [] [] false (Some c)).
  { destruct st as [o k sts ens it p]. simpl in *. subst.
    unfold scan_step, prev_text in *. simpl in *.
    destruct (Ascii.eqb c lbrace) eqn:Ec; simpl; [|reflexivity].
    destruct p as [d|]; simpl; [|reflexivity].
    destruct (Ascii.eqb c d) eqn:Ed; simpl; [|reflexivity].
    exfalso. apply Ascii.eqb_eq in Ec, Ed. subst.
    simpl in Hno. discriminate. }
  rewrite Hstep. apply IH; simpl; auto.
  unfold prev_text in *. simpl.
  destruct (prev_c st) as [d|]; simpl in Hno.
  - apply orb_false_iff in Hno. destruct Hno as [_ Hno]. exact Hno.
  - exact Hno.
Qed.

Lemma slice_all {A} (s : list A) : slice s (Some 0) None = s.
Proof.
  unfold slice, clip. simpl.
  rewrite Z.max_l by lia. rewrite Z.sub_0_r, Nat2Z.id.
  simpl. apply firstn_all.
Qed.

Lemma rewrite_no_open s cs q t :
  contains (lit "{{") s = false -> replace_citation_templates s cs q t = s.
Proof.
  intros H. unfold replace_citation_templates, scan.
  destruct (scan_from_no_template s scan_init 0) as [Hs He]; auto.
  rewrite Hs, He. unfold templates, pieces, zip. simpl.
  change (-1 + 1) with 0. rewrite slice_all. apply app_nil_r.
Qed.

(** C8, as the code has it.  A text with no two consecutive opening braces
    comes back from the rewriter unchanged, so running the rewriter again on
    such an output is the identity. *)
Theorem rewriter_identity_without_open :
  forall s set_citation quote_identifier text_identifier,
  contains (lit "{{") s = false ->
  replace_citation_templates s set_citation quote_identifier text_identifier = s
  /\ replace_citation_templates
       (replace_citation_templates s set_citation quote_identifier
          text_identifier)
       set_citation quote_identifier text_identifier = s.
Proof.
  intros s cs q t H.
  rewrite (rewrite_no_open s cs q t H). split; [reflexivity|].
  apply rewrite_no_open, H.
Qed.

Lemma rewriter_identity_without_open_witness :
  replace_citation_templates (lit "a {b} c") [lit "cn"] (lit "quote") (lit "text")
  = lit "a {b} c".
Proof.
  apply (rewriter_identity_without_open
           (lit "a {b} c") [lit "cn"] (lit "quote") (lit "text")).
  reflexivity.
Defined.

(** C8 as stated fails: in ["ab{{c"] the scanner opens a template that never
    closes, so it records no span, and the rewriter returns only ["ab"]. *)
Lemma rewriter_truncates_unclosed_template :
  spans (lit "ab{{c") = []
  /\ templates (lit "ab{{c") (starts (scan (lit "ab{{c")))
       (ends (scan (lit "ab{{c"))) = []
  /\ replace_citation_templates (lit "ab{{c") [lit "cn"] (lit "quote")
       (lit "text") = lit "ab"
  /\ replace_citation_templates (lit "ab{{c") [lit "cn"] (lit "quote")
       (lit "text") <> lit "ab{{c".
Proof.
  repeat split; try reflexivity. vm_compute. discriminate.
Qed.

End Rewriter.

(** ** The sentence splitter *)

Section Splitter.

Import Sentences.

Example split_dr :
  _split_in_sents (lit "Dr. Smith went home.") = [lit "Dr. Smith went home"].
Proof. reflexivity. Qed.

Example split_two :
  _split_in_sents (lit "He left. She stayed.") = [lit "He left"; lit " She stayed"].
Proof. reflexivity. Qed.

Lemma str_eqb_true a b : str_eqb a b = true <-> a = b.
Proof.
  unfold str_eqb. destruct (list_eq_dec ascii_dec a b); split; intros;
    congruence.
Qed.

Lemma str_eqb_false a b : str_eqb a b = false <-> a <> b.
Proof.
  unfold str_eqb. destruct (list_eq_dec ascii_dec a b); split; intros;
    congruence.
Qed.

Lemma begins_with_upper_not_lower w :
  begins_with_upper w = true -> lower w <> w.
Proof.
  destruct w as [|c w]; [discriminate|]. unfold begins_with_upper, is_upper_char.
  intros H [= Hc _]. rewrite Hc, Ascii.eqb_refl in H. discriminate.
Qed.

Lemma lower_fixed_not_upper w :
  lower w = w -> begins_with_upper w = false.
Proof.
  destruct w as [|c w]; [reflexivity|]. intros [= Hc _].
  unfold begins_with_upper, is_upper_char. rewrite Hc, Ascii.eqb_refl.
  reflexivity.
Qed.

(** C5, as the code has it by design.  At a boundary where the next
    fragment has two or more words and its first word is not all lower
    case, and where the last space-separated word of the last fragment in
    the buffer either begins with an upper-case letter or has no upper-case
    letter at all, the loop goes on without ending the sentence exactly when
    that word begins with an upper-case letter and the whole fragment, not
    the word, has at most 4 characters; otherwise it appends the buffer
    joined with dots and starts over. *)
Theorem abbreviation_rule_on_fragment :
  forall sentence_part elem part_next rest,
  2 <= Z.of_nat (length (words part_next)) ->
  is_lower (hd [] (words part_next)) = false ->
  begins_with_upper (last_word elem) = true
  \/ lower (last_word elem) = last_word elem ->
  (decide (sentence_part ++ [elem]) part_next = Continues <->
     begins_with_upper (last_word elem) = true /\ Z.of_nat (length elem) <= 4)
  /\ sents_loop sentence_part (elem :: part_next :: rest)
     = match decide (sentence_part ++ [elem]) part_next with
       | Continues => sents_loop (sentence_part ++ [elem]) (part_next :: rest)
       | Terminates =>
           join (lit ".") (sentence_part ++ [elem])
             :: sents_loop [] (part_next :: rest)
       end.
Proof.
  intros sp elem pn rest Hlen Hlow Hword. split; [|reflexivity].
  unfold decide, abbreviation. rewrite Hlow, last_last.
  destruct (Z.ltb_spec (Z.of_nat (length (words pn))) 1) as [H1|H1]; [lia|].
  destruct (Z.eqb_spec (Z.of_nat (length (words pn))) 1) as [H2|H2]; [lia|].
  simpl. unfold is_lower.
  destruct (str_eqb (lower (last_word elem)) (last_word elem)) eqn:E; simpl.
  - apply str_eqb_true in E.
    rewrite (lower_fixed_not_upper _ E). split; [discriminate|].
    intros [H _]. discriminate H.
  - apply str_eqb_false in E.
    destruct Hword as [Hup|Hfix]; [|contradiction]. rewrite Hup.
    destruct (Z.ltb_spec (Z.of_nat (length elem)) 5); split; intros;
      try tauto; try discriminate; try (split; [reflexivity | lia]). lia.
Qed.

Lemma abbreviation_rule_on_fragment_witness :
  decide ([] ++ [lit "Dr"]) (lit " Smith went home") = Continues <->
  begins_with_upper (last_word (lit "Dr")) = true
  /\ Z.of_nat (length (lit "Dr")) <= 4.
Proof.
  apply (abbreviation_rule_on_fragment [] (lit "Dr") (lit " Smith went home") []).
  - vm_compute. discriminate.
  - reflexivity.
  - left. reflexivity.
Defined.

(** C5 as stated fails.  In ["He met Dr. Smith went home"] the last word
    [Dr] of the buffer begins with a capital and has two characters, yet
    the fragment ["He met Dr"] has nine and the sentence ends there. *)
Lemma abbreviation_rule_as_specified_fails :
  2 <= Z.of_nat (length (words (lit " Smith went home")))
  /\ is_lower (hd [] (words (lit " Smith went home"))) = false
  /\ abbreviation_as_specified [lit "He met Dr"] = true
  /\ decide [lit "He met Dr"] (lit " Smith went home") = Terminates
  /\ _split_in_sents (lit "He met Dr. Smith went home.")
     = [lit "He met Dr"; lit " Smith went home"]
  /\ ~ (forall sentence_part part_next,
         2 <= Z.of_nat (length (words part_next)) ->
         is_lower (hd [] (words part_next)) = false ->
         (decide sentence_part part_next = Continues <->
          abbreviation_as_specified sentence_part = true)).
Proof.
  repeat split; try reflexivity; try (vm_compute; discriminate).
  intros H.
  destruct (H [lit "He met Dr"] (lit " Smith went home")) as [_ H2].
  - vm_compute. discriminate.
  - reflexivity.
  - specialize (H2 eq_refl). vm_compute in H2. discriminate.
Qed.

(** The test of the code for the capital is [word.lower() != word], which a
    capital anywhere in the word passes: in ["aB. Cd ef"] the word [aB]
    does not begin with a capital, as comment c) of the heuristic asks, and
    the sentence goes on all the same. *)
Example capital_inside_the_word :
  begins_with_upper (last_word (lit "aB")) = false
  /\ abbreviation (lit "aB") = true
  /\ decide [lit "aB"] (lit " Cd ef") = Continues
  /\ _split_in_sents (lit "aB. Cd ef") = [lit "aB. Cd ef"].
Proof. repeat split; reflexivity. Qed.

End Splitter.

(** ** Claim extraction *)

Section Extraction.

Import Segmenter.

Example from_text_backward :
  from_text (lit "Water") (lit "Water boils at 100C$$CNMARK$$ at sea level.")
  = Ok [mkClaim (lit "Water") (lit "Water boils at 100C") B
          (lit "Water boils at 100C$$CNMARK$$ at sea level.")].
Proof. reflexivity. Qed.

(** C4, at the failing input.  A one-line article whose marker follows a
    segment ending in a colon and is followed by nothing: the test
    ["*" in lines[line_no+1]] indexes past the last line before the [try] is
    entered, and [from_text] raises.  The same happens when a list
    continuation runs up to the last line of the article. *)
Theorem from_text_raises_on_last_line :
  from_text (lit "Cake") (lit "The ingredients are:$$CNMARK$$")
  = Raise IndexError
  /\ from_text (lit "Cake")
       (lit "The ingredients are:$$CNMARK$$" ++ [Wiki.newline] ++ lit "* flour")
     = Raise IndexError.
Proof. split; reflexivity. Qed.

Example from_text_forward_next_line :
  from_text (lit "Cake")
    (lit "The ingredients are:$$CNMARK$$" ++ [Wiki.newline] ++ lit "flour")
  = Ok [mkClaim (lit "Cake") (lit "The ingredients are: flour") F
          (lit "The ingredients are:$$CNMARK$$" ++ [Wiki.newline] ++ lit "flour")].
Proof. reflexivity. Qed.

End Extraction.

(** ** Normalisation *)

Section Normalize.

Import Num Cutoff.
Local Open Scope Q_scope.

Lemma fold_left_Qplus_acc l : forall a,
  fold_left Qplus l a == a + fold_left Qplus l 0.
Proof.
  induction l as [|x l IH]; intros a; simpl.
  - ring.
  - rewrite (IH (a + x)), (IH (0 + x)). ring.
Qed.

Lemma sum_cons x l : sum (x :: l) == x + sum l.
Proof.
  unfold sum. simpl. rewrite fold_left_Qplus_acc. ring.
Qed.

Lemma sum_map_div s l :
  ~ s == 0 -> sum (map (fun elem => 1 * elem / s) l) == sum l / s.
Proof.
  intros Hs. induction l as [|x l IH].
  - unfold sum. simpl. field. exact Hs.
  - simpl map. rewrite !sum_cons, IH. field. exact Hs.
Qed.

Lemma normalize_pointwise s l :
  Forall2 (fun elem r => r == elem / s) l (map (fun elem => 1 * elem / s) l).
Proof.
  induction l as [|x l IH]; simpl; constructor; auto.
  unfold Qdiv. ring.
Qed.

(** C7. When the sum of the list is 0, [__normalize] returns the list it
    was given; otherwise it returns the list of the elements each divided by
    the sum, and over the rationals that list sums to exactly 1. *)
Theorem normalize_sums_to_one : forall l,
  (sum l == 0 -> __normalize l = l)
  /\ (~ sum l == 0 ->
      length (__normalize l) = length l
      /\ Forall2 (fun elem r => r == elem / sum l) l (__normalize l)
      /\ sum (__normalize l) == 1).
Proof.
  intros l. unfold __normalize. split; intros H.
  - apply Qeq_bool_iff in H. rewrite H. reflexivity.
  - destruct (Qeq_bool (sum l) 0) eqn:E.
    + apply Qeq_bool_iff in E. contradiction.
    + split; [apply length_map|]. split; [apply normalize_pointwise|].
      rewrite sum_map_div by exact H. field. exact H.
Qed.

Lemma normalize_sums_to_one_witness :
  __normalize [1; -1] = [1; -1]
  /\ sum (__normalize [1; 3]) == 1.
Proof.
  split.
  - apply (proj1 (normalize_sums_to_one [1; -1])). reflexivity.
  - apply (proj2 (normalize_sums_to_one [1; 3])).
    intros H. vm_compute in H. discriminate.
Defined.

Example normalize_values : __normalize [1; 3] = [1 * 1 / (0 + 1 + 3); 1 * 3 / (0 + 1 + 3)].
Proof. reflexivity. Qed.

End Normalize.

(** ** The adaptive cutoff *)

Section AdaptiveCutoff.

Import Num Cutoff.
Local Open Scope Q_scope.

Lemma Qltb_lt a b : Qltb a b = true <-> a < b.
Proof.
  unfold Qltb. rewrite negb_true_iff. split; intros H.
  - apply Qnot_le_lt. intros Hle. apply Qle_bool_iff in Hle. congruence.
  - destruct (Qle_bool b a) eqn:E; [|reflexivity].
    apply Qle_bool_iff in E. exfalso. exact (Qlt_not_le _ _ H E).
Qed.

Lemma Qltb_ge a b : Qltb a b = false <-> b <= a.
Proof.
  unfold Qltb. rewrite negb_false_iff. apply Qle_bool_iff.
Qed.

Lemma Qle_bool_false a b : Qle_bool a b = false <-> b < a.
Proof.
  rewrite <- Qltb_lt. unfold Qltb. rewrite negb_true_iff. tauto.
Qed.

Lemma qmax_ge_l a b : a <= qmax a b.
Proof.
  unfold qmax. destruct (Qltb a b) eqn:E.
  - apply Qlt_le_weak, Qltb_lt, E.
  - apply Qle_refl.
Qed.

Lemma fold_qmax_ge l : forall a, a <= fold_left qmax l a.
Proof.
  induction l as [|x l IH]; intros a; simpl; [apply Qle_refl|].
  eapply Qle_trans; [apply qmax_ge_l | apply IH].
Qed.

Lemma fold_qmax_in l : forall a,
  fold_left qmax l a = a \/ In (fold_left qmax l a) l.
Proof.
  induction l as [|x l IH]; intros a; simpl; [auto|].
  destruct (IH (qmax a x)) as [H|H]; [|auto].
  rewrite H. unfold qmax. destruct (Qltb a x); auto.
Qed.

Lemma cur_max_pure_step d st p :
  cur_max (pure_step d st p) = qmax (cur_max st) (d p).
Proof.
  unfold pure_step, qmax. destruct (Qltb (cur_max st) (d p)); reflexivity.
Qed.

Lemma find_some_of_in (d : Z -> Q) M ps :
  In M (map d ps) ->
  find (fun p => Qle_bool M (d p)) ps <> None.
Proof.
  intros Hin Hnone. apply in_map_iff in Hin. destruct Hin as [p [Hp Hin]].
  pose proof (find_none _ _ Hnone p Hin) as Hf. simpl in Hf.
  rewrite Hp in Hf. apply Qle_bool_false in Hf.
  exact (Qlt_irrefl _ Hf).
Qed.

(** The position the loop ends with: the first bucket visited whose delta
    reaches the greatest one, provided the maximum moved at all. *)
Lemma position_fold d ps : forall st,
  position (fold_left (pure_step d) ps st)
  = if Qltb (cur_max st) (fold_left qmax (map d ps) (cur_max st))
    then match find (fun p => Qle_bool
                         (fold_left qmax (map d ps) (cur_max st)) (d p)) ps with
         | Some p => p
         | None => position st
         end
    else position st.
Proof.
  induction ps as [|p ps IH]; intros st.
  - simpl. destruct (Qltb _ _); reflexivity.
  - simpl fold_left. simpl map. simpl find. rewrite IH.
    rewrite cur_max_pure_step. unfold pure_step.
    destruct (Qltb (cur_max st) (d p)) eqn:E; simpl position.
    + replace (qmax (cur_max st) (d p)) with (d p)
        by (unfold qmax; rewrite E; reflexivity).
      set (M := fold_left qmax (map d ps) (d p)).
      assert (HM : d p <= M) by apply fold_qmax_ge.
      assert (Hlt : Qltb (cur_max st) M = true).
      { apply Qltb_lt. eapply Qlt_le_trans; [apply Qltb_lt, E | exact HM]. }
      rewrite Hlt. destruct (Qltb (d p) M) eqn:E2.
      * apply Qltb_lt in E2. pose proof E2 as E3.
        apply Qle_bool_false in E3. rewrite E3.
        destruct (find _ ps) eqn:F; [reflexivity|]. exfalso.
        destruct (fold_qmax_in (map d ps) (d p)) as [H|H]; fold M in H.
        -- rewrite H in E2. exact (Qlt_irrefl _ E2).
        -- exact (find_some_of_in d _ ps H F).
      * apply Qltb_ge in E2. apply Qle_bool_iff in E2. rewrite E2. reflexivity.
    + replace (qmax (cur_max st) (d p)) with (cur_max st)
        by (unfold qmax; rewrite E; reflexivity).
      set (M := fold_left qmax (map d ps) (cur_max st)).
      destruct (Qltb (cur_max st) M) eqn:E2; [|reflexivity].
      assert (E3 : Qle_bool M (d p) = false).
      { apply Qle_bool_false. eapply Qle_lt_trans;
          [apply Qltb_ge, E | apply Qltb_lt, E2]. }
      rewrite E3. reflexivity.
Qed.

Lemma cutoff_step_ok tfidfs pv st :
  tfidfs <> [] ->
  cutoff_step tfidfs pv st = Ok (pure_step (delta tfidfs) st pv).
Proof.
  intros H. unfold cutoff_step, percentile, pure_step, delta.
  destruct tfidfs; [contradiction|]. simpl.
  destruct (Qltb _ _); reflexivity.
Qed.

Lemma descending_S n :
  descending (S n) = (10 * Z.of_nat n)%Z :: descending n.
Proof.
  unfold descending. rewrite seq_S, rev_app_distr. reflexivity.
Qed.

(** With [n] units of fuel the loop started at [10 * n - 10] runs to its
    end: it visits the buckets [10 * (n - 1)], ..., 10, 0 and stops by its
    own guard. *)
Lemma cutoff_loop_ok tfidfs : tfidfs <> [] -> forall n st,
  cutoff_loop n tfidfs (10 * Z.of_nat n - 10)%Z st
  = Ok (fold_left (pure_step (delta tfidfs)) (descending n) st).
Proof.
  intros H. induction n as [|n IH]; intros st.
  - reflexivity.
  - rewrite descending_S. simpl fold_left.
    replace (10 * Z.of_nat (S n) - 10)%Z with (10 * Z.of_nat n)%Z by lia.
    unfold cutoff_loop; fold cutoff_loop.
    destruct (Z.geb_spec (10 * Z.of_nat n) 0) as [_|Hneg]; [|lia].
    rewrite cutoff_step_ok by exact H. simpl bind. apply IH.
Qed.

Lemma lower_by_max_ok fuel : forall breaking_point maximum change,
  (1 <= change)%Z -> (maximum < Z.of_nat fuel)%Z ->
  exists v, __lower_by_max fuel breaking_point maximum change = Ok v.
Proof.
  induction fuel as [|fuel IH]; intros bp m c Hc Hm;
    unfold __lower_by_max; fold __lower_by_max;
    destruct (Z.geb_spec m 0) as [Hge|Hlt]; try (eexists; reflexivity);
    destruct (Z.geb_spec (bp - m) 0); try (eexists; reflexivity).
  - simpl in Hm. lia.
  - apply IH; lia.
Qed.

(** [__get_strategy] computes the lowered value, and the computation always
    comes to an end, but what it returns is the breaking point it was given. *)
Lemma get_strategy_returns_breaking_point spread breaking_point break_rate :
  (exists v, lowered_strategy spread breaking_point break_rate = Ok v)
  /\ __get_strategy spread breaking_point break_rate = Ok breaking_point.
Proof.
  assert (H : exists v,
             lowered_strategy spread breaking_point break_rate = Ok v).
  { unfold lowered_strategy.
    destruct spread, break_rate; cbn -[__lower_by_max Z.to_nat];
      match goal with
      | |- context [__lower_by_max ?f ?b ?m ?c] =>
          destruct (lower_by_max_ok f b m c) as [v Hv];
            [lia | simpl; lia | rewrite Hv; simpl; eexists; reflexivity]
      end. }
  split; [exact H|]. unfold __get_strategy. destruct H as [v ->]. reflexivity.
Qed.

Lemma fold_qmax_ge_elem l : forall a x, In x l -> x <= fold_left qmax l a.
Proof.
  induction l as [|y l IH]; intros a x Hin; simpl; [contradiction|].
  destruct Hin as [->|Hin]; [|apply IH, Hin].
  eapply Qle_trans; [|apply fold_qmax_ge].
  unfold qmax. destruct (Qltb a x) eqn:E; [apply Qle_refl|].
  apply Qltb_ge, E.
Qed.

Lemma find_first_descending (f : Z -> bool) l : forall p p',
  StronglySorted (fun a b => (b < a)%Z) l ->
  find f l = Some p -> In p' l -> f p' = true -> (p' <= p)%Z.
Proof.
  induction l as [|x l IH]; intros p p' Hs Hf Hin Hp'; [contradiction|].
  inversion Hs as [|? ? Hs' Hall]; subst. simpl in Hf.
  destruct (f x) eqn:Ex.
  - injection Hf as <-. destruct Hin as [->|Hin]; [lia|].
    rewrite Forall_forall in Hall. specialize (Hall p' Hin). lia.
  - destruct Hin as [->|Hin]; [congruence|]. eapply IH; eassumption.
Qed.

Lemma buckets_sorted : StronglySorted (fun a b => (b < a)%Z) buckets_descending.
Proof.
  unfold buckets_descending.
  repeat (constructor; [|repeat constructor; lia]). constructor.
Qed.

(** The reference cutoff is what its name says: the largest bucket whose
    delta is positive and not below any other, or 0 when no delta is
    positive. *)
Lemma steepest_bucket_spec tfidfs :
  let p := steepest_bucket tfidfs in
  (In p buckets_descending
   /\ 0 < delta tfidfs p
   /\ (forall p', In p' buckets_descending -> delta tfidfs p' <= delta tfidfs p)
   /\ (forall p', In p' buckets_descending ->
                  delta tfidfs p <= delta tfidfs p' -> (p' <= p)%Z))
  \/ (p = 0%Z
      /\ forall p', In p' buckets_descending -> delta tfidfs p' <= 0).
Proof.
  unfold steepest_bucket. set (M := max_delta tfidfs).
  assert (Hmax : forall p', In p' buckets_descending -> delta tfidfs p' <= M).
  { intros p' Hp'. apply fold_qmax_ge_elem, in_map, Hp'. }
  destruct (Qltb 0 M) eqn:E.
  - left. apply Qltb_lt in E.
    destruct (find _ buckets_descending) as [p|] eqn:F.
    + pose proof (find_some _ _ F) as [Hin Hp]. apply Qle_bool_iff in Hp.
      split; [exact Hin|]. split; [eapply Qlt_le_trans; eassumption|].
      split.
      * intros p' Hp'. eapply Qle_trans; [apply Hmax, Hp' | exact Hp].
      * intros p' Hp' Hle.
        apply (find_first_descending _ _ _ _ buckets_sorted F Hp').
        apply Qle_bool_iff. eapply Qle_trans; eassumption.
    + exfalso.
      destruct (fold_qmax_in (map (delta tfidfs) buckets_descending) 0)
        as [H|H]; fold (max_delta tfidfs) in H; fold M in H.
      * rewrite H in E. exact (Qlt_irrefl _ E).
      * exact (find_some_of_in _ _ _ H F).
  - right. split; [reflexivity|]. intros p' Hp'.
    eapply Qle_trans; [apply Hmax, Hp' | apply Qltb_ge, E].
Qed.

(** C2. On a non-empty list of scores [__get_cutoff] returns the reference
    cutoff: the largest bucket among 0, 10, ..., 90 whose delta
    [percentile (p + 10) - percentile p] is the greatest, or 0 when no delta
    is positive.  The lowering worked out from the tags and the two tables
    is computed, always to an end, and dropped: [__get_strategy] returns the
    position it was given, whatever the tags. *)
Theorem get_cutoff_is_steepest_bucket : forall tfidfs,
  tfidfs <> [] ->
  __get_cutoff tfidfs = Ok (steepest_bucket tfidfs)
  /\ (forall spread breaking_point break_rate,
        (exists v, lowered_strategy spread breaking_point break_rate = Ok v)
        /\ __get_strategy spread breaking_point break_rate = Ok breaking_point).
Proof.
  intros tfidfs H. split.
  - unfold __get_cutoff.
    change 90%Z with (10 * Z.of_nat 10 - 10)%Z.
    rewrite (cutoff_loop_ok tfidfs H 10). cbv beta iota delta [bind].
    rewrite (proj2 (get_strategy_returns_breaking_point _ _ _)).
    f_equal. rewrite position_fold. reflexivity.
  - intros. apply get_strategy_returns_breaking_point.
Qed.

Lemma get_cutoff_is_steepest_bucket_witness :
  __get_cutoff [1 # 10; 2 # 10; 7 # 10] = Ok 90%Z.
Proof.
  apply (proj1 (get_cutoff_is_steepest_bucket [1 # 10; 2 # 10; 7 # 10]
                  ltac:(discriminate))).
Defined.

Example get_cutoff_run :
  __get_cutoff [8 # 10; 1 # 10; 9 # 10] = Ok 40%Z
  /\ __get_cutoff [1 # 3; 1 # 3; 1 # 3] = Ok 0%Z
  /\ __get_cutoff [] = Raise IndexError.
Proof. repeat split; vm_compute; reflexivity. Qed.

End AdaptiveCutoff.

(** ** Query synthesis *)

Section QuerySynthesis.

Import Num Cutoff Tokens Sentences Segmenter Query.

Example tokenize_title :
  tokenize (lit "Tea history (2nd ed.)") = [lit "Tea"; lit "history"; lit "nd"; lit "ed"].
Proof. reflexivity. Qed.

Lemma mem_In x l : mem x l = true <-> In x l.
Proof.
  unfold mem. rewrite existsb_exists. split.
  - intros [y [Hy E]]. apply str_eqb_true in E. subst. exact Hy.
  - intros H. exists x. split; [exact H | apply str_eqb_true; reflexivity].
Qed.

Lemma mem_false x l : mem x l = false <-> ~ In x l.
Proof.
  rewrite <- mem_In. destruct (mem x l); split; intros; congruence.
Qed.

Lemma mem_app x a b : mem x (a ++ b) = mem x a || mem x b.
Proof. unfold mem. apply existsb_app. Qed.

(** The title loop, read from the first title token to the last. *)
Lemma prepend_fold_right kws query :
  fold_left prepend (rev kws) query
  = fold_right (fun k q => prepend q k) query kws.
Proof.
  rewrite <- (rev_involutive kws) at 2. symmetry. apply fold_left_rev_right.
Qed.

Lemma title_loop_front kws b :
  fold_right (fun k q => prepend q k) b kws
  = nodup (list_eq_dec ascii_dec)
      (filter (fun k => negb (mem k b)) (map lower kws)) ++ b.
Proof.
  induction kws as [|k ks IH]; [reflexivity|].
  simpl fold_right. rewrite IH. unfold prepend. rewrite mem_app.
  simpl map. simpl filter.
  set (rest := filter (fun k0 => negb (mem k0 b)) (map lower ks)).
  destruct (mem (lower k) b) eqn:Eb; simpl negb.
  - rewrite orb_true_r. reflexivity.
  - rewrite orb_false_r. simpl nodup.
    destruct (in_dec (list_eq_dec ascii_dec) (lower k) rest) as [Hin|Hnin].
    + assert (H : mem (lower k) (nodup (list_eq_dec ascii_dec) rest) = true)
        by (apply mem_In, nodup_In, Hin).
      rewrite H. reflexivity.
    + assert (H : mem (lower k) (nodup (list_eq_dec ascii_dec) rest) = false).
      { apply mem_false. intros H. apply nodup_In in H. contradiction. }
      rewrite H. reflexivity.
Qed.

Lemma assemble_shape title_ tokens tfidfs perc :
  assemble title_ tokens tfidfs perc
  = title_front title_ (body tokens tfidfs perc) ++ body tokens tfidfs perc.
Proof.
  unfold assemble, title_front, title_tokens, body.
  rewrite prepend_fold_right. apply title_loop_front.
Qed.

Lemma truncate_length (query : list str) :
  (Z.of_nat (length (truncate query)) <= 8)%Z.
Proof.
  unfold truncate. destruct (Z.gtb_spec (Z.of_nat (length query)) 8) as [H|H].
  - unfold slice, clip. change (7 <? 0)%Z with false. cbv iota.
    rewrite length_firstn. lia.
  - exact H.
Qed.

Lemma truncate_incl (query : list str) x : In x (truncate query) -> In x query.
Proof.
  unfold truncate. destruct (Z.of_nat (length query) >? 8)%Z; [|auto].
  unfold slice. change (Z.to_nat 0) with 0%nat. simpl skipn.
  intros H. match type of H with In _ (firstn ?n _) =>
    rewrite <- (firstn_skipn n query) end.
  apply in_or_app. left. exact H.
Qed.

Lemma body_length tokens tfidfs perc :
  (Z.of_nat (length (body tokens tfidfs perc)) <= 8)%Z.
Proof. apply truncate_length. Qed.

Lemma body_incl tokens tfidfs perc x :
  In x (body tokens tfidfs perc) -> In x tokens.
Proof.
  unfold body. intros H. apply truncate_incl in H.
  apply filter_In in H. tauto.
Qed.

Lemma title_front_spec title_ b x :
  In x (title_front title_ b) <-> In x (title_tokens title_) /\ ~ In x b.
Proof.
  unfold title_front. rewrite nodup_In, filter_In, negb_true_iff, mem_false.
  tauto.
Qed.

(** C1, as the code has it.  When [get_query] completes, the stored query
    is the space-joined list made of the lower-cased title tokens that are
    not among the selected body tokens, each once and in title order,
    followed by the selected body tokens.  The body tokens are tokens of the
    claim and there are at most 8 of them; no title token is counted in that
    bound, and a title token that is also a body token stays where the body
    has it. *)
Theorem query_is_title_front_then_body :
  forall log c dictionary article_count query,
  get_query_tokens log c dictionary article_count = Ok query ->
  exists tokens tfidfs perc,
    scores log c dictionary article_count = Ok (tokens, tfidfs)
    /\ query = title_front (title c) (body tokens tfidfs perc)
                ++ body tokens tfidfs perc
    /\ (Z.of_nat (length (body tokens tfidfs perc)) <= 8)%Z
    /\ (forall x, In x (body tokens tfidfs perc) -> In x tokens)
    /\ NoDup (title_front (title c) (body tokens tfidfs perc))
    /\ (forall x, In x (title_front (title c) (body tokens tfidfs perc)) <->
                  In x (title_tokens (title c))
                  /\ ~ In x (body tokens tfidfs perc))
    /\ get_query log c dictionary article_count = Ok (join (lit " ") query).
Proof.
  intros log c dictionary article_count query H.
  unfold get_query. rewrite H. unfold get_query_tokens in H.
  destruct (scores log c dictionary article_count) as [[tokens tfidfs]| |] eqn:Es;
    simpl in H; try discriminate.
  destruct (__get_cutoff tfidfs) as [cutoff| |]; simpl in H; try discriminate.
  destruct (percentile tfidfs cutoff) as [perc| |]; simpl in H;
    try discriminate.
  injection H as <-. exists tokens, tfidfs, perc.
  split; [reflexivity|]. split; [apply assemble_shape|].
  split; [apply body_length|]. split; [intros x; apply body_incl|].
  split; [apply NoDup_nodup|]. split; [intros x; apply title_front_spec|].
  reflexivity.
Qed.

Lemma query_is_title_front_then_body_witness :
  exists tokens tfidfs perc,
    scores log_any tea_claim empty_dictionary 1 = Ok (tokens, tfidfs)
    /\ map lit ["history"; "green"; "tea"; "was"; "first"; "brewed"; "in";
                "ancient"; "china"]%string
       = title_front (title tea_claim) (body tokens tfidfs perc)
         ++ body tokens tfidfs perc
    /\ (Z.of_nat (length (body tokens tfidfs perc)) <= 8)%Z
    /\ (forall x, In x (body tokens tfidfs perc) -> In x tokens)
    /\ NoDup (title_front (title tea_claim) (body tokens tfidfs perc))
    /\ (forall x, In x (title_front (title tea_claim)
                         (body tokens tfidfs perc)) <->
                  In x (title_tokens (title tea_claim))
                  /\ ~ In x (body tokens tfidfs perc))
    /\ get_query log_any tea_claim empty_dictionary 1
       = Ok (join (lit " ")
               (map lit ["history"; "green"; "tea"; "was"; "first"; "brewed";
                         "in"; "ancient"; "china"]%string)).
Proof.
  apply (query_is_title_front_then_body log_any tea_claim empty_dictionary 1).
  vm_compute. reflexivity.
Defined.

(** C1 as stated fails.  The claim ["Green tea was first brewed in ancient
    China"] of the article titled ["Tea history"], scored against a
    dictionary that knows none of its tokens, has all its scores equal to 0
    whatever the logarithms are, keeps its eight tokens, and gets [history]
    in front: nine tokens, and the title token [tea] is the third of them. *)
Lemma query_exceeds_eight_tokens :
  Segmenter.from_text (lit "Tea history") tea_article = Ok [tea_claim]
  /\ get_query log_any tea_claim empty_dictionary 1
     = Ok (lit "history green tea was first brewed in ancient china")
  /\ get_query_tokens log_any tea_claim empty_dictionary 1
     = Ok (map lit ["history"; "green"; "tea"; "was"; "first"; "brewed"; "in";
                    "ancient"; "china"]%string)
  /\ title_tokens (title tea_claim) = [lit "tea"; lit "history"]
  /\ ~ query_as_specified (title tea_claim)
        (map lit ["history"; "green"; "tea"; "was"; "first"; "brewed"; "in";
                  "ancient"; "china"]%string)
  /\ ~ (exists body_tokens,
          map lit ["history"; "green"; "tea"; "was"; "first"; "brewed"; "in";
                   "ancient"; "china"]%string
          = nodup (list_eq_dec ascii_dec) (title_tokens (title tea_claim))
            ++ body_tokens).
Proof.
  split; [vm_compute; reflexivity|]. split; [vm_compute; reflexivity|].
  split; [vm_compute; reflexivity|]. split; [reflexivity|]. split.
  - intros [Hlen _]. vm_compute in Hlen. apply Hlen. reflexivity.
  - intros [b Hb]. vm_compute in Hb. discriminate.
Qed.

End QuerySynthesis.

(** ** The similarity scorer *)

Section Scorer.

Import Num Tokens Bing.
Local Open Scope Q_scope.

Variable sqrt : Q -> Q.
Hypothesis sqrt_pos : forall x, 0 < x -> 0 < sqrt x.

Lemma squares_nonneg (vec : bow) :
  0 <= sum (map (fun p => snd p * snd p) vec).
Proof.
  induction vec as [|p vec IH].
  - apply Qle_refl.
  - simpl map. rewrite sum_cons.
    assert (H : 0 <= snd p * snd p).
    { destruct (Qlt_le_dec (snd p) 0) as [Hn|Hp].
      - setoid_replace (snd p * snd p) with ((- snd p) * (- snd p)) by ring.
        apply Qmult_le_0_compat; apply (Qopp_le_compat (snd p) 0);
          apply Qlt_le_weak, Hn.
      - apply Qmult_le_0_compat; exact Hp. }
    setoid_replace 0 with (0 + 0) by ring. apply Qplus_le_compat; assumption.
Qed.

Lemma squares_pos (vec : bow) :
  vec <> [] -> positive vec -> 0 < sum (map (fun p => snd p * snd p) vec).
Proof.
  intros Hne Hpos. destruct vec as [|p vec]; [contradiction|].
  inversion Hpos as [|? ? Hp Hrest]; subst.
  simpl map. rewrite sum_cons.
  setoid_replace 0 with (0 + 0) by ring.
  apply Qplus_lt_le_compat; [|apply squares_nonneg].
  apply Qmult_lt_0_compat; exact Hp.
Qed.

Lemma veclen_pos (vec : bow) :
  vec <> [] -> positive vec -> Qltb 0 (veclen sqrt vec) = true.
Proof.
  intros Hne Hpos. apply Qltb_lt. unfold veclen.
  setoid_replace (1 * sqrt (sum (map (fun p => snd p * snd p) vec)))
    with (sqrt (sum (map (fun p => snd p * snd p) vec))) by ring.
  apply sqrt_pos, squares_pos; assumption.
Qed.

(** On bags with positive counts the assertion of [cossim] holds. *)
Lemma cossim_ok (vec1 vec2 : bow) :
  positive vec1 -> positive vec2 -> exists q, cossim sqrt vec1 vec2 = Ok q.
Proof.
  intros H1 H2. unfold cossim.
  destruct vec1 as [|p1 v1]; [eexists; reflexivity|].
  destruct vec2 as [|p2 v2]; [eexists; reflexivity|].
  rewrite !veclen_pos by (assumption || discriminate). simpl andb. cbv iota.
  destruct (_ <? _)%nat; eexists; reflexivity.
Qed.

Lemma count_occ_str_pos t tokens : In t tokens -> 0 < count_occ_str t tokens.
Proof.
  intros H. unfold count_occ_str.
  assert (Hin : In t (filter (str_eqb t) tokens)).
  { apply filter_In. split; [exact H | apply str_eqb_true; reflexivity]. }
  destruct (filter (str_eqb t) tokens) as [|x l]; [contradiction|].
  simpl length. unfold Qlt. simpl. lia.
Qed.

Lemma doc2bow_positive dictionary tokens : positive (doc2bow dictionary tokens).
Proof.
  unfold positive, doc2bow. apply Forall_forall. intros p Hp.
  apply in_map_iff in Hp. destruct Hp as [t [<- Ht]]. simpl.
  apply count_occ_str_pos. apply nodup_In, filter_In in Ht. tauto.
Qed.

Lemma doc2bow_keys dictionary tokens k :
  In k (map fst (doc2bow dictionary tokens)) -> In k tokens.
Proof.
  unfold doc2bow. rewrite map_map. simpl. rewrite map_id.
  intros H. apply nodup_In, filter_In in H. tauto.
Qed.

Lemma get_absent (vec : bow) k : ~ In k (map fst vec) -> get vec k = 0.
Proof.
  intros H. unfold get.
  destruct (find (fun p => str_eqb (fst p) k) vec) as [p|] eqn:F;
    [|reflexivity].
  exfalso. apply find_some in F. destruct F as [Hin E].
  apply str_eqb_true in E. apply H. subst k. apply in_map. exact Hin.
Qed.

Lemma dot_disjoint (a b : bow) :
  (forall k, In k (map fst a) -> ~ In k (map fst b)) ->
  sum (map (fun p => snd p * get b (fst p)) a) == 0.
Proof.
  induction a as [|p a IH]; intros H.
  - reflexivity.
  - simpl map. rewrite sum_cons, IH.
    + rewrite get_absent by (apply H; left; reflexivity). ring.
    + intros k Hk. apply H. right. exact Hk.
Qed.

(** Bags without a common token have similarity 0. *)
Lemma cossim_disjoint (vec1 vec2 : bow) q :
  (forall k, In k (map fst vec1) -> ~ In k (map fst vec2)) ->
  cossim sqrt vec1 vec2 = Ok q -> q == 0.
Proof.
  intros H. unfold cossim.
  destruct vec1 as [|p1 v1]; [intros [= <-]; reflexivity|].
  destruct vec2 as [|p2 v2]; [intros [= <-]; reflexivity|].
  destruct (_ && _); [|discriminate].
  destruct (_ <? _)%nat; intros [= <-]; unfold Qdiv.
  - assert (Hd := dot_disjoint (p2 :: v2) (p1 :: v1)
                    (fun k Hk Hk' => H k Hk' Hk)).
    simpl map in Hd. rewrite Hd. ring.
  - assert (Hd := dot_disjoint (p1 :: v1) (p2 :: v2) H).
    simpl map in Hd. rewrite Hd. ring.
Qed.

Lemma compare_paragraphs_ok dictionary claim_tokens paragraphs : forall st,
  exists st',
    compare_paragraphs sqrt dictionary (doc2bow dictionary claim_tokens) st
      paragraphs = Ok st'.
Proof.
  induction paragraphs as [|p ps IH]; intros st; simpl.
  - eexists; reflexivity.
  - unfold compare_paragraph.
    destruct (cossim_ok (doc2bow dictionary (tokenize_lower p))
                (doc2bow dictionary claim_tokens)) as [q Hq];
      try apply doc2bow_positive.
    rewrite Hq. simpl. apply IH.
Qed.

Lemma compare_paragraphs_disjoint dictionary claim_tokens paragraphs :
  (forall p, In p paragraphs ->
     forall t, In t (tokenize_lower p) -> ~ In t claim_tokens) ->
  forall st',
  compare_paragraphs sqrt dictionary (doc2bow dictionary claim_tokens) ([], 0)
    paragraphs = Ok st' ->
  st' = ([], 0).
Proof.
  induction paragraphs as [|p ps IH]; intros H st'; simpl.
  - intros [= <-]. reflexivity.
  - unfold compare_paragraph.
    destruct (cossim sqrt _ _) as [q| |] eqn:Hq; simpl; try discriminate.
    assert (Hz : q == 0).
    { eapply cossim_disjoint; [|exact Hq]. intros k Hk Hk'.
      apply doc2bow_keys in Hk, Hk'.
      exact (H p (or_introl eq_refl) k Hk Hk'). }
    assert (Hn : Qltb 0 q = false) by (apply Qltb_ge; rewrite Hz; apply Qle_refl).
    rewrite Hn. apply IH. intros p' Hp'. apply H. right. exact Hp'.
Qed.

Variable urlopen : str -> exn + (str * str).
Variable justext : str -> exn + list str.
Variables (article_text claim_text : str).

(** C9. When the fetch and the extraction both succeed, [__compare_site]
    returns the pair of the resolved URL and an excerpt of at most 1000
    characters, and neither [None] nor an exception; the excerpt is the empty
    string when the page has no paragraph and when no paragraph shares a
    token with the claim.  It returns [None] exactly when the fetch or the
    extraction raises. *)
Theorem compare_site_rejects_only_failures : forall url,
  (forall actual_url page paragraphs,
     urlopen url = inr (actual_url, page) ->
     justext page = inr paragraphs ->
     exists excerpt,
       __compare_site sqrt urlopen justext article_text claim_text url
       = Ok (Some (actual_url, excerpt))
       /\ (Z.of_nat (length excerpt) <= 1000)%Z
       /\ (paragraphs = [] -> excerpt = [])
       /\ ((forall p, In p paragraphs -> ~ shares_token p claim_text) ->
           excerpt = []))
  /\ (__compare_site sqrt urlopen justext article_text claim_text url = Ok None
      <-> (exists e, urlopen url = inl e)
          \/ (exists actual_url page e,
                urlopen url = inr (actual_url, page) /\ justext page = inl e)).
Proof.
  intros url.
  assert (Hpair : forall actual_url page paragraphs,
     urlopen url = inr (actual_url, page) ->
     justext page = inr paragraphs ->
     exists excerpt,
       __compare_site sqrt urlopen justext article_text claim_text url
       = Ok (Some (actual_url, excerpt))
       /\ (Z.of_nat (length excerpt) <= 1000)%Z
       /\ (paragraphs = [] -> excerpt = [])
       /\ ((forall p, In p paragraphs -> ~ shares_token p claim_text) ->
           excerpt = [])).
  { intros actual_url page paragraphs Hu Hj. unfold __compare_site.
    rewrite Hu, Hj.
    set (dictionary := Dictionary _).
    destruct (cossim_ok
                (doc2bow dictionary
                   (tokenize_lower (join [Wiki.newline] paragraphs)))
                (doc2bow dictionary (tokenize_lower article_text)))
      as [ps Hps]; try apply doc2bow_positive.
    rewrite Hps. cbv beta iota delta [bind].
    destruct (compare_paragraphs_ok dictionary (tokenize_lower claim_text)
                paragraphs ([], 0)) as [st Hst].
    pose proof Hst as Hst'. rewrite Hst.
    eexists. split; [reflexivity|]. split; [|split].
    - destruct (Z.gtb_spec (Z.of_nat (length (fst st))) 1000) as [Hl|Hl];
        [|exact Hl].
      unfold slice, clip. change (1000 <? 0)%Z with false. cbv iota.
      rewrite length_firstn. lia.
    - intros ->. simpl in Hst'. injection Hst' as <-. reflexivity.
    - intros Hno.
      rewrite (compare_paragraphs_disjoint dictionary
                 (tokenize_lower claim_text) paragraphs) with (st' := st);
        [reflexivity | | exact Hst'].
      intros p Hp t Ht Ht'. apply (Hno p Hp). exists t. split; assumption. }
  split; [exact Hpair|]. split.
  - intros Hnone.
    destruct (urlopen url) as [e|[actual_url page]] eqn:Hu;
      [left; exists e; reflexivity|].
    destruct (justext page) as [e|paragraphs] eqn:Hj;
      [right; exists actual_url, page, e; split; [reflexivity | exact Hj]|].
    destruct (Hpair actual_url page paragraphs eq_refl Hj) as [x [Hx _]].
    rewrite Hx in Hnone. discriminate.
  - unfold __compare_site.
    intros [[e He]|[actual_url [page [e [Hu Hj]]]]].
    + rewrite He. reflexivity.
    + rewrite Hu, Hj. reflexivity.
Qed.

End Scorer.

Lemma compare_site_rejects_only_failures_witness :
  exists excerpt,
    Bing.__compare_site Bing.sqrt_any Bing.one_page Bing.lines_extractor
      (lit "Tea. Green tea is old.") (lit "Blue sky") (lit "http://a.example")
    = Ok (Some (lit "http://b.example/", excerpt))
    /\ (Z.of_nat (length excerpt) <= 1000)%Z
    /\ (split [Wiki.newline] (lit "Green tea" ++ [Wiki.newline] ++ lit "Red wine")
          = [] -> excerpt = [])
    /\ ((forall p,
           In p (split [Wiki.newline]
                   (lit "Green tea" ++ [Wiki.newline] ++ lit "Red wine")) ->
           ~ Bing.shares_token p (lit "Blue sky")) ->
        excerpt = []).
Proof.
  apply (proj1 (compare_site_rejects_only_failures Bing.sqrt_any
                  (fun x H => H) Bing.one_page Bing.lines_extractor
                  (lit "Tea. Green tea is old.") (lit "Blue sky")
                  (lit "http://a.example"))
           (lit "http://b.example/")
           (lit "Green tea" ++ [Wiki.newline] ++ lit "Red wine")).
  - reflexivity.
  - reflexivity.
Defined.

Example compare_site_runs :
  Bing.__compare_site Bing.sqrt_any Bing.one_page Bing.lines_extractor
    (lit "Tea. Green tea is old.") (lit "Green tea is old")
    (lit "http://a.example")
  = Ok (Some (lit "http://b.example/", lit "Green tea"))
  /\ Bing.__compare_site Bing.sqrt_any Bing.one_page Bing.lines_extractor
       (lit "Tea. Green tea is old.") (lit "Blue sky") (lit "http://a.example")
     = Ok (Some (lit "http://b.example/", []))
  /\ Bing.__compare_site Bing.sqrt_any Bing.one_page Bing.lines_extractor
       (lit "Tea. Green tea is old.") (lit "Blue sky") (lit "http://c.example")
     = Ok None.
Proof. repeat split; vm_compute; reflexivity. Qed.

(** * Further properties of the sources *)

(** ** Splitting and joining on one character *)

Section SplitJoin.

Lemma split_go_incl sep s : forall skip cur p x,
  In p (split_go sep skip cur s) -> In x p -> In x cur \/ In x s.
Proof.
  induction s as [|c s IH]; intros skip cur p x Hp Hx; simpl in Hp.
  - destruct Hp as [<-|[]]. left. apply in_rev. exact Hx.
  - destruct skip as [|k].
    + destruct (startswith sep (c :: s)).
      * destruct Hp as [<-|Hp]; [left; apply in_rev; exact Hx|].
        destruct (IH _ _ _ _ Hp Hx) as [[]|H]. right. right. exact H.
      * destruct (IH _ _ _ _ Hp Hx) as [[<-|H]|H]; simpl; auto.
    + destruct (IH _ _ _ _ Hp Hx) as [H|H]; simpl; auto.
Qed.

(** A piece of a split holds only characters of the text. *)
Lemma split_incl sep s p x : In p (split sep s) -> In x p -> In x s.
Proof.
  intros Hp Hx. destruct (split_go_incl sep s 0 [] p x Hp Hx) as [[]|H].
  exact H.
Qed.

Lemma split_go_char_free c s : forall cur,
  ~ In c cur -> Forall (fun p => ~ In c p) (split_go [c] 0 cur s).
Proof.
  induction s as [|x s IH]; intros cur Hcur; simpl.
  - constructor; [|constructor]. intros H. apply in_rev in H. auto.
  - destruct (Ascii.eqb c x) eqn:E; simpl.
    + constructor; [intros H; apply in_rev in H; auto|]. apply IH. auto.
    + apply IH. intros [H|H]; [|auto]. subst x. rewrite Ascii.eqb_refl in E.
      discriminate.
Qed.

(** No piece of a split on one character holds that character. *)
Lemma split_char_free c s : Forall (fun p => ~ In c p) (split [c] s).
Proof. apply split_go_char_free. auto. Qed.

Lemma split_go_nonempty sep s : forall skip cur, split_go sep skip cur s <> [].
Proof.
  induction s as [|x s IH]; intros skip cur; simpl; [discriminate|].
  destruct skip; [|apply IH]. destruct (startswith sep (x :: s));
    [discriminate | apply IH].
Qed.

Lemma join_cons sep x l : l <> [] -> join sep (x :: l) = x ++ sep ++ join sep l.
Proof. destruct l; [contradiction | reflexivity]. Qed.

Lemma join_split_go c s : forall cur,
  join [c] (split_go [c] 0 cur s) = rev cur ++ s.
Proof.
  induction s as [|x s IH]; intros cur; simpl split_go.
  - simpl. rewrite app_nil_r. reflexivity.
  - simpl startswith. destruct (Ascii.eqb c x) eqn:E; simpl andb; cbv iota.
    + apply Ascii.eqb_eq in E. subst x.
      rewrite join_cons by apply split_go_nonempty. rewrite IH. reflexivity.
    + rewrite IH. simpl. rewrite <- app_assoc. reflexivity.
Qed.

(** Joining the pieces of a split on one character gives the text back. *)
Lemma join_split c s : join [c] (split [c] s) = s.
Proof. apply join_split_go. Qed.

Lemma split_go_app_free c a : forall cur s,
  ~ In c a ->
  split_go [c] 0 cur (a ++ s) = split_go [c] 0 (rev a ++ cur) s.
Proof.
  induction a as [|x a IH]; intros cur s Ha; [reflexivity|].
  simpl app. simpl split_go. simpl startswith.
  destruct (Ascii.eqb c x) eqn:E.
  - apply Ascii.eqb_eq in E. subst x. exfalso. apply Ha. left. reflexivity.
  - simpl andb. cbv iota. rewrite IH by (intros H; apply Ha; right; exact H).
    rewrite <- app_assoc. reflexivity.
Qed.

(** Splitting a join of pieces that do not hold the separator gives the
    pieces back. *)
Lemma split_join c parts :
  parts <> [] -> Forall (fun p => ~ In c p) parts ->
  split [c] (join [c] parts) = parts.
Proof.
  unfold split. induction parts as [|p parts IH]; intros Hne Hfree;
    [contradiction|].
  inversion Hfree as [|? ? Hp Hrest]; subst.
  destruct parts as [|q parts].
  - simpl join. rewrite <- (app_nil_r p) at 1.
    rewrite split_go_app_free by exact Hp. simpl. rewrite app_nil_r.
    rewrite rev_involutive. reflexivity.
  - rewrite join_cons by discriminate.
    rewrite split_go_app_free by exact Hp. rewrite app_nil_r.
    simpl app. simpl split_go. simpl startswith. rewrite Ascii.eqb_refl.
    simpl andb. cbv iota. rewrite rev_involutive.
    f_equal. apply IH; [discriminate | exact Hrest].
Qed.

Lemma contains_char_In c s : contains [c] s = true <-> In c s.
Proof.
  induction s as [|x s IH]; simpl.
  - split; [discriminate | contradiction].
  - rewrite orb_true_iff, andb_true_r, IH. rewrite Ascii.eqb_eq.
    split; intros [H|H]; auto.
Qed.

End SplitJoin.

(** ** Host names and the search query *)

Section Hosts.

Import Urls.

Lemma startswith_app p s : startswith p s = true -> exists b, s = p ++ b.
Proof.
  revert s. induction p as [|a p IH]; intros s H; simpl in H.
  - exists s. reflexivity.
  - destruct s as [|x s]; [discriminate|].
    apply andb_true_iff in H. destruct H as [E H].
    apply Ascii.eqb_eq in E. subst x.
    destruct (IH s H) as [b ->]. exists b. reflexivity.
Qed.

Lemma contains_app sub s :
  contains sub s = true -> exists a b, s = a ++ sub ++ b.
Proof.
  induction s as [|x s IH]; simpl; intros H.
  - rewrite orb_false_r in H. destruct (startswith_app _ _ H) as [b Hb].
    exists [], b. exact Hb.
  - apply orb_true_iff in H. destruct H as [H|H].
    + destruct (startswith_app _ _ H) as [b Hb]. exists [], b. exact Hb.
    + destruct (IH H) as [a [b ->]]. exists (x :: a), b. reflexivity.
Qed.

Lemma index_from_found sub s : forall i,
  contains sub s = true -> exists j, index_from sub s i = Ok j /\ i <= j.
Proof.
  induction s as [|x s IH]; intros i H; simpl in *.
  - rewrite orb_false_r in H. rewrite H. exists i. split; [reflexivity|lia].
  - destruct (startswith sub (x :: s)) eqn:E.
    + exists i. split; [reflexivity|lia].
    + simpl in H. destruct (IH (i + 1) H) as [j [Hj Hle]].
      exists j. split; [exact Hj|lia].
Qed.

Lemma index_from_missing sub s : forall i,
  contains sub s = false -> index_from sub s i = Raise ValueError.
Proof.
  induction s as [|x s IH]; intros i H; simpl in *.
  - rewrite orb_false_r in H. rewrite H. reflexivity.
  - apply orb_false_iff in H. destruct H as [E H]. rewrite E. apply IH, H.
Qed.

Lemma split_go_length c s : forall cur,
  length (split_go [c] 0 cur s) = S (count_occ ascii_dec s c).
Proof.
  induction s as [|x s IH]; intros cur; [reflexivity|].
  simpl split_go. simpl startswith. simpl count_occ.
  destruct (ascii_dec x c) as [->|Hne].
  - rewrite Ascii.eqb_refl. simpl. rewrite IH. reflexivity.
  - destruct (Ascii.eqb c x) eqn:E.
    + apply Ascii.eqb_eq in E. congruence.
    + simpl. apply IH.
Qed.

(** A split on one character has one piece more than the text has
    occurrences of the character. *)
Lemma split_length c s : length (split [c] s) = S (count_occ ascii_dec s c).
Proof. apply split_go_length. Qed.

Lemma getitem_head c s :
  exists h, getitem (split [c] s) 0 = Ok h /\ In h (split [c] s).
Proof.
  unfold getitem. destruct (split [c] s) as [|h l] eqn:E.
  - exfalso. exact (split_go_nonempty _ _ _ _ E).
  - exists h. split; [reflexivity | left; reflexivity].
Qed.

Lemma getitem_In {A} (l : list A) k x : getitem l k = Ok x -> In x l.
Proof.
  unfold getitem. destruct (nth_error l k) eqn:E; [|discriminate].
  intros [= <-]. eapply nth_error_In. exact E.
Qed.

Lemma getitem_in_range {A} (l : list A) k :
  (k < length l)%nat -> exists x, getitem l k = Ok x.
Proof.
  intros H. unfold getitem. destruct (nth_error l k) eqn:E.
  - eexists; reflexivity.
  - apply nth_error_None in E. lia.
Qed.

(** [_extract_hostname] raises [ValueError] on a URL without ["://"], the
    [else] branch never being reached; on a URL with ["://"] it returns the
    text between the second slash and the next slash, colon or question
    mark, which holds none of these three characters. *)
Theorem extract_hostname_needs_scheme : forall url,
  (contains (lit "://") url = false ->
   _extract_hostname url = Raise ValueError)
  /\ (contains (lit "://") url = true ->
      exists hostname,
        _extract_hostname url = Ok hostname
        /\ ~ In "/"%char hostname /\ ~ In ":"%char hostname
        /\ ~ In "?"%char hostname).
Proof.
  intros url. unfold _extract_hostname, index. split; intros H.
  - rewrite index_from_missing by exact H. reflexivity.
  - destruct (index_from_found _ _ 0 H) as [j [Hj Hle]]. rewrite Hj.
    cbv beta iota delta [bind].
    destruct (Z.gtb_spec j (-1)) as [_|Hneg]; [|lia].
    assert (Hlen : (2 < length (split (lit "/") url))%nat).
    { change (lit "/") with ["/"%char]. rewrite split_length.
      destruct (contains_app _ _ H) as [a [b ->]].
      rewrite count_occ_app. simpl. lia. }
    destruct (getitem_in_range _ 2 Hlen) as [h1 Hh1]. rewrite Hh1.
    destruct (getitem_head ":"%char h1) as [h2 [Hh2 Hin2]].
    change (lit ":") with [":"%char]. rewrite Hh2.
    destruct (getitem_head "?"%char h2) as [h3 [Hh3 Hin3]].
    change (lit "?") with ["?"%char]. rewrite Hh3.
    exists h3. split; [reflexivity|].
    assert (F1 : ~ In "/"%char h1).
    { apply getitem_In in Hh1.
      exact (proj1 (Forall_forall _ _) (split_char_free "/"%char url) h1 Hh1). }
    assert (F2 : ~ In ":"%char h2)
      by exact (proj1 (Forall_forall _ _) (split_char_free ":"%char h1) h2 Hin2).
    assert (F3 : ~ In "?"%char h3)
      by exact (proj1 (Forall_forall _ _) (split_char_free "?"%char h2) h3 Hin3).
    assert (I32 : forall x, In x h3 -> In x h2)
      by (intros x; apply (split_incl _ _ _ _ Hin3)).
    assert (I21 : forall x, In x h2 -> In x h1)
      by (intros x; apply (split_incl _ _ _ _ Hin2)).
    repeat split; auto.
Qed.

Lemma extract_hostname_needs_scheme_witness :
  _extract_hostname (lit "www.example.org/page") = Raise ValueError
  /\ exists hostname,
       _extract_hostname (lit "http://www.example.org:80/page?x=1")
       = Ok hostname
       /\ ~ In "/"%char hostname /\ ~ In ":"%char hostname
       /\ ~ In "?"%char hostname.
Proof.
  split.
  - apply (proj1 (extract_hostname_needs_scheme (lit "www.example.org/page"))).
    reflexivity.
  - apply (proj2 (extract_hostname_needs_scheme
                    (lit "http://www.example.org:80/page?x=1"))).
    reflexivity.
Defined.

Example extract_hostname_run :
  _extract_hostname (lit "http://www.example.org:80/page?x=1")
  = Ok (lit "www.example.org")
  /\ _extract_root_domain (lit "https://en.wikipedia.org/wiki/Tea")
     = Ok (lit "wikipedia.org")
  /\ _extract_root_domain (lit "http://www.bbc.co.uk/news")
     = Ok (lit "bbc.co.uk")
  /\ _extract_root_domain (lit "http://www.example.de/")
     = Ok (lit "www.example.de").
Proof. repeat split; reflexivity. Qed.

Lemma exclusions_cons site rest k :
  exclusions (site :: rest) (S k)
  = (lit " OR site:" ++ site) ++ exclusions rest k.
Proof. reflexivity. Qed.

Lemma add_sites_cons query length_ site rest :
  add_sites query length_ (site :: rest)
  = if length_ + Z.of_nat (length (lit " OR site:" ++ site)) <=? 1400
    then add_sites (query ++ lit " OR site:" ++ site)
           (length_ + Z.of_nat (length (lit " OR site:" ++ site))) rest
    else query.
Proof. reflexivity. Qed.

Lemma add_sites_shape sites : forall query length_,
  length_ = Z.of_nat (length query) ->
  exists k,
    (k <= length sites)%nat
    /\ add_sites query length_ sites = query ++ exclusions sites k
    /\ (length_ <= 1400 ->
        Z.of_nat (length (add_sites query length_ sites)) <= 1400)
    /\ ((k < length sites)%nat ->
        1400 < Z.of_nat (length (query ++ exclusions sites (S k)))).
Proof.
  induction sites as [|site rest IH]; intros query length_ Hlen.
  - exists 0%nat. unfold exclusions. simpl. rewrite app_nil_r.
    split; [lia|]. split; [reflexivity|]. split; lia.
  - rewrite add_sites_cons.
    destruct (Z.leb_spec (length_ + Z.of_nat (length (lit " OR site:" ++ site)))
                1400) as [Hle|Hgt].
    + destruct (IH (query ++ lit " OR site:" ++ site)
                  (length_ + Z.of_nat (length (lit " OR site:" ++ site))))
        as [k [Hk [Heq [Hbound Hnext]]]].
      { subst length_. rewrite !length_app. lia. }
      exists (S k). rewrite !exclusions_cons. split; [simpl; lia|].
      split; [rewrite Heq, <- app_assoc; reflexivity|].
      split; [intros _; apply Hbound, Hle|].
      intros Hlt. rewrite app_assoc. apply Hnext. simpl in Hlt. lia.
    + exists 0%nat. split; [simpl; lia|].
      split; [unfold exclusions; simpl; rewrite app_nil_r; reflexivity|].
      split; [intros; subst; lia|].
      intros _. rewrite exclusions_cons. unfold exclusions at 1. simpl firstn.
      simpl map. simpl concat. rewrite app_nil_r, length_app. lia.
Qed.

(** [__build_query] gives the head of the query, then the exclusions of the
    first [k] ignored sites, in their order, then the closing bracket.  It
    stops at the first site that would carry the query past 1400 characters
    and adds none after it, so that a query whose head fits in 1400
    characters has at most 1401. *)
Theorem build_query_stops_at_limit : forall keywords ignored_sites,
  exists k,
    (k <= length ignored_sites)%nat
    /\ __build_query keywords ignored_sites
       = query_head keywords ignored_sites ++ exclusions ignored_sites k
         ++ lit ")"
    /\ (Z.of_nat (length (query_head keywords ignored_sites)) <= 1400 ->
        Z.of_nat (length (__build_query keywords ignored_sites)) <= 1401)
    /\ ((k < length ignored_sites)%nat ->
        1400 < Z.of_nat (length (query_head keywords ignored_sites
                                   ++ exclusions ignored_sites (S k)))).
Proof.
  intros keywords sites. unfold __build_query.
  destruct (add_sites_shape sites (query_head keywords sites)
              (Z.of_nat (length (query_head keywords sites))) eq_refl)
    as [k [Hk [Heq [Hbound Hnext]]]].
  exists k. split; [exact Hk|].
  split; [rewrite Heq, <- app_assoc; reflexivity|].
  split; [|exact Hnext].
  intros H. rewrite length_app. specialize (Hbound H). simpl length. lia.
Qed.

Example build_query_run :
  __build_query (lit "green tea") [lit "wikipedia.org"; lit "wow.com"]
  = lit "green tea NOT (link:wikipedia.org OR site:wikipedia.org OR site:wow.com)"
  /\ __build_query (lit "green tea") [lit "wow.com"]
     = lit "green tea NOT (link:wikipedia.orgOR site:wikipedia.org OR site:wow.com)".
Proof. split; reflexivity. Qed.

End Hosts.

(** ** More on the sentence splitter *)

Section SplitterFragments.

Import Sentences.

Lemma join_nonempty sep (parts : list str) :
  parts <> [] -> Forall (fun p => p <> []) parts -> join sep parts <> [].
Proof.
  intros Hne H. destruct parts as [|p parts]; [contradiction|].
  inversion H as [|? ? Hp _]; subst.
  destruct parts; simpl; [exact Hp|].
  destruct p; [contradiction | discriminate].
Qed.

Lemma sents_loop_cons sentence_part elem rest :
  sents_loop sentence_part (elem :: rest)
  = match rest with
    | [] => [join (lit ".") (sentence_part ++ [elem])]
    | part_next :: _ =>
        match decide (sentence_part ++ [elem]) part_next with
        | Continues => sents_loop (sentence_part ++ [elem]) rest
        | Terminates =>
            join (lit ".") (sentence_part ++ [elem]) :: sents_loop [] rest
        end
    end.
Proof. reflexivity. Qed.

Lemma sents_loop_fragments parts : forall sentence_part,
  parts <> [] ->
  Forall (fun p => ~ In "."%char p) (sentence_part ++ parts) ->
  concat (map (split ["."%char]) (sents_loop sentence_part parts))
  = sentence_part ++ parts.
Proof.
  induction parts as [|elem rest IH]; intros sp Hne Hfree; [contradiction|].
  assert (Hbuf : Forall (fun p => ~ In "."%char p) (sp ++ [elem])).
  { replace (sp ++ elem :: rest) with ((sp ++ [elem]) ++ rest) in Hfree
      by (rewrite <- app_assoc; reflexivity).
    apply Forall_app in Hfree. tauto. }
  assert (Hsplit : split ["."%char] (join ["."%char] (sp ++ [elem]))
                   = sp ++ [elem]).
  { apply (split_join "."%char); [destruct sp; discriminate | exact Hbuf]. }
  rewrite sents_loop_cons. change (lit ".") with ["."%char].
  destruct rest as [|part_next rest']; unfold str in *.
  - cbn [map concat]. rewrite app_nil_r. exact Hsplit.
  - destruct (decide (sp ++ [elem]) part_next).
    + cbn [map concat]. rewrite Hsplit.
      rewrite (IH []); [rewrite <- app_assoc; reflexivity | discriminate|].
      apply Forall_app in Hfree. destruct Hfree as [_ Hfree].
      inversion Hfree; assumption.
    + rewrite IH; [rewrite <- app_assoc; reflexivity | discriminate|].
      rewrite <- app_assoc. exact Hfree.
Qed.

Lemma sents_loop_nonempty parts : forall sentence_part,
  Forall (fun p => p <> []) (sentence_part ++ parts) ->
  Forall (fun x => x <> []) (sents_loop sentence_part parts).
Proof.
  induction parts as [|elem rest IH]; intros sp H; [constructor|].
  assert (Hbuf : Forall (fun p : str => p <> []) (sp ++ [elem])).
  { replace (sp ++ elem :: rest) with ((sp ++ [elem]) ++ rest) in H
      by (rewrite <- app_assoc; reflexivity).
    apply Forall_app in H. tauto. }
  assert (Hj : join (lit ".") (sp ++ [elem]) <> [])
    by (apply join_nonempty; [destruct sp; discriminate | exact Hbuf]).
  rewrite sents_loop_cons. destruct rest as [|part_next rest'];
    unfold str in *.
  - constructor; [exact Hj | constructor].
  - destruct (decide (sp ++ [elem]) part_next).
    + constructor; [exact Hj|]. apply (IH []).
      apply Forall_app in H. destruct H as [_ H]. inversion H; assumption.
    + apply IH. rewrite <- app_assoc. exact H.
Qed.

Lemma filter_non_empty (l : list str) :
  Forall (fun p => p <> []) (filter non_empty l).
Proof.
  apply Forall_forall. intros p Hp. apply filter_In in Hp.
  destruct Hp as [_ Hp]. destruct p; [discriminate | discriminate].
Qed.

(** The splitter neither loses nor invents text between the dots: the
    sentences it returns, cut at their dots again, give the non-empty
    fragments of the input, all of them and in their order; no sentence is
    empty; and there are no sentences exactly when the input has no
    non-empty fragment. *)
Theorem split_in_sents_keeps_fragments : forall string,
  concat (map (split ["."%char]) (_split_in_sents string))
  = filter non_empty (split ["."%char] string)
  /\ Forall (fun sentence => sentence <> []) (_split_in_sents string)
  /\ (_split_in_sents string = [] <-> filter non_empty (split ["."%char] string) = []).
Proof.
  intros string. unfold _split_in_sents. change (lit ".") with ["."%char].
  set (parts := filter non_empty (split ["."%char] string)).
  assert (Hfree : Forall (fun p => ~ In "."%char p) parts).
  { apply Forall_forall. intros p Hp. apply filter_In in Hp.
    destruct Hp as [Hp _]. revert p Hp. apply Forall_forall.
    apply split_char_free. }
  split; [|split].
  - destruct parts as [|p parts'] eqn:E; [reflexivity|].
    apply (sents_loop_fragments (p :: parts') []); [discriminate | exact Hfree].
  - apply sents_loop_nonempty. apply filter_non_empty.
  - split; intros H; [|rewrite H; reflexivity].
    destruct parts as [|p parts'] eqn:E; [reflexivity|].
    pose proof (sents_loop_fragments (p :: parts') [] ltac:(discriminate) Hfree)
      as Hc.
    unfold str in *. rewrite H in Hc. discriminate.
Qed.

End SplitterFragments.

(** ** More on claim extraction *)

Section ExtractionInvariants.

Import Sentences Segmenter Markers.

Lemma skipn_cons_inv {A} (l : list A) : forall n x r (d : A),
  skipn n l = x :: r -> skipn (S n) l = r /\ nth n l d = x.
Proof.
  induction l as [|y l IH]; intros n x r d H.
  - destruct n; discriminate.
  - destruct n as [|n]; simpl in *.
    + injection H as -> ->. split; reflexivity.
    + apply IH. exact H.
Qed.

Lemma slice_incl {A} (s : list A) a b x : In x (slice s a b) -> In x s.
Proof.
  unfold slice. intros H.
  match type of H with
  | In _ (firstn ?n (skipn ?m _)) =>
      rewrite <- (firstn_skipn m s); apply in_or_app; right;
      rewrite <- (firstn_skipn n (skipn m s)); apply in_or_app; left; exact H
  end.
Qed.

(** What [classify] gives for a claim it takes for a backward one. *)
Lemma classify_backward claims following claim_no claim ct :
  classify claims following claim_no claim = Ok ct ->
  snd ct = B ->
  exists before, fst ct = before ++ seg claims claim_no.
Proof.
  unfold classify.
  destruct (contains (lit ":") (slice claim (Some (-4)) None)).
  - destruct (last_opt (_split_in_sents claim)) as [sent|]; [|discriminate].
    destruct (_ >? _).
    + intros [= <-]. discriminate.
    + destruct (next_paragraph sent following); simpl; try discriminate.
      intros [= <-]. discriminate.
  - intros [= <-] _. simpl. eexists. rewrite app_assoc. reflexivity.
Qed.

Lemma classify_no_colon claims following claim_no claim :
  ~ In ":"%char claim ->
  exists text_, classify claims following claim_no claim = Ok (text_, B).
Proof.
  intros H. unfold classify.
  destruct (contains (lit ":") (slice claim (Some (-4)) None)) eqn:E.
  - exfalso. apply H. change (lit ":") with [":"%char] in E.
    apply contains_char_In in E. eapply slice_incl. exact E.
  - eexists. reflexivity.
Qed.

Lemma line_loop_cons t a claims following claim_no claim todo :
  line_loop t a claims following claim_no (claim :: todo)
  = if claim_no =? Z.of_nat (length claims) - 1 then Ok []
    else if Z.of_nat (length claim) <? 15
    then line_loop t a claims following (claim_no + 1) todo
    else
      ct <- classify claims following claim_no claim ;;
      cs <- line_loop t a claims following (claim_no + 1) todo ;;
      Ok (mkClaim t (fst ct) (snd ct) a :: cs).
Proof. reflexivity. Qed.

Lemma line_loop_invariant t a claims following todo : forall claim_no cs,
  0 <= claim_no ->
  todo = skipn (Z.to_nat claim_no) claims ->
  line_loop t a claims following claim_no todo = Ok cs ->
  Forall (claim_ok t a) cs /\ (length cs <= length todo - 1)%nat.
Proof.
  induction todo as [|claim todo IH]; intros claim_no cs Hpos Htodo H.
  - injection H as <-. split; [constructor | simpl; lia].
  - rewrite line_loop_cons in H.
    assert (Hlen : length (claim :: todo)
                   = (length claims - Z.to_nat claim_no)%nat)
      by (rewrite Htodo; apply length_skipn).
    symmetry in Htodo.
    destruct (skipn_cons_inv claims _ _ _ [] Htodo) as [Hnext Hnth].
    assert (Hnext' : todo = skipn (Z.to_nat (claim_no + 1)) claims).
    { replace (Z.to_nat (claim_no + 1)) with (S (Z.to_nat claim_no)) by lia.
      symmetry. exact Hnext. }
    simpl length in Hlen.
    destruct (Z.eqb_spec claim_no (Z.of_nat (length claims) - 1)) as [E|E].
    + injection H as <-. split; [constructor | simpl; lia].
    + destruct (Z.ltb_spec (Z.of_nat (length claim)) 15) as [Hs|Hs].
      * destruct (IH (claim_no + 1) cs ltac:(lia) Hnext' H) as [Hall Hn].
        split; [exact Hall | simpl; lia].
      * destruct (classify claims following claim_no claim) as [ct| |] eqn:Hc;
          try discriminate.
        cbv beta iota delta [bind] in H.
        destruct (line_loop t a claims following (claim_no + 1) todo)
          as [cs'| |] eqn:Hr; try discriminate.
        injection H as <-.
        destruct (IH (claim_no + 1) cs' ltac:(lia) Hnext' Hr)
          as [Hall Hn].
        split.
        -- constructor; [|exact Hall]. unfold claim_ok. simpl.
           split; [reflexivity|]. split; [reflexivity|]. intros HB.
           destruct (classify_backward _ _ _ _ _ Hc HB) as [before ->].
           unfold seg. rewrite Hnth. rewrite length_app. lia.
        -- simpl. destruct todo as [|x todo']; [simpl in Hlen; lia|].
           simpl in *. lia.
Qed.

Lemma lines_loop_invariant t a lines : forall cs,
  lines_loop t a lines = Ok cs ->
  Forall (claim_ok t a) cs /\ (length cs <= marker_count lines)%nat.
Proof.
  induction lines as [|line rest IH]; intros cs H; simpl in H.
  - injection H as <-. split; [constructor | simpl; lia].
  - change (marker_count (line :: rest))
      with (length (split Wiki.CNMARK line) - 1 + marker_count rest)%nat.
    destruct (contains Wiki.CNMARK line).
    + destruct (line_loop t a (split Wiki.CNMARK line) rest 0
                  (split Wiki.CNMARK line)) as [cs1| |] eqn:H1;
        try discriminate.
      cbv beta iota delta [bind] in H.
      destruct (lines_loop t a rest) as [cs2| |] eqn:H2; try discriminate.
      injection H as <-.
      destruct (line_loop_invariant _ _ _ _ _ _ _ (Z.le_refl 0) eq_refl H1)
        as [Ha1 Hn1].
      destruct (IH cs2 eq_refl) as [Ha2 Hn2].
      split; [apply Forall_app; split; assumption|].
      rewrite length_app. change (Z.to_nat 0) with 0%nat in Hn1.
      simpl skipn in Hn1. lia.
    + destruct (IH cs H) as [Ha Hn]. split; [exact Ha | lia].
Qed.

(** Whenever [from_text] returns, every claim it stored carries the title
    and the whole text of the article, a backward claim has at least 15
    characters, and there are no more claims than markers in the text. *)
Theorem from_text_claims_are_well_formed :
  forall article_title article_text_ claims,
  from_text article_title article_text_ = Ok claims ->
  Forall (claim_ok article_title article_text_) claims
  /\ (length claims
      <= marker_count (split [Wiki.newline] article_text_))%nat.
Proof.
  intros t a cs H. apply lines_loop_invariant. exact H.
Qed.

Lemma from_text_claims_are_well_formed_witness :
  Forall (claim_ok (lit "Tea history") Query.tea_article) [Query.tea_claim]
  /\ (length [Query.tea_claim]
      <= marker_count (split [Wiki.newline] Query.tea_article))%nat.
Proof.
  apply (from_text_claims_are_well_formed (lit "Tea history") Query.tea_article).
  reflexivity.
Defined.

Lemma line_loop_no_colon t a claims following todo : forall claim_no,
  Forall (fun claim => ~ In ":"%char claim) todo ->
  exists cs,
    line_loop t a claims following claim_no todo = Ok cs
    /\ Forall (fun c => ctype c = B) cs.
Proof.
  induction todo as [|claim todo IH]; intros claim_no H.
  - exists []. split; [reflexivity | constructor].
  - rewrite line_loop_cons. inversion H as [|? ? Hc Hrest]; subst.
    destruct (_ =? _); [exists []; split; [reflexivity | constructor]|].
    destruct (_ <? _); [apply IH, Hrest|].
    destruct (classify_no_colon claims following claim_no claim Hc)
      as [text_ ->].
    destruct (IH (claim_no + 1) Hrest) as [cs [-> Hcs]].
    eexists. split; [reflexivity|]. constructor; [reflexivity | exact Hcs].
Qed.

Lemma lines_loop_no_colon t a lines :
  Forall (fun line => ~ In ":"%char line) lines ->
  exists cs,
    lines_loop t a lines = Ok cs /\ Forall (fun c => ctype c = B) cs.
Proof.
  induction lines as [|line rest IH]; intros H.
  - exists []. split; [reflexivity | constructor].
  - inversion H as [|? ? Hl Hrest]; subst. simpl.
    destruct (IH Hrest) as [cs2 [H2 Hb2]].
    destruct (contains Wiki.CNMARK line); [|exists cs2; split; assumption].
    destruct (line_loop_no_colon t a (split Wiki.CNMARK line) rest
                (split Wiki.CNMARK line) 0) as [cs1 [H1 Hb1]].
    { apply Forall_forall. intros seg_ Hseg Hin. apply Hl.
      eapply split_incl; eassumption. }
    rewrite H1, H2. exists (cs1 ++ cs2).
    split; [reflexivity | apply Forall_app; split; assumption].
Qed.

(** On an article text without a colon [from_text] never raises, and every
    claim it extracts is a backward one. *)
Theorem from_text_without_colon_is_safe : forall article_title article_text_,
  ~ In ":"%char article_text_ ->
  exists claims,
    from_text article_title article_text_ = Ok claims
    /\ Forall (fun c => ctype c = B) claims.
Proof.
  intros t a H. apply lines_loop_no_colon.
  apply Forall_forall. intros line Hline Hin. apply H.
  eapply split_incl; eassumption.
Qed.

Lemma from_text_without_colon_is_safe_witness :
  exists claims,
    from_text (lit "Tea history") Query.tea_article = Ok claims
    /\ Forall (fun c => ctype c = B) claims.
Proof.
  apply (from_text_without_colon_is_safe (lit "Tea history") Query.tea_article).
  vm_compute. intuition discriminate.
Defined.

End ExtractionInvariants.

(** ** More on the numeric part *)

Section NumericFacts.

Import Num Cutoff Ranks.
Local Open Scope Q_scope.

(** [__lower_by_max] on a non-negative breaking point, with steps of at
    least 1: it returns the breaking point lowered by the largest of
    [maximum], [maximum - change], [maximum - 2 * change], ... that is
    non-negative and leaves the result non-negative, and the breaking point
    itself when there is none. *)
Theorem lower_by_max_lowers_by_largest_step :
  forall fuel breaking_point maximum change,
  (1 <= change)%Z -> (0 <= breaking_point)%Z ->
  (maximum < Z.of_nat fuel)%Z ->
  exists r,
    __lower_by_max fuel breaking_point maximum change = Ok r
    /\ (0 <= r <= breaking_point)%Z
    /\ (r = breaking_point
        \/ exists k, (0 <= k)%Z
             /\ (0 <= maximum - k * change <= breaking_point)%Z
             /\ r = (breaking_point - (maximum - k * change))%Z)
    /\ (forall k, (0 <= k)%Z ->
          (0 <= maximum - k * change <= breaking_point)%Z ->
          (r <= breaking_point - (maximum - k * change))%Z).
Proof.
  induction fuel as [|fuel IH]; intros bp m c Hc Hbp Hm;
    unfold __lower_by_max; fold __lower_by_max;
    destruct (Z.geb_spec m 0) as [Hge|Hlt].
  - simpl in Hm. lia.
  - exists bp. split; [reflexivity|]. split; [lia|]. split; [left; reflexivity|].
    intros k Hk Hr. nia.
  - destruct (Z.geb_spec (bp - m) 0) as [Hfit|Hover].
    + exists (bp - m)%Z. split; [reflexivity|]. split; [lia|]. split.
      * right. exists 0%Z. lia.
      * intros k Hk Hr. nia.
    + destruct (IH bp (m - c)%Z c Hc Hbp ltac:(lia))
        as [r [Hr [Hrange [Hshape Hbest]]]].
      exists r. split; [exact Hr|]. split; [exact Hrange|]. split.
      * destruct Hshape as [->|[k [Hk [Hin ->]]]]; [left; reflexivity|].
        right. exists (k + 1)%Z. split; [lia|]. split; [lia|]. lia.
      * intros k Hk Hin.
        assert (Hk1 : (1 <= k)%Z) by nia.
        specialize (Hbest (k - 1)%Z ltac:(lia)).
        replace (m - c - (k - 1) * c)%Z with (m - k * c)%Z in Hbest by lia.
        apply Hbest. exact Hin.
  - exists bp. split; [reflexivity|]. split; [lia|]. split; [left; reflexivity|].
    intros k Hk Hr. nia.
Qed.

Lemma lower_by_max_lowers_by_largest_step_witness :
  exists r,
    __lower_by_max 13 5 12 3 = Ok r
    /\ (0 <= r <= 5)%Z
    /\ (r = 5%Z
        \/ exists k, (0 <= k)%Z /\ (0 <= 12 - k * 3 <= 5)%Z
             /\ r = (5 - (12 - k * 3))%Z)
    /\ (forall k, (0 <= k)%Z -> (0 <= 12 - k * 3 <= 5)%Z ->
          (r <= 5 - (12 - k * 3))%Z).
Proof.
  apply (lower_by_max_lowers_by_largest_step 13 5 12 3); simpl; lia.
Defined.

Example lower_by_max_run : __lower_by_max 13 5 12 3 = Ok 2%Z.
Proof. reflexivity. Qed.

(** With a step of 0 or less and a maximum above the breaking point the
    loop of [__lower_by_max] does not come to an end: whatever the bound on
    its iterations, it is still running when the bound is reached. *)
Theorem lower_by_max_loops_without_progress :
  forall fuel breaking_point maximum change,
  (change <= 0)%Z -> (0 <= maximum)%Z -> (breaking_point < maximum)%Z ->
  __lower_by_max fuel breaking_point maximum change = OutOfFuel.
Proof.
  induction fuel as [|fuel IH]; intros bp m c Hc Hm Hbp;
    unfold __lower_by_max; fold __lower_by_max;
    destruct (Z.geb_spec m 0) as [_|Hlt]; try lia;
    destruct (Z.geb_spec (bp - m) 0) as [Hfit|_]; try lia.
  - reflexivity.
  - apply IH; lia.
Qed.

Lemma lower_by_max_loops_without_progress_witness :
  __lower_by_max 1000 5 12 0 = OutOfFuel.
Proof.
  apply (lower_by_max_loops_without_progress 1000 5 12 0); lia.
Defined.

Lemma fgt_antitone a b c : a <= b -> fgt (Fin a) c = true -> fgt (Fin b) c = true.
Proof.
  simpl. intros Hab H. apply Qltb_lt in H. apply Qltb_lt.
  eapply Qlt_le_trans; eassumption.
Qed.

(** [__get_tag] is monotone: a larger value never gets a smaller tag, the
    tags being ordered from [very_small] up to [very_large].  A value that
    is not a number is [very_small], an infinite one [very_large]. *)
Theorem get_tag_is_monotone : forall a b,
  a <= b ->
  (tag_rank (__get_tag (Fin b)) <= tag_rank (__get_tag (Fin a)))%nat
  /\ __get_tag NaN = very_small
  /\ __get_tag PlusInf = very_large.
Proof.
  intros a b Hab. split; [|split; reflexivity].
  unfold __get_tag.
  repeat match goal with
         | |- context [fgt (Fin a) ?c] => destruct (fgt (Fin a) c) eqn:?
         end;
    repeat match goal with
           | |- context [fgt (Fin b) ?c] => destruct (fgt (Fin b) c) eqn:?
           end;
    simpl; try lia; exfalso;
    match goal with
    | Ha : fgt (Fin a) ?c = true, Hb : fgt (Fin b) ?c = false |- _ =>
        rewrite (fgt_antitone a b c Hab Ha) in Hb; discriminate
    end.
Qed.

Lemma get_tag_is_monotone_witness :
  (tag_rank (__get_tag (Fin (9 # 10))) <= tag_rank (__get_tag (Fin (2 # 10))))%nat
  /\ __get_tag NaN = very_small
  /\ __get_tag PlusInf = very_large.
Proof.
  apply (get_tag_is_monotone (2 # 10) (9 # 10)). unfold Qle. simpl. lia.
Defined.

End NumericFacts.

(** ** Scores between 0 and 1, cutoffs among the buckets *)

Section ScoreFacts.

Import Num Cutoff.
Local Open Scope Q_scope.

Lemma sum_nonneg l : Forall (fun x => 0 <= x) l -> 0 <= sum l.
Proof.
  induction 1 as [|x l Hx Hl IH].
  - apply Qle_refl.
  - rewrite sum_cons. lra.
Qed.

Lemma elem_le_sum l :
  Forall (fun x => 0 <= x) l -> Forall (fun x => x <= sum l) l.
Proof.
  induction 1 as [|x l Hx Hl IH]; constructor.
  - rewrite sum_cons. pose proof (sum_nonneg l Hl). lra.
  - apply Forall_forall. intros y Hy. rewrite sum_cons.
    rewrite Forall_forall in IH. specialize (IH y Hy). lra.
Qed.

(** On numbers that are not negative [__normalize] does what its docstring
    says: every value it returns lies between 0 and 1, also when the sum is
    0 and the list comes back as it is. *)
Theorem normalize_stays_in_unit_interval : forall l,
  Forall (fun x => 0 <= x) l ->
  Forall (fun y => 0 <= y <= 1) (__normalize l).
Proof.
  intros l H. pose proof (elem_le_sum l H) as Hle.
  pose proof (sum_nonneg l H) as Hs. unfold __normalize.
  destruct (Qeq_bool (sum l) 0) eqn:E.
  - apply Qeq_bool_iff in E. apply Forall_forall. intros x Hx.
    rewrite Forall_forall in H, Hle. specialize (H x Hx).
    specialize (Hle x Hx). lra.
  - assert (Hpos : 0 < sum l).
    { apply Qeq_bool_neq in E. lra. }
    apply Forall_forall. intros y Hy. apply in_map_iff in Hy.
    destruct Hy as [x [<- Hx]].
    rewrite Forall_forall in H, Hle. specialize (H x Hx).
    specialize (Hle x Hx). split.
    + apply Qle_shift_div_l; [exact Hpos | lra].
    + apply Qle_shift_div_r; [exact Hpos | lra].
Qed.

Lemma normalize_stays_in_unit_interval_witness :
  Forall (fun y => 0 <= y <= 1) (__normalize [2; 0; 6]).
Proof.
  apply (normalize_stays_in_unit_interval [2; 0; 6]).
  repeat constructor; unfold Qle; simpl; lia.
Defined.

Lemma get_cutoff_value tfidfs :
  tfidfs <> [] -> __get_cutoff tfidfs = Ok (steepest_bucket tfidfs).
Proof.
  intros H. unfold __get_cutoff.
  change 90%Z with (10 * Z.of_nat 10 - 10)%Z.
  rewrite (cutoff_loop_ok tfidfs H 10). cbv beta iota delta [bind].
  rewrite (proj2 (get_strategy_returns_breaking_point _ _ _)).
  f_equal. rewrite position_fold. reflexivity.
Qed.

(** The cutoff of a non-empty list of scores is one of the ten buckets 0,
    10, ..., 90, so that [numpy.percentile] is never asked for a percentile
    outside 0..100. *)
Theorem get_cutoff_is_a_bucket : forall tfidfs,
  tfidfs <> [] ->
  exists p,
    __get_cutoff tfidfs = Ok p
    /\ In p [0; 10; 20; 30; 40; 50; 60; 70; 80; 90]%Z.
Proof.
  intros tfidfs H. exists (steepest_bucket tfidfs).
  split; [apply get_cutoff_value, H|].
  destruct (steepest_bucket_spec tfidfs) as [[Hin _]|[-> _]].
  - unfold buckets_descending in Hin. simpl in Hin. simpl. tauto.
  - simpl. tauto.
Qed.

Lemma get_cutoff_is_a_bucket_witness :
  exists p,
    __get_cutoff [8 # 10; 1 # 10; 9 # 10] = Ok p
    /\ In p [0; 10; 20; 30; 40; 50; 60; 70; 80; 90]%Z.
Proof.
  apply (get_cutoff_is_a_bucket [8 # 10; 1 # 10; 9 # 10]). discriminate.
Defined.

End ScoreFacts.

(** ** Sorting and selecting the scored tokens *)

Section Selection.

Import Num Cutoff Query.
Local Open Scope Q_scope.

Lemma insert_desc_perm x l : Permutation (insert_desc x l) (x :: l).
Proof.
  induction l as [|y l IH]; simpl; [reflexivity|].
  destruct (Qltb (snd x) (snd y)); [|reflexivity].
  rewrite IH. apply perm_swap.
Qed.

Lemma sort_desc_perm l : Permutation (sort_desc l) l.
Proof.
  induction l as [|x l IH]; simpl; [reflexivity|].
  unfold sort_desc in *. simpl. rewrite insert_desc_perm.
  apply perm_skip, IH.
Qed.

Lemma insert_desc_sorted x l :
  StronglySorted (fun a b => snd b <= snd a) l ->
  StronglySorted (fun a b => snd b <= snd a) (insert_desc x l).
Proof.
  induction 1 as [|y l Hs IH Hall]; simpl.
  - repeat constructor.
  - destruct (Qltb (snd x) (snd y)) eqn:E.
    + constructor; [exact IH|].
      apply Forall_forall. intros z Hz.
      apply (Permutation_in _ (insert_desc_perm x l)) in Hz.
      destruct Hz as [<-|Hz].
      * apply Qlt_le_weak, Qltb_lt, E.
      * rewrite Forall_forall in Hall. apply Hall, Hz.
    + apply Qltb_ge in E. constructor; [constructor; assumption|].
      constructor; [exact E|].
      apply Forall_forall. intros z Hz.
      rewrite Forall_forall in Hall. specialize (Hall z Hz).
      eapply Qle_trans; eassumption.
Qed.

Lemma insert_desc_stable k x l :
  filter (fun p => Qeq_bool (snd p) k) (insert_desc x l)
  = filter (fun p => Qeq_bool (snd p) k) (x :: l).
Proof.
  induction l as [|y l IH]; [reflexivity|].
  simpl insert_desc. destruct (Qltb (snd x) (snd y)) eqn:E; [|reflexivity].
  simpl filter in *. rewrite IH.
  destruct (Qeq_bool (snd x) k) eqn:Ex; [|reflexivity].
  destruct (Qeq_bool (snd y) k) eqn:Ey; [|reflexivity].
  exfalso. apply Qeq_bool_iff in Ex, Ey. apply Qltb_lt in E. lra.
Qed.

(** The sort of [get_query] rearranges the scored tokens in descending
    order of score and is stable: tokens of equal score keep the order they
    have in the claim. *)
Theorem sort_desc_is_a_stable_sort : forall l,
  Permutation (sort_desc l) l
  /\ StronglySorted (fun a b => snd b <= snd a) (sort_desc l)
  /\ (forall k, filter (fun p => Qeq_bool (snd p) k) (sort_desc l)
                = filter (fun p => Qeq_bool (snd p) k) l).
Proof.
  intros l. split; [apply sort_desc_perm|]. split.
  - induction l as [|x l IH]; [constructor|].
    apply insert_desc_sorted, IH.
  - intros k. induction l as [|x l IH]; [reflexivity|].
    change (sort_desc (x :: l)) with (insert_desc x (sort_desc l)).
    rewrite insert_desc_stable. simpl. rewrite IH. reflexivity.
Qed.

Lemma set_add_NoDup x s : NoDup s -> NoDup (set_add x s).
Proof.
  intros H. unfold set_add. destruct (mem x s) eqn:E; [exact H|].
  apply mem_false in E. apply NoDup_app; [exact H | repeat constructor; auto|].
  intros y Hy [<-|[]]. contradiction.
Qed.

Lemma set_add_length x s : (length (set_add x s) <= S (length s))%nat.
Proof.
  unfold set_add. destruct (mem x s); [lia|]. rewrite length_app. simpl. lia.
Qed.

Lemma set_add_In x s y : In y (set_add x s) -> y = x \/ In y s.
Proof.
  unfold set_add. destruct (mem x s); [auto|]. intros H.
  apply in_app_or in H. destruct H as [H|[<-|[]]]; auto.
Qed.

Lemma select_invariant perc l : forall prequery,
  NoDup prequery -> (length prequery < 10)%nat ->
  NoDup (select perc prequery l)
  /\ (length (select perc prequery l) <= 10)%nat
  /\ (forall t, In t (select perc prequery l) ->
        In t prequery \/ exists q, In (t, q) l /\ perc <= q).
Proof.
  induction l as [|token rest IH]; intros prequery Hnd Hlen; simpl.
  - split; [exact Hnd|]. split; [lia | auto].
  - destruct (Qle_bool perc (snd token)) eqn:E;
      [|split; [exact Hnd|]; split; [lia | auto]].
    apply Qle_bool_iff in E.
    pose proof (set_add_NoDup (fst token) prequery Hnd) as Hnd'.
    pose proof (set_add_length (fst token) prequery) as Hlen'.
    assert (Hin : forall t, In t (set_add (fst token) prequery) ->
                    In t prequery
                    \/ exists q, In (t, q) (token :: rest) /\ perc <= q).
    { intros t Ht. apply set_add_In in Ht. destruct Ht as [->|Ht]; [|auto].
      right. exists (snd token). split; [left; destruct token; reflexivity|].
      exact E. }
    destruct (Z.geb_spec (Z.of_nat (length (set_add (fst token) prequery))) 10)
      as [Hfull|Hroom].
    + split; [exact Hnd'|]. split; [lia | exact Hin].
    + destruct (IH (set_add (fst token) prequery) Hnd' ltac:(lia))
        as [H1 [H2 H3]].
      split; [exact H1|]. split; [exact H2|].
      intros t Ht. destruct (H3 t Ht) as [Hp|[q [Hq Hle]]].
      * apply Hin, Hp.
      * right. exists q. split; [right; exact Hq | exact Hle].
Qed.

(** The set [prequery] never holds more than 10 tokens, holds none twice,
    and holds only tokens whose score reaches the percentile [perc]. *)
Theorem select_keeps_at_most_ten : forall perc tokens_with_idfs,
  NoDup (select perc [] tokens_with_idfs)
  /\ (length (select perc [] tokens_with_idfs) <= 10)%nat
  /\ (forall t, In t (select perc [] tokens_with_idfs) ->
        exists q, In (t, q) tokens_with_idfs /\ perc <= q).
Proof.
  intros perc l.
  destruct (select_invariant perc l [] (NoDup_nil _) ltac:(simpl; lia))
    as [H1 [H2 H3]].
  split; [exact H1|]. split; [exact H2|].
  intros t Ht. destruct (H3 t Ht) as [[]|H]. exact H.
Qed.

End Selection.

(** ** Text in the ASCII range *)

Section AsciiText.

Import Sentences Tokens.

Lemma is_ascii_char_lower c :
  is_ascii_char c = true -> is_ascii_char (lower_char c) = true.
Proof.
  destruct c as [[] [] [] [] [] [] [] []]; intros H;
    try reflexivity; discriminate H.
Qed.

Lemma is_ascii_lower s : is_ascii s = true -> is_ascii (lower s) = true.
Proof.
  induction s as [|c s IH]; [reflexivity|]. simpl. intros H.
  apply andb_true_iff in H. destruct H as [Hc Hs].
  rewrite (is_ascii_char_lower c Hc), (IH Hs). reflexivity.
Qed.

Lemma is_ascii_chars s :
  is_ascii s = true <-> (forall c, In c s -> is_ascii_char c = true).
Proof. apply forallb_forall. Qed.

Lemma is_ascii_app a b : is_ascii (a ++ b) = is_ascii a && is_ascii b.
Proof. apply forallb_app. Qed.

Lemma join_ascii sep (l : list str) :
  is_ascii sep = true -> Forall (fun p => is_ascii p = true) l ->
  is_ascii (join sep l) = true.
Proof.
  intros Hsep. induction 1 as [|p l Hp Hl IH]; [reflexivity|].
  destruct l as [|q l]; [exact Hp|].
  change (join sep (p :: q :: l)) with (p ++ sep ++ join sep (q :: l)).
  rewrite !is_ascii_app, Hp, Hsep, IH. reflexivity.
Qed.

Lemma split_ascii sep s :
  is_ascii s = true -> Forall (fun p => is_ascii p = true) (split sep s).
Proof.
  intros H. apply Forall_forall. intros p Hp. apply is_ascii_chars.
  intros c Hc. rewrite is_ascii_chars in H. apply H.
  eapply split_incl; eassumption.
Qed.

Lemma sents_loop_ascii parts : forall sentence_part,
  Forall (fun p => is_ascii p = true) (sentence_part ++ parts) ->
  Forall (fun x => is_ascii x = true) (sents_loop sentence_part parts).
Proof.
  induction parts as [|elem rest IH]; intros sp H; [constructor|].
  assert (Hbuf : Forall (fun p : str => is_ascii p = true) (sp ++ [elem])).
  { replace (sp ++ elem :: rest) with ((sp ++ [elem]) ++ rest) in H
      by (rewrite <- app_assoc; reflexivity).
    apply Forall_app in H. tauto. }
  assert (Hj : is_ascii (join (lit ".") (sp ++ [elem])) = true)
    by (apply join_ascii; [reflexivity | exact Hbuf]).
  rewrite sents_loop_cons. destruct rest as [|part_next rest'];
    unfold str in *.
  - constructor; [exact Hj | constructor].
  - destruct (decide (sp ++ [elem]) part_next).
    + constructor; [exact Hj|]. apply (IH []).
      apply Forall_app in H. destruct H as [_ H]. inversion H; assumption.
    + apply IH. rewrite <- app_assoc. exact H.
Qed.

(** The sentences of a text in the ASCII range are in that range. *)
Lemma split_in_sents_ascii string :
  is_ascii string = true ->
  Forall (fun sentence => is_ascii sentence = true) (_split_in_sents string).
Proof.
  intros H. unfold _split_in_sents. apply sents_loop_ascii. simpl.
  apply Forall_forall. intros p Hp. apply filter_In in Hp.
  destruct Hp as [Hp _]. revert p Hp. apply Forall_forall.
  apply split_ascii, H.
Qed.

Lemma tokenize_go_incl s : forall cur t c,
  In t (tokenize_go cur s) -> In c t -> In c cur \/ In c s.
Proof.
  induction s as [|c0 s IH]; intros cur t c Ht Hc; simpl in Ht.
  - destruct cur as [|x cur]; [contradiction|].
    destruct Ht as [<-|[]]. left. apply in_rev. exact Hc.
  - destruct (is_word_char c0).
    + destruct (IH _ _ _ Ht Hc) as [[<-|H]|H]; simpl; auto.
    + apply in_app_or in Ht. destruct Ht as [Ht|Ht].
      * destruct cur as [|x cur]; [contradiction|].
        destruct Ht as [<-|[]]. left. apply in_rev. exact Hc.
      * destruct (IH _ _ _ Ht Hc) as [[]|H]. right. right. exact H.
Qed.

(** A token is cut out of the text, so the tokens of a text in the ASCII
    range are in that range. *)
Lemma tokenize_ascii s :
  is_ascii s = true -> Forall (fun t => is_ascii t = true) (tokenize s).
Proof.
  intros H. apply Forall_forall. intros t Ht. apply is_ascii_chars.
  intros c Hc. rewrite is_ascii_chars in H. apply H.
  destruct (tokenize_go_incl s [] t c Ht Hc) as [[]|Hin]. exact Hin.
Qed.

End AsciiText.

(** ** The token tables and the query *)

Section TokenFacts.

Import Num Cutoff Tokens Sentences Segmenter Query TokenTables.
Local Open Scope Q_scope.

Variable log : Q -> Q -> Q.

Lemma add_at_length n v l : length (add_at n v l) = length l.
Proof.
  revert n. induction l as [|y l IH]; intros [|n]; simpl; auto.
Qed.

Lemma count_word_length word toks : forall tfs,
  length (count_word word toks tfs) = length tfs.
Proof.
  induction toks as [|t toks IH]; intros [|tf tfs]; simpl; auto.
  destruct (str_eqb (lower t) word); simpl; auto.
Qed.

(** Against stored tokens in the ASCII range the comparison of a [unicode]
    token with the byte strings is plain equality. *)
Lemma unicode_mem_ascii token toks :
  Forall (fun t => is_ascii t = true) toks ->
  unicode_mem token toks = mem token toks.
Proof.
  unfold unicode_mem, mem. induction 1 as [|t toks Ht Hl IH]; [reflexivity|].
  simpl. unfold unicode_eqb at 1. rewrite Ht, IH. reflexivity.
Qed.

(** A token with a character outside the ASCII range equals no stored byte
    string: it is appended again each time it is met. *)
Lemma unicode_mem_non_ascii token toks :
  is_ascii token = false -> unicode_mem token toks = false.
Proof.
  intros H. unfold unicode_mem. induction toks as [|t toks IH]; [reflexivity|].
  simpl. rewrite IH, orb_false_r. unfold unicode_eqb, str_eqb.
  destruct (list_eq_dec ascii_dec token t) as [<-|Hne];
    [rewrite H; reflexivity | apply andb_false_r].
Qed.

Lemma weigh_non_ascii i st token :
  is_ascii (lower token) = false ->
  tokens (weigh i st token) = tokens st ++ [lower token].
Proof.
  intros H. unfold weigh. rewrite unicode_mem_non_ascii by exact H.
  reflexivity.
Qed.

Lemma tables_append st token w :
  tables_ok st ->
  tables_ok (mkTf (tokens st ++ [lower token]) (token_weights st ++ [w])
               (token_tfs st ++ [0])).
Proof.
  intros [Hlow [Hw Ht]].
  unfold tables_ok. simpl. rewrite !length_app. simpl.
  split; [|split; lia].
  apply Forall_app. split; [exact Hlow|].
  constructor; [apply lowered_lower | constructor].
Qed.

Lemma weigh_ok i st token : tables_ok st -> tables_ok (weigh i st token).
Proof.
  intros H. unfold weigh.
  destruct (unicode_mem (lower token) (tokens st)) eqn:E.
  - destruct (negb (i =? 1)%Z); [|exact H].
    destruct H as [Hlow [Hw Ht]]. unfold tables_ok. simpl.
    rewrite add_at_length. auto.
  - apply tables_append; assumption.
Qed.

Lemma introduce_ok st token : tables_ok st -> tables_ok (introduce st token).
Proof.
  intros H. unfold introduce.
  destruct (unicode_mem (lower token) (tokens st)) eqn:E; simpl; [exact H|].
  apply tables_append; assumption.
Qed.

Lemma count_ok st word : tables_ok st -> tables_ok (count st word).
Proof.
  intros [Hlow [Hw Ht]]. unfold tables_ok, count. simpl.
  rewrite count_word_length. auto.
Qed.

Lemma tokens_append st token w t :
  tokens_ok st -> is_ascii token = true ->
  unicode_mem (lower token) (tokens st) = false ->
  tokens_ok (mkTf (tokens st ++ [lower token]) w t).
Proof.
  intros [Hnd Hasc] Htok Hm. rewrite unicode_mem_ascii in Hm by exact Hasc.
  apply mem_false in Hm. unfold tokens_ok. simpl. split.
  - apply NoDup_app; [exact Hnd | repeat constructor; auto|].
    intros y Hy [<-|[]]. contradiction.
  - apply Forall_app. split; [exact Hasc|].
    constructor; [apply is_ascii_lower, Htok | constructor].
Qed.

Lemma weigh_tokens_ok i st token :
  tokens_ok st -> is_ascii token = true -> tokens_ok (weigh i st token).
Proof.
  intros H Htok. unfold weigh.
  destruct (unicode_mem (lower token) (tokens st)) eqn:E.
  - destruct (negb (i =? 1)%Z); exact H.
  - apply tokens_append; assumption.
Qed.

Lemma introduce_tokens_ok st token :
  tokens_ok st -> is_ascii token = true -> tokens_ok (introduce st token).
Proof.
  intros H Htok. unfold introduce.
  destruct (unicode_mem (lower token) (tokens st)) eqn:E; simpl; [exact H|].
  apply tokens_append; assumption.
Qed.

Lemma fold_ok (f : tf_state -> str -> tf_state) l :
  (forall st x, tables_ok st -> tables_ok (f st x)) ->
  forall st, tables_ok st -> tables_ok (fold_left f l st).
Proof.
  intros Hf. induction l as [|x l IH]; intros st H; simpl; auto.
Qed.

Lemma fold_tokens_ok (f : tf_state -> str -> tf_state) l :
  (forall st x, tokens_ok st -> is_ascii x = true -> tokens_ok (f st x)) ->
  Forall (fun x => is_ascii x = true) l ->
  forall st, tokens_ok st -> tokens_ok (fold_left f l st).
Proof.
  intros Hf. induction 1 as [|x l Hx Hl IH]; intros st H; simpl; auto.
Qed.

Lemma fold_count_tokens words : forall st,
  tokens (fold_left count words st) = tokens st.
Proof.
  induction words as [|w words IH]; intros st; [reflexivity|].
  simpl. rewrite IH. reflexivity.
Qed.

Lemma nth_back_ascii sentences i s :
  Forall (fun x => is_ascii x = true) sentences ->
  nth_back sentences i = Ok s -> is_ascii s = true.
Proof.
  intros H. unfold nth_back. destruct (_ <=? _)%Z; [|discriminate].
  intros [= <-].
  destruct (nth_in_or_default
              (Z.to_nat (Z.of_nat (length sentences) - i)) sentences [])
    as [Hin|Hd].
  - rewrite Forall_forall in H. apply H, Hin.
  - unfold str in *. rewrite Hd. reflexivity.
Qed.

Lemma weight_loop_ok fuel sentences : forall i st st',
  tables_ok st -> weight_loop fuel sentences i st = Ok st' -> tables_ok st'.
Proof.
  induction fuel as [|fuel IH]; intros i st st' H;
    unfold weight_loop; fold weight_loop;
    destruct (i <? 4)%Z; try discriminate; try (intros [= <-]; exact H).
  destruct (nth_back sentences i) as [s| |]; simpl; try discriminate.
  assert (H' : tables_ok (fold_left (weigh i) (tokenize s) st))
    by (apply fold_ok; [intros; apply weigh_ok; assumption | exact H]).
  destruct (str_eqb s (hd [] sentences)).
  - intros [= <-]. exact H'.
  - apply IH, H'.
Qed.

Lemma weight_loop_tokens_ok fuel sentences :
  Forall (fun x => is_ascii x = true) sentences ->
  forall i st st',
  tokens_ok st -> weight_loop fuel sentences i st = Ok st' -> tokens_ok st'.
Proof.
  intros Hs.
  induction fuel as [|fuel IH]; intros i st st' H;
    unfold weight_loop; fold weight_loop;
    destruct (i <? 4)%Z; try discriminate; try (intros [= <-]; exact H).
  destruct (nth_back sentences i) as [s| |] eqn:En; simpl; try discriminate.
  assert (H' : tokens_ok (fold_left (weigh i) (tokenize s) st)).
  { apply fold_tokens_ok; [intros; apply weigh_tokens_ok; assumption | |exact H].
    apply tokenize_ascii. eapply nth_back_ascii; eassumption. }
  destruct (str_eqb s (hd [] sentences)).
  - intros [= <-]. exact H'.
  - apply IH, H'.
Qed.

Lemma normalize_length l : length (__normalize l) = length l.
Proof.
  unfold __normalize. destruct (Qeq_bool _ _); [reflexivity|].
  apply length_map.
Qed.

Lemma final_tables_ok claim_type_ sentences text_ st :
  weight_loop 3 sentences 1 (mkTf [] [] []) = Ok st ->
  tables_ok
    (fold_left count (tokenize text_)
       match claim_type_ with
       | B => st
       | F => if (Z.of_nat (length sentences) >? 3)%Z
              then fold_left introduce (tokenize (hd [] sentences)) st
              else st
       end).
Proof.
  intros Hw.
  assert (H0 : tables_ok (mkTf [] [] []))
    by (unfold tables_ok; simpl; repeat split; constructor).
  pose proof (weight_loop_ok _ _ _ _ _ H0 Hw) as H1.
  apply fold_ok; [intros; apply count_ok; assumption|].
  destruct claim_type_; [exact H1|].
  destruct (_ >? _)%Z; [|exact H1].
  apply fold_ok; [intros; apply introduce_ok; assumption | exact H1].
Qed.

Lemma final_tokens_ok claim_type_ sentences text_ st :
  Forall (fun x => is_ascii x = true) sentences ->
  weight_loop 3 sentences 1 (mkTf [] [] []) = Ok st ->
  tokens_ok
    (fold_left count (tokenize text_)
       match claim_type_ with
       | B => st
       | F => if (Z.of_nat (length sentences) >? 3)%Z
              then fold_left introduce (tokenize (hd [] sentences)) st
              else st
       end).
Proof.
  intros Hs Hw.
  assert (H0 : tokens_ok (mkTf [] [] []))
    by (unfold tokens_ok; simpl; split; constructor).
  pose proof (weight_loop_tokens_ok _ _ Hs _ _ _ H0 Hw) as H1.
  unfold tokens_ok. rewrite fold_count_tokens. fold (tokens_ok
    match claim_type_ with
    | B => st
    | F => if (Z.of_nat (length sentences) >? 3)%Z
           then fold_left introduce (tokenize (hd [] sentences)) st
           else st
    end).
  destruct claim_type_; [exact H1|].
  destruct (_ >? _)%Z; [|exact H1].
  apply fold_tokens_ok;
    [intros; apply introduce_tokens_ok; assumption | |exact H1].
  apply tokenize_ascii. destruct Hs; [reflexivity | assumption].
Qed.

(** For sentences in the ASCII range, the tokens [__get_tokens_with_tfs]
    returns are lower-cased and pairwise different, and it returns one
    frequency for each of them.  The restriction is needed for the tokens
    to be different ([weigh_non_ascii]). *)
Theorem tokens_are_distinct_and_lowercase :
  forall claim_type_ sentences text_ toks tfs,
  Forall (fun sentence => is_ascii sentence = true) sentences ->
  __get_tokens_with_tfs log claim_type_ sentences text_ = Ok (toks, tfs) ->
  NoDup toks /\ Forall lowered toks /\ length tfs = length toks.
Proof.
  intros ct sentences text_ toks tfs Hs. unfold __get_tokens_with_tfs.
  destruct (weight_loop 3 sentences 1 (mkTf [] [] [])) as [st| |] eqn:Hw;
    simpl; try discriminate.
  pose proof (final_tables_ok ct sentences text_ st Hw) as H.
  pose proof (final_tokens_ok ct sentences text_ st Hs Hw) as [Hnd _].
  intros [= <- <-]. destruct H as [Hlow [Hlw Hlt]].
  split; [exact Hnd|]. split; [exact Hlow|].
  rewrite normalize_length, length_map, length_combine. lia.
Qed.

Lemma firstn_NoDup {A} n (l : list A) : NoDup l -> NoDup (firstn n l).
Proof.
  intros H. rewrite <- (firstn_skipn n l) in H.
  eapply NoDup_app_remove_r. exact H.
Qed.

Lemma truncate_NoDup (query : list str) : NoDup query -> NoDup (truncate query).
Proof.
  intros H. unfold truncate. destruct (_ >? _)%Z; [|exact H].
  unfold slice. apply firstn_NoDup.
  rewrite <- (firstn_skipn (Z.to_nat 0) query) in H.
  eapply NoDup_app_remove_l. exact H.
Qed.

Lemma title_tokens_lowered title_ : Forall lowered (title_tokens title_).
Proof.
  unfold title_tokens. apply Forall_forall. intros x Hx.
  apply in_map_iff in Hx. destruct Hx as [y [<- _]]. apply lowered_lower.
Qed.

(** For a claim whose text is in the ASCII range, whenever [get_query]
    completes, the query holds no token twice, every token of it is
    lower-cased, and every token of the title is in it. *)
Theorem query_has_each_token_once :
  forall c dictionary article_count query,
  is_ascii (text c) = true ->
  get_query_tokens log c dictionary article_count = Ok query ->
  NoDup query
  /\ Forall lowered query
  /\ (forall k, In k (title_tokens (title c)) -> In k query).
Proof.
  intros c dictionary article_count query Hascii H.
  unfold get_query_tokens in H.
  destruct (scores log c dictionary article_count) as [[toks tfidfs]| |] eqn:Es;
    simpl in H; try discriminate.
  destruct (__get_cutoff tfidfs) as [cutoff| |]; simpl in H; try discriminate.
  destruct (percentile tfidfs cutoff) as [perc| |]; simpl in H;
    try discriminate.
  injection H as <-. rewrite assemble_shape.
  unfold scores in Es.
  unfold __get_tokens_with_tfs in Es.
  destruct (weight_loop 3 (_split_in_sents (text c)) 1 (mkTf [] [] []))
    as [st| |] eqn:Hw; simpl in Es; try discriminate.
  pose proof (final_tables_ok (ctype c) (_split_in_sents (text c))
                (article_text c) st Hw) as [Hlow _].
  pose proof (final_tokens_ok (ctype c) (_split_in_sents (text c))
                (article_text c) st (split_in_sents_ascii _ Hascii) Hw)
    as [Hnd _].
  injection Es as Htoks _. rewrite Htoks in Hnd, Hlow.
  set (b := body toks tfidfs perc).
  assert (Hb : NoDup b).
  { unfold b, body. apply truncate_NoDup, NoDup_filter, Hnd. }
  split; [|split].
  - apply NoDup_app; [apply NoDup_nodup | exact Hb|].
    intros x Hx Hx'. apply title_front_spec in Hx. tauto.
  - apply Forall_app. split.
    + apply Forall_forall. intros x Hx. apply title_front_spec in Hx.
      pose proof (title_tokens_lowered (title c)) as Hl.
      rewrite Forall_forall in Hl. apply Hl. tauto.
    + apply Forall_forall. intros x Hx. apply body_incl in Hx.
      rewrite Forall_forall in Hlow. apply Hlow, Hx.
  - intros k Hk. apply in_or_app.
    destruct (in_dec (list_eq_dec ascii_dec) k b) as [Hin|Hnin];
      [right; exact Hin|].
    left. apply title_front_spec. split; assumption.
Qed.

End TokenFacts.

Lemma tokens_are_distinct_and_lowercase_witness :
  match Query.__get_tokens_with_tfs Query.log_any Segmenter.B
          [lit "Green Tea"; lit " Tea is tea"] (lit "Tea") with
  | Ok (toks, tfs) =>
      toks = [lit "tea"; lit "is"; lit "green"]
      /\ NoDup toks /\ Forall lowered toks /\ length tfs = length toks
  | _ => False
  end.
Proof.
  destruct (Query.__get_tokens_with_tfs Query.log_any Segmenter.B
              [lit "Green Tea"; lit " Tea is tea"] (lit "Tea"))
    as [[toks tfs]| |] eqn:E.
  - split; [vm_compute in E; injection E as <- _; reflexivity|].
    apply (tokens_are_distinct_and_lowercase Query.log_any Segmenter.B
             [lit "Green Tea"; lit " Tea is tea"] (lit "Tea") toks tfs);
      [repeat constructor | exact E].
  - vm_compute in E. discriminate.
  - vm_compute in E. discriminate.
Defined.

Lemma query_has_each_token_once_witness :
  NoDup (map lit ["history"; "green"; "tea"; "was"; "first"; "brewed"; "in";
                  "ancient"; "china"]%string)
  /\ Forall lowered
       (map lit ["history"; "green"; "tea"; "was"; "first"; "brewed"; "in";
                 "ancient"; "china"]%string)
  /\ (forall k, In k (Query.title_tokens (Segmenter.title Query.tea_claim)) ->
        In k (map lit ["history"; "green"; "tea"; "was"; "first"; "brewed";
                       "in"; "ancient"; "china"]%string)).
Proof.
  apply (query_has_each_token_once Query.log_any Query.tea_claim
           Query.empty_dictionary 1).
  - reflexivity.
  - vm_compute. reflexivity.
Defined.

(** ** Claims without a sentence *)

Section NoSentence.

Import Sentences Segmenter Query Dots.

Lemma split_go_dots s : forall cur,
  Forall (fun ch => ch = "."%char) s ->
  filter non_empty (split_go ["."%char] 0 cur s) = filter non_empty [rev cur].
Proof.
  induction s as [|x s IH]; intros cur H; [reflexivity|].
  inversion H as [|? ? Hx Hs]; subst. simpl split_go. simpl startswith.
  simpl andb. cbv iota. simpl filter at 1. rewrite (IH [] Hs).
  simpl. destruct (rev cur); reflexivity.
Qed.

(** A claim whose text is empty or made of dots only has no sentence, and
    [get_query] raises [IndexError] on it, at [sentences[-1]]. *)
Theorem get_query_raises_without_sentence :
  forall log c dictionary article_count,
  Forall (fun ch => ch = "."%char) (text c) ->
  _split_in_sents (text c) = []
  /\ get_query log c dictionary article_count = Raise IndexError.
Proof.
  intros log c dictionary article_count H.
  assert (Hs : _split_in_sents (text c) = []).
  { unfold _split_in_sents, split. change (lit ".") with ["."%char].
    rewrite (split_go_dots _ [] H). reflexivity. }
  split; [exact Hs|].
  unfold get_query, get_query_tokens, scores. rewrite Hs. reflexivity.
Qed.

Lemma get_query_raises_without_sentence_witness :
  _split_in_sents (text dots_claim) = []
  /\ get_query log_any dots_claim empty_dictionary 1 = Raise IndexError.
Proof.
  apply (get_query_raises_without_sentence log_any dots_claim
           empty_dictionary 1).
  repeat constructor.
Defined.

Example dots_claim_is_extracted :
  from_text (lit "Dots") dots_article = Ok [dots_claim].
Proof. reflexivity. Qed.

End NoSentence.

(** ** The spans of the scanner *)

Section ScannerSpans.

Import Wiki Positions.

Lemma interleave_start sts : forall ens x,
  length sts = length ens ->
  interleave (sts ++ [x]) ens = interleave sts ens ++ [x].
Proof.
  induction sts as [|a sts IH]; intros [|b ens] x H; try discriminate.
  - reflexivity.
  - simpl in *. rewrite IH by lia. reflexivity.
Qed.

Lemma interleave_end sts : forall ens y,
  length sts = S (length ens) ->
  interleave sts (ens ++ [y]) = interleave sts ens ++ [y].
Proof.
  induction sts as [|a sts IH]; intros ens y H; [discriminate|].
  destruct ens as [|b ens]; simpl in *.
  - destruct sts; [reflexivity | discriminate].
  - rewrite IH by lia. reflexivity.
Qed.

Lemma sorted_snoc l x :
  StronglySorted Z.lt l -> Forall (fun y => y < x) l ->
  StronglySorted Z.lt (l ++ [x]).
Proof.
  induction 1 as [|a l Hs IH Ha]; intros Hx; simpl.
  - repeat constructor.
  - inversion Hx; subst. constructor; [apply IH; assumption|].
    apply Forall_app. split; [exact Ha | repeat constructor; assumption].
Qed.

Lemma Forall_weaken (P Q : Z -> Prop) l :
  (forall x, P x -> Q x) -> Forall P l -> Forall Q l.
Proof. intros H. apply Forall_impl. exact H. Qed.

Lemma scan_step_ok st i c :
  0 <= i -> scan_ok st i -> scan_ok (scan_step st i c) (i + 1).
Proof.
  intros Hi. destruct st as [o k sts ens it p].
  unfold scan_ok, scan_step. simpl.
  intros [Hs [Hb [Hp Hrest]]].
  destruct it; simpl.
  - (* inside a template *)
    destruct Hrest as [Hlen Hdepth].
    destruct (Ascii.eqb c lbrace) eqn:El.
    + destruct (Z.eqb_spec (o + 1) k) as [E|E]; [lia|]. simpl.
      split; [exact Hs|]. split; [eapply Forall_weaken; [|exact Hb]; simpl; lia|].
      split; [right; lia|]. split; [exact Hlen | lia].
    + destruct (Ascii.eqb c rbrace) eqn:Er.
      * destruct (Z.eqb_spec o (k + 1)) as [E|E]; simpl.
        -- rewrite interleave_end by exact Hlen.
           split; [apply sorted_snoc; [exact Hs|];
                   eapply Forall_weaken; [|exact Hb]; simpl; lia|].
           split.
           { apply Forall_app. split;
               [eapply Forall_weaken; [|exact Hb]; simpl; lia|].
             repeat constructor; lia. }
           split; [right; lia|].
           split; [rewrite length_app; simpl; lia|]. split; [reflexivity|].
           intros [= Hc]. apply Ascii.eqb_eq in Er. subst c. discriminate.
        -- split; [exact Hs|].
           split; [eapply Forall_weaken; [|exact Hb]; simpl; lia|].
           split; [right; lia|]. split; [exact Hlen | lia].
      * destruct (Z.eqb_spec o k) as [E|E]; [lia|]. simpl.
        split; [exact Hs|].
        split; [eapply Forall_weaken; [|exact Hb]; simpl; lia|].
        split; [right; lia|]. split; [exact Hlen | lia].
  - (* outside *)
    destruct Hrest as [Hlen [Hk Hprev]]. subst k.
    destruct (Ascii.eqb c lbrace) eqn:El; simpl.
    + destruct (opt_ascii_eqb c p) eqn:Ep; simpl.
      * (* a template starts at [i - 1] *)
        destruct p as [d|]; [|discriminate]. simpl in Ep.
        apply Ascii.eqb_eq in El, Ep. subst d c.
        specialize (Hprev eq_refl).
        assert (H1 : 1 <= i) by (destruct Hp as [Hp|Hp]; [discriminate | exact Hp]).
        destruct (Z.eqb_spec (1 + 1) 0) as [E|E]; [lia|]. simpl.
        rewrite interleave_start by exact Hlen.
        split; [apply sorted_snoc; assumption|].
        split.
        { apply Forall_app. split;
            [eapply Forall_weaken; [|exact Hb]; simpl; lia|].
          repeat constructor; lia. }
        split; [right; lia|].
        split; [rewrite length_app; simpl; lia | lia].
      * split; [exact Hs|].
        split; [eapply Forall_weaken; [|exact Hb]; simpl; lia|].
        split; [right; lia|]. split; [exact Hlen|]. split; [reflexivity|].
        intros _. eapply Forall_weaken; [|exact Hb]. simpl. lia.
    + split; [exact Hs|].
      split; [eapply Forall_weaken; [|exact Hb]; simpl; lia|].
      split; [right; lia|]. split; [exact Hlen|]. split; [reflexivity|].
      intros _. eapply Forall_weaken; [|exact Hb]. simpl. lia.
Qed.

Lemma scan_from_ok s : forall st i,
  0 <= i -> scan_ok st i ->
  scan_ok (scan_from st i s) (i + Z.of_nat (length s)).
Proof.
  induction s as [|c s IH]; intros st i Hi H; simpl scan_from.
  - simpl. rewrite Z.add_0_r. exact H.
  - replace (i + Z.of_nat (length (c :: s)))
      with ((i + 1) + Z.of_nat (length s)) by (simpl length; lia).
    apply IH; [lia|]. apply scan_step_ok; assumption.
Qed.

Lemma scan_ok_scan s : scan_ok (scan s) (Z.of_nat (length s)).
Proof.
  assert (H0 : scan_ok scan_init 0).
  { unfold scan_ok, scan_init. simpl.
    split; [constructor|]. split; [constructor|]. split; [left; reflexivity|].
    split; [reflexivity|]. split; [reflexivity|]. intros; constructor. }
  pose proof (scan_from_ok s scan_init 0 (Z.le_refl 0) H0) as H.
  fold (scan s) in H. rewrite Z.add_0_l in H. exact H.
Qed.

(** The positions the scanner records, read as start, end, start, end, ...,
    strictly increase and lie inside the text: every template ends after it
    starts and starts after the one before it has ended.  There are as many
    starts as ends, or one start more when the text ends inside a
    template. *)
Theorem scanner_spans_are_ordered : forall s,
  StronglySorted Z.lt (interleave (starts (scan s)) (ends (scan s)))
  /\ Forall (fun x => 0 <= x < Z.of_nat (length s))
       (interleave (starts (scan s)) (ends (scan s)))
  /\ (if in_template (scan s)
      then length (starts (scan s)) = S (length (ends (scan s)))
      else length (starts (scan s)) = length (ends (scan s))).
Proof.
  intros s.
  assert (H0 : scan_ok scan_init 0).
  { unfold scan_ok, scan_init. simpl.
    split; [constructor|]. split; [constructor|]. split; [left; reflexivity|].
    split; [reflexivity|]. split; [reflexivity|]. intros; constructor. }
  pose proof (scan_from_ok s scan_init 0 (Z.le_refl 0) H0) as H.
  fold (scan s) in H. rewrite Z.add_0_l in H.
  destruct H as [Hs [Hb [_ Hrest]]].
  split; [exact Hs|]. split; [exact Hb|].
  destruct (in_template (scan s)); tauto.
Qed.

End ScannerSpans.

(** ** Templates that are neither citations nor quotes *)

Section PlainTemplates.

Import Wiki Positions.

Lemma emit_all_plain s sts ens cs q t ts : forall aList i,
  Forall (fun template => is_cn template cs = false
                          /\ is_quote template q = false) ts ->
  emit_all s sts ens cs q t aList i ts
  = aList ++ map (fun j => nth j (pieces s sts ens) []) (seq i (length ts)).
Proof.
  induction ts as [|template ts IH]; intros aList i H; simpl.
  - rewrite app_nil_r. reflexivity.
  - inversion H as [|? ? [Hcn Hq] Hrest]; subst.
    rewrite IH by exact Hrest. unfold emit. rewrite Hcn, Hq.
    rewrite <- app_assoc. reflexivity.
Qed.

Lemma map_nth_seq {A} (l : list A) d : forall n,
  (n <= length l)%nat ->
  map (fun j => nth j l d) (seq 0 n) = firstn n l.
Proof.
  induction l as [|x l IH]; intros n Hn.
  - simpl in Hn. replace n with 0%nat by lia. reflexivity.
  - destruct n as [|n]; [reflexivity|]. simpl. f_equal.
    rewrite <- seq_shift, map_map. apply IH. simpl in Hn. lia.
Qed.

Lemma firstn_last {A} (l : list A) d n :
  length l = S n -> firstn n l ++ [last l d] = l.
Proof.
  intros H. assert (Hne : l <> []) by (destruct l; discriminate).
  rewrite (app_removelast_last d Hne) at 3. f_equal.
  rewrite removelast_firstn_len, H. reflexivity.
Qed.

Lemma pieces_length s sts ens :
  length (pieces s sts ens) = S (length (templates s sts ens)).
Proof.
  unfold pieces, templates, zip. rewrite !length_map, !length_combine.
  rewrite length_app, length_map. simpl. lia.
Qed.

(** Without citations and quotes the rewriter joins the pieces. *)
Lemma rewrite_plain s set_citation quote_identifier text_identifier :
  Forall (fun template => is_cn template set_citation = false
                          /\ is_quote template quote_identifier = false)
         (templates s (starts (scan s)) (ends (scan s))) ->
  replace_citation_templates s set_citation quote_identifier text_identifier
  = concat (pieces s (starts (scan s)) (ends (scan s))).
Proof.
  intros H. unfold replace_citation_templates.
  rewrite emit_all_plain by exact H. simpl app.
  pose proof (pieces_length s (starts (scan s)) (ends (scan s))) as Hlen.
  rewrite map_nth_seq by lia.
  destruct (firstn _ _) as [|x l] eqn:E; [reflexivity|].
  rewrite <- E. rewrite firstn_last by exact Hlen. reflexivity.
Qed.

(** The text between two positions. *)
Lemma slice_between (s : str) i (lim : option Z) :
  let L := match lim with Some l => l | None => Z.of_nat (length s) end in
  0 <= i <= L -> L <= Z.of_nat (length s) ->
  slice s (Some i) lim
  = firstn (Z.to_nat (L - i)) (skipn (Z.to_nat i) s).
Proof.
  intros L Hi HL. unfold slice, clip.
  destruct (Z.ltb_spec i 0) as [Hn|_]; [lia|].
  rewrite (Z.min_r _ i), (Z.max_r 0 i) by lia.
  destruct lim as [l|]; subst L; [|reflexivity].
  destruct (Z.ltb_spec l 0) as [Hn|_]; [lia|].
  rewrite (Z.min_r _ l), (Z.max_r 0 l) by lia. reflexivity.
Qed.

Lemma firstn_plus {A} (l : list A) : forall n m,
  firstn (n + m) l = firstn n l ++ firstn m (skipn n l).
Proof.
  induction l as [|x l IH]; intros [|n] m; simpl;
    try rewrite firstn_nil; try reflexivity.
  rewrite IH. reflexivity.
Qed.

Lemma between_split (s : str) i j k :
  0 <= i <= j -> j <= k ->
  firstn (Z.to_nat (k - i)) (skipn (Z.to_nat i) s)
  = firstn (Z.to_nat (j - i)) (skipn (Z.to_nat i) s)
    ++ firstn (Z.to_nat (k - j)) (skipn (Z.to_nat j) s).
Proof.
  intros Hi Hj.
  replace (Z.to_nat (k - i)) with (Z.to_nat (j - i) + Z.to_nat (k - j))%nat
    by lia.
  rewrite firstn_plus, skipn_skipn.
  replace (Z.to_nat (j - i) + Z.to_nat i)%nat with (Z.to_nat j) by lia.
  reflexivity.
Qed.

Lemma between_length (s : str) i j :
  0 <= i <= j -> j <= Z.of_nat (length s) ->
  Z.of_nat (length (firstn (Z.to_nat (j - i)) (skipn (Z.to_nat i) s))) = j - i.
Proof.
  intros Hi Hj. rewrite length_firstn, length_skipn. lia.
Qed.

Lemma outside_app sps x : forall i y,
  outside_from sps i (x ++ y)
  = outside_from sps i x
    ++ outside_from sps (i + Z.of_nat (length x)) y.
Proof.
  induction x as [|c x IH]; intros i y.
  - simpl. rewrite Z.add_0_r. reflexivity.
  - cbn [app outside_from]. rewrite IH.
    replace (i + 1 + Z.of_nat (length x))
      with (i + Z.of_nat (length (c :: x))) by (simpl length; lia).
    destruct (covered sps i); reflexivity.
Qed.

Lemma outside_free sps x : forall i,
  (forall j, i <= j < i + Z.of_nat (length x) -> covered sps j = false) ->
  outside_from sps i x = x.
Proof.
  induction x as [|c x IH]; intros i H; [reflexivity|].
  cbn [outside_from]. rewrite H by (simpl length; lia).
  f_equal. apply IH. intros j Hj. apply H. simpl length. lia.
Qed.

Lemma outside_covered sps x : forall i,
  (forall j, i <= j < i + Z.of_nat (length x) -> covered sps j = true) ->
  outside_from sps i x = [].
Proof.
  induction x as [|c x IH]; intros i H; [reflexivity|].
  cbn [outside_from]. rewrite H by (simpl length; lia).
  apply IH. intros j Hj. apply H. simpl length. lia.
Qed.

Lemma outside_past p sps x : forall i,
  snd p < i -> outside_from (p :: sps) i x = outside_from sps i x.
Proof.
  induction x as [|c x IH]; intros i H; [reflexivity|].
  cbn [outside_from]. rewrite !IH by lia.
  assert (E : covered (p :: sps) i = covered sps i).
  { unfold covered. simpl.
    destruct (Z.leb_spec i (snd p)); [lia|]. rewrite andb_false_r.
    reflexivity. }
  rewrite E. reflexivity.
Qed.

Lemma combine_interleave sts : forall ens a b,
  In (a, b) (combine sts ens) -> In a (interleave sts ens).
Proof.
  induction sts as [|x sts IH]; intros [|y ens] a b H; simpl in *;
    try contradiction.
  destruct H as [[= <- <-]|H]; [left; reflexivity|].
  right. right. eapply IH. exact H.
Qed.

Lemma covered_before sps j :
  Forall (fun p => j < fst p) sps -> covered sps j = false.
Proof.
  induction 1 as [|p sps Hp Hl IH]; [reflexivity|].
  unfold covered in *. simpl. rewrite IH.
  destruct (Z.leb_spec (fst p) j); [lia | reflexivity].
Qed.

(** The pieces from the end [pe] of a template on are the characters after
    it that no later span covers, up to the limit [lim]. *)
Lemma pieces_outside (s : str) (lim : option Z) : forall sts ens pe,
  let L := match lim with Some l => l | None => Z.of_nat (length s) end in
  length sts = length ens ->
  -1 <= pe ->
  StronglySorted Z.lt (pe :: interleave sts ens) ->
  Forall (fun x => x < L) (pe :: interleave sts ens) ->
  L <= Z.of_nat (length s) ->
  concat (map (fun p => slice s (Some (snd p + 1)) (fst p))
            (zip (map Some sts ++ [lim]) (pe :: ens)))
  = outside_from (zip sts ens) (pe + 1) (slice s (Some (pe + 1)) lim).
Proof.
  intros sts ens pe L. revert ens pe.
  induction sts as [|a sts IH]; intros [|b ens] pe Hlen Hpe Hs HL HLs;
    try discriminate.
  - simpl. rewrite app_nil_r. symmetry. apply outside_free.
    intros; reflexivity.
  - inversion Hs as [|? ? Hs1 Hpe1]; subst.
    inversion HL as [|? ? HpeL HL1]; subst.
    cbn [interleave] in *.
    inversion Hs1 as [|? ? Hs2 Ha]; subst.
    inversion Hs2 as [|? ? Hs3 Hb]; subst.
    inversion Hpe1 as [|? ? Hpa _]; subst.
    inversion Ha as [|? ? Hab _]; subst.
    inversion HL1 as [|? ? HaL HL2]; subst.
    inversion HL2 as [|? ? HbL HL3]; subst.
    unfold zip in *. cbn [map app combine concat fst snd].
    rewrite (IH ens b) by
      (try (simpl in Hlen; lia); try lia; try assumption;
       constructor; assumption).
    fold L.
    rewrite (slice_between s (pe + 1) (Some a)) by (simpl; lia).
    rewrite (slice_between s (b + 1) lim) by (fold L; lia).
    rewrite (slice_between s (pe + 1) lim) by (fold L; lia).
    fold L.
    rewrite (between_split s (pe + 1) a L) by lia.
    rewrite (between_split s a (b + 1) L) by lia.
    rewrite !outside_app.
    rewrite !between_length by lia.
    replace (pe + 1 + (a - (pe + 1))) with a by lia.
    replace (a + (b + 1 - a)) with (b + 1) by lia.
    rewrite (outside_past (a, b) _ _ (b + 1)) by (simpl; lia).
    rewrite (outside_covered _ (firstn (Z.to_nat (b + 1 - a)) _) a).
    2: { intros j Hj. rewrite between_length in Hj by lia.
         unfold covered. simpl.
         destruct (Z.leb_spec a j); [|lia].
         destruct (Z.leb_spec j b); [reflexivity | lia]. }
    rewrite (outside_free _ (firstn (Z.to_nat (a - (pe + 1))) _) (pe + 1)).
    2: { intros j Hj. rewrite between_length in Hj by lia.
         apply covered_before. constructor; [simpl; lia|].
         apply Forall_forall. intros [x y] Hxy. simpl.
         apply combine_interleave in Hxy.
         rewrite Forall_forall in Hb. specialize (Hb x Hxy). lia. }
    reflexivity.
Qed.

Lemma combine_app_short {A B} (a c : list A) (b : list B) :
  length a = length b -> combine (a ++ c) b = combine a b.
Proof.
  revert b. induction a as [|x a IH]; intros [|y b] H; try discriminate.
  - destruct c; reflexivity.
  - simpl. rewrite IH by (simpl in H; lia). reflexivity.
Qed.

Lemma sorted_snoc_inv l x :
  StronglySorted Z.lt (l ++ [x]) ->
  StronglySorted Z.lt l /\ Forall (fun y => y < x) l.
Proof.
  induction l as [|a l IH]; intros H; [split; constructor|].
  simpl in H. inversion H as [|? ? Hs Ha]; subst.
  destruct (IH Hs) as [Hl Hx]. apply Forall_app in Ha. destruct Ha as [Ha Hax].
  split; constructor; try assumption. inversion Hax; assumption.
Qed.

Lemma sorted_from_minus_one l :
  StronglySorted Z.lt l -> Forall (fun x => 0 <= x) l ->
  StronglySorted Z.lt (-1 :: l).
Proof.
  intros Hs Hb. constructor; [exact Hs|].
  eapply Forall_impl; [|exact Hb]. simpl. intros; lia.
Qed.

(** When no template of the text is a citation or a quote, the rewriter
    returns the characters that lie in none of the template spans, in their
    order and with nothing put in their place.  When the text ends inside a
    template that is never closed, these are the characters outside the
    spans of the text up to the opening braces of that template: what
    follows them is dropped as well. *)
Theorem rewriter_deletes_plain_templates :
  forall s set_citation quote_identifier text_identifier,
  Forall (fun template => is_cn template set_citation = false
                          /\ is_quote template quote_identifier = false)
         (templates s (starts (scan s)) (ends (scan s))) ->
  replace_citation_templates s set_citation quote_identifier text_identifier
  = outside_from (spans s) 0 (closed_part s).
Proof.
  intros s cs q t H. rewrite rewrite_plain by exact H.
  unfold pieces, spans, closed_part.
  destruct (scan_ok_scan s) as [Hs [Hb [_ Hrest]]].
  destruct (in_template (scan s)).
  - destruct Hrest as [Hlen _].
    destruct (starts (scan s)) as [|a0 sts'] eqn:Est; [discriminate|].
    destruct (exists_last (l := a0 :: sts') ltac:(discriminate))
      as [sts0 [l E]].
    rewrite E in *. clear E a0 sts' Est.
    rewrite length_app in Hlen. simpl in Hlen.
    assert (Hlen0 : length sts0 = length (ends (scan s))) by lia.
    rewrite interleave_start in Hs, Hb by exact Hlen0.
    apply sorted_snoc_inv in Hs. destruct Hs as [Hs Hl].
    apply Forall_app in Hb. destruct Hb as [Hb Hlb].
    inversion Hlb as [|? ? Hl0 _]; subst.
    rewrite last_last, map_app. unfold zip.
    rewrite (combine_app_short (map Some sts0 ++ map Some [l]) [None])
      by (rewrite length_app, length_map; simpl; lia).
    rewrite (combine_app_short sts0 [l]) by exact Hlen0.
    pose proof (pieces_outside s (Some l) sts0 (ends (scan s)) (-1)) as P.
    unfold zip in P. simpl map. rewrite P; clear P.
    + change (-1 + 1) with 0.
      rewrite (slice_between s 0 (Some l)) by (simpl; lia).
      rewrite Z.sub_0_r. reflexivity.
    + exact Hlen0.
    + lia.
    + apply sorted_from_minus_one; [exact Hs|].
      eapply Forall_impl; [|exact Hb]. simpl. intros; lia.
    + constructor; [lia | exact Hl].
    + lia.
  - destruct Hrest as [Hlen _].
    pose proof (pieces_outside s None (starts (scan s)) (ends (scan s)) (-1))
      as P.
    unfold zip in *. rewrite P; clear P.
    + change (-1 + 1) with 0. rewrite slice_all. reflexivity.
    + exact Hlen.
    + lia.
    + apply sorted_from_minus_one; [exact Hs|].
      eapply Forall_impl; [|exact Hb]. simpl. intros; lia.
    + constructor; [lia|].
      eapply Forall_impl; [|exact Hb]. simpl. intros; lia.
    + lia.
Qed.

Lemma rewriter_deletes_plain_templates_witness :
  replace_citation_templates (lit "a {{x|{{y}}}} b{{z}} c{{d") [lit "cn"]
    (lit "quote") (lit "text")
  = outside_from (spans (lit "a {{x|{{y}}}} b{{z}} c{{d")) 0
      (closed_part (lit "a {{x|{{y}}}} b{{z}} c{{d")).
Proof.
  apply (rewriter_deletes_plain_templates (lit "a {{x|{{y}}}} b{{z}} c{{d")
           [lit "cn"] (lit "quote") (lit "text")).
  vm_compute. repeat constructor.
Defined.

Example rewriter_plain_run :
  spans (lit "a {{x|{{y}}}} b{{z}} c{{d") = [(2, 12); (15, 19)]
  /\ closed_part (lit "a {{x|{{y}}}} b{{z}} c{{d") = lit "a {{x|{{y}}}} b{{z}} c"
  /\ outside_from [(2, 12); (15, 19)] 0 (lit "a {{x|{{y}}}} b{{z}} c")
     = lit "a  b c"
  /\ replace_citation_templates (lit "a {{x|{{y}}}} b{{z}} c{{d") [lit "cn"]
       (lit "quote") (lit "text") = lit "a  b c".
Proof. repeat split; reflexivity. Qed.

End PlainTemplates.

(** ** The best paragraph and the sites kept *)

Section BestParagraph.

Import Num Tokens Bing Sites.
Local Open Scope Q_scope.

Variable sqrt : Q -> Q.
Hypothesis sqrt_pos : forall x, 0 < x -> 0 < sqrt x.
Variable urlopen : str -> exn + (str * str).
Variable justext : str -> exn + list str.
Variables (article_text claim_text : str).

Lemma compare_paragraphs_best dictionary paragraphs : forall st,
  exists st',
    compare_paragraphs sqrt dictionary
      (doc2bow dictionary (tokenize_lower claim_text)) st paragraphs = Ok st'
    /\ snd st <= snd st'
    /\ (forall p q, In p paragraphs ->
          paragraph_similarity sqrt claim_text dictionary p = Ok q ->
          q <= snd st')
    /\ (st' = st
        \/ In (fst st') paragraphs
           /\ paragraph_similarity sqrt claim_text dictionary (fst st')
              = Ok (snd st')).
Proof.
  induction paragraphs as [|p ps IH]; intros st.
  - exists st. split; [reflexivity|]. split; [apply Qle_refl|].
    split; [intros ? ? []|]. left. reflexivity.
  - simpl compare_paragraphs. unfold compare_paragraph.
    destruct (cossim_ok sqrt sqrt_pos (doc2bow dictionary (tokenize_lower p))
                (doc2bow dictionary (tokenize_lower claim_text)))
      as [q Hq]; try apply doc2bow_positive.
    rewrite Hq. cbv beta iota delta [bind].
    set (st1 := if Qltb (snd st) q then (p, q) else st).
    assert (H1 : snd st <= snd st1 /\ q <= snd st1).
    { unfold st1. destruct (Qltb (snd st) q) eqn:E; simpl.
      - apply Qltb_lt in E. split; [apply Qlt_le_weak, E | apply Qle_refl].
      - apply Qltb_ge in E. split; [apply Qle_refl | exact E]. }
    destruct (IH st1) as [st' [Hrun [Hmono [Hmax Hfrom]]]].
    exists st'. split; [exact Hrun|].
    split; [eapply Qle_trans; [apply H1 | exact Hmono]|]. split.
    + intros p' q' [<-|Hin] Hsim.
      * unfold paragraph_similarity in Hsim. rewrite Hq in Hsim.
        injection Hsim as <-. eapply Qle_trans; [apply H1 | exact Hmono].
      * apply (Hmax p' q' Hin Hsim).
    + destruct Hfrom as [->|[Hin Hsim]].
      * unfold st1. destruct (Qltb (snd st) q); [|left; reflexivity].
        right. simpl. split; [left; reflexivity | exact Hq].
      * right. split; [right; exact Hin | exact Hsim].
Qed.

(** The loop of [__compare_site] over the paragraphs ends with the greatest
    similarity to the claim found, or 0 when none is positive, and with a
    paragraph that has exactly this similarity, or the empty string when no
    paragraph has a positive one. *)
Theorem compare_paragraphs_keeps_the_best : forall dictionary paragraphs,
  exists similar_paragraph max_similarity,
    compare_paragraphs sqrt dictionary
      (doc2bow dictionary (tokenize_lower claim_text)) ([], 0) paragraphs
    = Ok (similar_paragraph, max_similarity)
    /\ 0 <= max_similarity
    /\ (forall p q, In p paragraphs ->
          paragraph_similarity sqrt claim_text dictionary p = Ok q ->
          q <= max_similarity)
    /\ ((similar_paragraph = [] /\ max_similarity = 0)
        \/ In similar_paragraph paragraphs
           /\ paragraph_similarity sqrt claim_text dictionary
                similar_paragraph = Ok max_similarity).
Proof.
  intros dictionary paragraphs.
  destruct (compare_paragraphs_best dictionary paragraphs ([], 0))
    as [[sp ms] [Hrun [Hmono [Hmax Hfrom]]]].
  exists sp, ms. split; [exact Hrun|]. split; [exact Hmono|].
  split; [exact Hmax|].
  destruct Hfrom as [[= -> ->]|H]; [left; split; reflexivity | right; exact H].
Qed.

Lemma compare_site_outcome w :
  (reachable urlopen justext w = true ->
   exists t, __compare_site sqrt urlopen justext article_text claim_text (url w)
             = Ok (Some t))
  /\ (reachable urlopen justext w = false ->
      __compare_site sqrt urlopen justext article_text claim_text (url w)
      = Ok None).
Proof.
  unfold reachable, __compare_site.
  destruct (urlopen (url w)) as [e|[actual_url page]];
    [split; [discriminate | reflexivity]|].
  destruct (justext page) as [e|paragraphs];
    [split; [discriminate | reflexivity]|].
  split; [intros _ | discriminate].
  set (dictionary := Dictionary _).
  destruct (cossim_ok sqrt sqrt_pos
              (doc2bow dictionary
                 (tokenize_lower (join [Wiki.newline] paragraphs)))
              (doc2bow dictionary (tokenize_lower article_text)))
    as [ps Hps]; try apply doc2bow_positive.
  rewrite Hps. cbv beta iota delta [bind].
  destruct (compare_paragraphs_ok sqrt sqrt_pos dictionary
              (tokenize_lower claim_text) paragraphs ([], 0)) as [st Hst].
  rewrite Hst. eexists. reflexivity.
Qed.

(** [valid_sites] is never cut short by an exception: it has one entry for
    each response site whose page could be fetched and extracted, in the
    order of the response and with the name and the snippet of that site,
    and no entry for the others. *)
Theorem valid_sites_are_the_reachable_sites : forall response_sites,
  exists found,
    valid_sites sqrt urlopen justext article_text claim_text response_sites
    = Ok found
    /\ map (fun v => (snd (fst (fst v)), snd (fst v))) found
       = map (fun w => (name w, snippet w))
           (filter (reachable urlopen justext) response_sites).
Proof.
  induction response_sites as [|w rest IH].
  - exists []. split; reflexivity.
  - destruct IH as [found [Hrest Hmap]]. simpl valid_sites. rewrite Hrest.
    destruct (compare_site_outcome w) as [Hyes Hno]. simpl filter.
    destruct (reachable urlopen justext w).
    + destruct (Hyes eq_refl) as [t ->]. cbv beta iota delta [bind].
      eexists. split; [reflexivity|]. simpl. rewrite Hmap. reflexivity.
    + rewrite (Hno eq_refl). cbv beta iota delta [bind].
      exists found. split; [reflexivity | exact Hmap].
Qed.

End BestParagraph.

Lemma compare_paragraphs_keeps_the_best_witness :
  exists similar_paragraph max_similarity,
    Bing.compare_paragraphs Bing.sqrt_any [lit "green"; lit "tea"; lit "red"]
      (Bing.doc2bow [lit "green"; lit "tea"; lit "red"]
         (Tokens.tokenize_lower (lit "Green tea")))
      ([], 0%Q) [lit "Red wine"; lit "Tea"]
    = Ok (similar_paragraph, max_similarity)
    /\ (0 <= max_similarity)%Q
    /\ (forall p q, In p [lit "Red wine"; lit "Tea"] ->
          Sites.paragraph_similarity Bing.sqrt_any (lit "Green tea")
            [lit "green"; lit "tea"; lit "red"] p = Ok q ->
          (q <= max_similarity)%Q)
    /\ ((similar_paragraph = [] /\ max_similarity = 0%Q)
        \/ In similar_paragraph [lit "Red wine"; lit "Tea"]
           /\ Sites.paragraph_similarity Bing.sqrt_any (lit "Green tea")
                [lit "green"; lit "tea"; lit "red"] similar_paragraph
              = Ok max_similarity).
Proof.
  apply (compare_paragraphs_keeps_the_best Bing.sqrt_any (fun x H => H)).
Defined.

Lemma valid_sites_are_the_reachable_sites_witness :
  exists found,
    Sites.valid_sites Bing.sqrt_any Bing.one_page Bing.lines_extractor
      (lit "Tea. Green tea is old.") (lit "Green tea")
      [Sites.mkSite (lit "http://c.example") (lit "C") (lit "c");
       Sites.mkSite (lit "http://a.example") (lit "A") (lit "a")]
    = Ok found
    /\ map (fun v => (snd (fst (fst v)), snd (fst v))) found
       = [(lit "A", lit "a")].
Proof.
  apply (valid_sites_are_the_reachable_sites Bing.sqrt_any (fun x H => H)
           Bing.one_page Bing.lines_extractor (lit "Tea. Green tea is old.")
           (lit "Green tea")
           [Sites.mkSite (lit "http://c.example") (lit "C") (lit "c");
            Sites.mkSite (lit "http://a.example") (lit "A") (lit "a")]).
Defined.

(** ** The quote text has no white space around it *)

Section QuoteMargins.

Import Wiki.

Lemma lstrip_head s :
  match lstrip s with
  | c :: _ => is_space c = false
  | [] => True
  end.
Proof.
  induction s as [|c s IH]; simpl; [exact I|].
  destruct (is_space c) eqn:E; [exact IH | exact E].
Qed.

Lemma lstrip_suffix s : exists a, s = a ++ lstrip s.
Proof.
  induction s as [|c s [a IH]]; simpl.
  - exists []. reflexivity.
  - destruct (is_space c).
    + exists (c :: a). simpl. f_equal. exact IH.
    + exists []. reflexivity.
Qed.

(** What [strip] returns neither begins nor ends with white space. *)
Lemma strip_margins s :
  match strip s with
  | c :: _ => is_space c = false
  | [] => True
  end
  /\ match rev (strip s) with
     | c :: _ => is_space c = false
     | [] => True
     end.
Proof.
  unfold strip, rstrip. split.
  - pose proof (lstrip_head s) as Hh.
    destruct (lstrip_suffix (rev (lstrip s))) as [a Ha].
    apply (f_equal (@rev ascii)) in Ha.
    rewrite rev_involutive, rev_app_distr in Ha.
    destruct (rev (lstrip (rev (lstrip s)))) as [|c r]; [exact I|].
    rewrite Ha in Hh. exact Hh.
  - rewrite rev_involutive. apply lstrip_head.
Qed.

Lemma quote_fold_stripped sep parts : forall q0,
  (q0 = [] \/ exists x, q0 = strip x) ->
  let q := fold_left
             (fun quote part =>
                if contains sep part
                then strip (nth 1 (split sep part) [])
                else quote)
             parts q0 in
  q = [] \/ exists x, q = strip x.
Proof.
  induction parts as [|p ps IH]; intros q0 H; simpl; [exact H|].
  apply IH. destruct (contains sep p); [right; eexists; reflexivity | exact H].
Qed.

(** The quote text [get_quote] returns never begins and never ends with a
    white-space character, whether it is the value of the text parameter or
    the fallback. *)
Theorem get_quote_has_no_margin : forall template text_identifier,
  match get_quote template text_identifier with
  | c :: _ => is_space c = false
  | [] => True
  end
  /\ match rev (get_quote template text_identifier) with
     | c :: _ => is_space c = false
     | [] => True
     end.
Proof.
  intros template text_identifier.
  assert (H : exists x, get_quote template text_identifier = strip x).
  { unfold get_quote.
    destruct (quote_fold_stripped (text_identifier ++ lit "=")
                (split (lit "|") (lower template)) [] (or_introl eq_refl))
      as [E|[x E]]; fold (quote_of_parts (text_identifier ++ lit "=")
                            (split (lit "|") (lower template))) in E.
    - rewrite E. eexists. reflexivity.
    - destruct (quote_of_parts _ _) eqn:Eq; [eexists; reflexivity|].
      exists x. exact E. }
  destruct H as [x ->]. apply strip_margins.
Qed.

Example get_quote_margins :
  get_quote (lit "{{Quote|text=  Hello World  |author=Me}}") (lit "text")
  = lit "hello world".
Proof. reflexivity. Qed.

End QuoteMargins.

(** ** The identifiers of the claims of an article *)

Section ClaimIds.

Import Report.

Lemma str_of_nat_inj i j : str_of_nat i = str_of_nat j -> i = j.
Proof.
  unfold str_of_nat. intros H.
  apply (f_equal string_of_list_ascii) in H.
  rewrite !string_of_list_ascii_of_string in H.
  apply (f_equal NilEmpty.uint_of_string) in H.
  rewrite !NilEmpty.usu in H. injection H as H.
  apply Unsigned.to_uint_inj. exact H.
Qed.

Lemma number_claims_ids article_id_ cs : forall i,
  map claim_id (number_claims article_id_ i cs)
  = map (fun k => article_id_ ++ lit "-" ++ str_of_nat k) (seq i (length cs)).
Proof.
  induction cs as [|c cs IH]; intros i; [reflexivity|].
  simpl. f_equal. rewrite IH. replace (i + 1)%nat with (S i) by lia.
  reflexivity.
Qed.

(** [ArticleResponse] gives the claims of an article the identifiers
    [article_id-0], [article_id-1], ... in their order; the identifiers are
    pairwise different, and the texts, links and sites of the claims are
    left as they were. *)
Theorem claim_ids_are_distinct : forall article_id_ article_title_ responses,
  let a := new_ArticleResponse article_id_ article_title_ responses in
  map claim_id (claims a)
  = map (fun k => article_id_ ++ lit "-" ++ str_of_nat k)
      (seq 0 (length responses))
  /\ NoDup (map claim_id (claims a))
  /\ map claim_text (claims a) = map claim_text responses
  /\ map google_link (claims a) = map google_link responses
  /\ map valid_sites (claims a) = map valid_sites responses.
Proof.
  intros aid title_ rs. simpl.
  assert (Hfields : forall i,
    map claim_text (number_claims aid i rs) = map claim_text rs
    /\ map google_link (number_claims aid i rs) = map google_link rs
    /\ map valid_sites (number_claims aid i rs) = map valid_sites rs).
  { induction rs as [|r rs IH]; intros i; [repeat split|].
    destruct (IH (i + 1)%nat) as [H1 [H2 H3]]. simpl.
    rewrite H1, H2, H3. repeat split. }
  split; [apply number_claims_ids|]. split; [|apply Hfields].
  rewrite number_claims_ids. apply Finite.Injective_map_NoDup.
  - intros i j H. apply app_inv_head in H. apply app_inv_head in H.
    apply str_of_nat_inj, H.
  - apply seq_NoDup.
Qed.

Example claim_ids_run :
  map claim_id
    (claims (new_ArticleResponse (lit "42") (lit "Tea")
               [mkResponses (lit "a") (lit "-") [] [];
                mkResponses (lit "b") (lit "-") [] []]))
  = [lit "42-0"; lit "42-1"].
Proof. reflexivity. Qed.

End ClaimIds.

(** ** The root domain *)

Section RootDomain.

Import Urls.

Lemma join_app_suffix sep (X Y : list str) :
  Y <> [] -> exists prefix, join sep (X ++ Y) = prefix ++ join sep Y.
Proof.
  intros HY. induction X as [|x X [prefix IH]].
  - exists []. reflexivity.
  - simpl app. rewrite join_cons by (destruct X; [exact HY | discriminate]).
    rewrite IH. exists (x ++ sep ++ prefix). rewrite <- !app_assoc.
    reflexivity.
Qed.

Lemma getitem_app_tail {A} (front tail_ : list A) k :
  getitem (front ++ tail_) (length front + k) = getitem tail_ k.
Proof.
  unfold getitem. rewrite nth_error_app2 by lia.
  replace (length front + k - length front)%nat with k by lia. reflexivity.
Qed.

(** Whenever the host name of a URL is found, [_extract_root_domain]
    returns a domain that the host name ends with and that has at most three
    labels; a host name of one or two labels is returned as it is. *)
Theorem root_domain_is_a_suffix_of_the_host : forall url hostname,
  _extract_hostname url = Ok hostname ->
  exists domain,
    _extract_root_domain url = Ok domain
    /\ (exists prefix, hostname = prefix ++ domain)
    /\ (length (split (lit ".") domain) <= 3)%nat
    /\ ((length (split (lit ".") hostname) <= 2)%nat -> domain = hostname).
Proof.
  intros url hostname H. unfold _extract_root_domain. rewrite H.
  cbv beta iota delta [bind]. change (lit ".") with ["."%char].
  pose proof (split_char_free "."%char hostname) as Hfree.
  pose proof (join_split "."%char hostname) as Hjoin.
  remember (split ["."%char] hostname) as labels eqn:Elab.
  destruct (Z.gtb_spec (Z.of_nat (length labels)) 2) as [Hlong|Hshort].
  - destruct (rev labels) as [|b [|a r]] eqn:Er;
      try (apply (f_equal (@length str)) in Er; rewrite length_rev in Er;
           simpl in Er; lia).
    assert (Hl : labels = rev r ++ [a; b]).
    { rewrite <- (rev_involutive labels), Er. simpl.
      rewrite <- app_assoc. reflexivity. }
    clear Elab Er. subst labels.
    assert (Hab : Forall (fun p => ~ In "."%char p) [a; b])
      by (apply Forall_app in Hfree; tauto).
    replace (length (rev r ++ [a; b]) - 2)%nat with (length (rev r) + 0)%nat
      by (rewrite length_app; simpl; lia).
    replace (length (rev r ++ [a; b]) - 1)%nat with (length (rev r) + 1)%nat
      by (rewrite length_app; simpl; lia).
    rewrite !getitem_app_tail.
    change (getitem [a; b] 0) with (Ok a).
    change (getitem [a; b] 1) with (Ok b). cbv beta iota.
    destruct (Z.eqb_spec (Z.of_nat (length b)) 2) as [Hcc|Hcc]; simpl andb;
      cbv iota.
    + destruct r as [|c r'].
      { simpl in Hlong. lia. }
      simpl rev in *. rewrite <- app_assoc in *. simpl app in *.
      replace (length (rev r' ++ [c; a; b]) - 3)%nat
        with (length (rev r') + 0)%nat
        by (rewrite length_app; simpl; lia).
      rewrite getitem_app_tail.
      change (getitem [c; a; b] 0) with (Ok c). cbv beta iota.
      exists (c ++ ["."%char] ++ a ++ ["."%char] ++ b).
      split; [reflexivity|]. split; [|split].
      * destruct (join_app_suffix ["."%char] (rev r') [c; a; b]
                    ltac:(discriminate)) as [prefix Hp].
        exists prefix. rewrite <- Hjoin, Hp. reflexivity.
      * change (c ++ ["."%char] ++ a ++ ["."%char] ++ b)
          with (join ["."%char] [c; a; b]).
        rewrite split_join; [simpl; lia | discriminate|].
        apply Forall_app in Hfree. tauto.
      * intros Hle. rewrite length_app in Hle, Hlong. simpl in Hle, Hlong. lia.
    + exists (a ++ ["."%char] ++ b).
      split; [reflexivity|]. split; [|split].
      * destruct (join_app_suffix ["."%char] (rev r) [a; b]
                    ltac:(discriminate)) as [prefix Hp].
        exists prefix. rewrite <- Hjoin, Hp. reflexivity.
      * change (a ++ ["."%char] ++ b) with (join ["."%char] [a; b]).
        rewrite split_join; [simpl; lia | discriminate | exact Hab].
      * intros Hle. rewrite length_app in Hle, Hlong. simpl in Hle, Hlong. lia.
  - exists hostname. split; [reflexivity|].
    split; [exists []; reflexivity|].
    split; [rewrite <- Elab; lia | reflexivity].
Qed.

Lemma root_domain_is_a_suffix_of_the_host_witness :
  exists domain,
    _extract_root_domain (lit "http://www.bbc.co.uk/news") = Ok domain
    /\ (exists prefix, lit "www.bbc.co.uk" = prefix ++ domain)
    /\ (length (split (lit ".") domain) <= 3)%nat
    /\ ((length (split (lit ".") (lit "www.bbc.co.uk")) <= 2)%nat ->
        domain = lit "www.bbc.co.uk").
Proof.
  apply (root_domain_is_a_suffix_of_the_host (lit "http://www.bbc.co.uk/news")).
  reflexivity.
Defined.

End RootDomain.

(** ** Equal scores, in exact arithmetic *)

Section EqualScores.

Import Num Cutoff.
Local Open Scope Q_scope.

Lemma insert_sorted_Forall (P : Q -> Prop) x l :
  P x -> Forall P l -> Forall P (insert_sorted x l).
Proof.
  intros Hx. induction 1 as [|y l Hy Hl IH]; simpl.
  - repeat constructor. exact Hx.
  - destruct (Qle_bool x y); repeat constructor; auto.
Qed.

Lemma sorted_Forall (P : Q -> Prop) l : Forall P l -> Forall P (sorted l).
Proof.
  induction 1 as [|x l Hx Hl IH]; [constructor|].
  apply insert_sorted_Forall; assumption.
Qed.

Lemma insert_sorted_length x l : length (insert_sorted x l) = S (length l).
Proof.
  induction l as [|y l IH]; simpl; [reflexivity|].
  destruct (Qle_bool x y); simpl; [reflexivity | rewrite IH; reflexivity].
Qed.

Lemma sorted_length l : length (sorted l) = length l.
Proof.
  induction l as [|x l IH]; [reflexivity|].
  change (sorted (x :: l)) with (insert_sorted x (sorted l)).
  rewrite insert_sorted_length, IH. reflexivity.
Qed.

Lemma nth_Forall_eq (l : list Q) v k :
  Forall (fun x => x == v) l -> (k < length l)%nat -> nth k l 0 == v.
Proof.
  intros H. revert k. induction H as [|x l Hx Hl IH]; intros k Hk.
  - simpl in Hk. lia.
  - destruct k as [|k]; simpl; [exact Hx|]. apply IH. simpl in Hk. lia.
Qed.

(** Every percentile of a list of equal scores is that score. *)
Lemma percentile_value_constant l v q :
  l <> [] -> Forall (fun x => x == v) l -> (0 <= q <= 100)%Z ->
  percentile_value l q == v.
Proof.
  intros Hne Hall Hq. unfold percentile_value.
  rewrite sorted_length.
  set (n := Z.of_nat (length l)).
  assert (Hn : (1 <= n)%Z) by (unfold n; destruct l; [contradiction | simpl; lia]).
  set (index := inject_Z q / 100 * inject_Z (n - 1)).
  assert (Hq0 : 0 <= inject_Z q) by (change 0 with (inject_Z 0);
                                     rewrite <- Zle_Qle; lia).
  assert (Hq1 : inject_Z q <= 100) by (change 100 with (inject_Z 100);
                                       rewrite <- Zle_Qle; lia).
  assert (Hn0 : 0 <= inject_Z (n - 1)) by (change 0 with (inject_Z 0);
                                           rewrite <- Zle_Qle; lia).
  assert (Hi0 : 0 <= index).
  { unfold index. apply Qmult_le_0_compat; [|exact Hn0].
    apply Qle_shift_div_l; [reflexivity | lra]. }
  assert (Hi1 : index <= inject_Z (n - 1)).
  { unfold index.
    setoid_replace (inject_Z (n - 1)) with (1 * inject_Z (n - 1)) at 2 by ring.
    apply Qmult_le_compat_r; [|exact Hn0].
    apply Qle_shift_div_r; [reflexivity | lra]. }
  assert (Hb0 : (0 <= Qfloor index)%Z).
  { change 0%Z with (Qfloor 0). apply Qfloor_resp_le, Hi0. }
  assert (Hb1 : (Qfloor index <= n - 1)%Z).
  { rewrite <- (Qfloor_Z (n - 1)). apply Qfloor_resp_le, Hi1. }
  assert (Hx : nth (Z.to_nat (Qfloor index)) (sorted l) 0 == v).
  { apply nth_Forall_eq; [apply sorted_Forall, Hall|].
    rewrite sorted_length. unfold n in Hb1. lia. }
  assert (Hy : nth (Z.to_nat (Z.min (Qfloor index + 1) (n - 1))) (sorted l) 0
               == v).
  { apply nth_Forall_eq; [apply sorted_Forall, Hall|].
    rewrite sorted_length. unfold n in *. lia. }
  rewrite Hx, Hy. ring.
Qed.

Lemma delta_constant l v p :
  l <> [] -> Forall (fun x => x == v) l -> (0 <= p <= 90)%Z ->
  delta l p == 0.
Proof.
  intros Hne Hall Hp. unfold delta.
  rewrite !(percentile_value_constant l v) by (assumption || lia). ring.
Qed.

Lemma steepest_bucket_constant l v :
  l <> [] -> Forall (fun x => x == v) l -> steepest_bucket l = 0%Z.
Proof.
  intros Hne Hall. unfold steepest_bucket.
  assert (HM : max_delta l == 0).
  { unfold max_delta.
    destruct (fold_qmax_in (map (delta l) buckets_descending) 0) as [H|H].
    - rewrite H. reflexivity.
    - apply in_map_iff in H. destruct H as [p [<- Hp]].
      apply (delta_constant l v); [assumption | assumption|].
      unfold buckets_descending in Hp. simpl in Hp.
      repeat (destruct Hp as [<-|Hp]; [lia|]). contradiction. }
  assert (E : Qltb 0 (max_delta l) = false)
    by (apply Qltb_ge; rewrite HM; apply Qle_refl).
  rewrite E. reflexivity.
Qed.

End EqualScores.

(** ** A dictionary that knows none of the tokens *)

Section UnknownTokens.

Import Num Cutoff Tokens Sentences Segmenter Query TokenTables.
Local Open Scope Q_scope.

Variable log : Q -> Q -> Q.

Lemma scores_shape c dictionary article_count toks tfidfs :
  is_ascii (text c) = true ->
  scores log c dictionary article_count = Ok (toks, tfidfs) ->
  NoDup toks
  /\ exists tfs,
       length tfs = length toks
       /\ tfidfs = __normalize
                     (map (fun p => fst p * snd p)
                        (combine tfs
                           (__get_idfs log toks dictionary article_count))).
Proof.
  intros Hascii. unfold scores, __get_tokens_with_tfs.
  destruct (weight_loop 3 (_split_in_sents (text c)) 1 (mkTf [] [] []))
    as [st| |] eqn:Hw; simpl; try discriminate.
  pose proof (final_tables_ok (ctype c) (_split_in_sents (text c))
                (article_text c) st Hw) as [_ [Hlw Hlt]].
  pose proof (final_tokens_ok (ctype c) (_split_in_sents (text c))
                (article_text c) st (split_in_sents_ascii _ Hascii) Hw)
    as [Hnd _].
  intros [= <- <-]. split; [exact Hnd|].
  eexists. split; [|reflexivity].
  rewrite normalize_length, length_map, length_combine. lia.
Qed.

Lemma sum_all_zero l : Forall (fun x => x == 0) l -> sum l == 0.
Proof.
  induction 1 as [|x l Hx Hl IH]; [reflexivity|].
  rewrite sum_cons, Hx, IH. ring.
Qed.

Lemma normalize_all_zero l : Forall (fun x => x == 0) l -> __normalize l = l.
Proof.
  intros H. unfold __normalize.
  assert (E : Qeq_bool (sum l) 0 = true)
    by (apply Qeq_bool_iff, sum_all_zero, H).
  rewrite E. reflexivity.
Qed.

Lemma products_with_zero_idfs (tfs : list Q) : forall (toks : list str),
  Forall (fun x => x == 0)
    (map (fun p => fst p * snd p) (combine tfs (map (fun _ => 0) toks))).
Proof.
  induction tfs as [|x tfs IH]; intros [|t toks]; simpl; constructor.
  - ring.
  - apply IH.
Qed.

Lemma sort_desc_equal_keys (l : list (str * Q)) v :
  Forall (fun p => snd p == v) l -> sort_desc l = l.
Proof.
  induction 1 as [|x l Hx Hl IH]; [reflexivity|].
  change (sort_desc (x :: l)) with (insert_desc x (sort_desc l)).
  rewrite IH. destruct Hl as [|y l' Hy Hl']; [reflexivity|].
  simpl. assert (E : Qltb (snd x) (snd y) = false)
    by (apply Qltb_ge; rewrite Hx, Hy; apply Qle_refl).
  rewrite E. reflexivity.
Qed.

Lemma combine_keys (toks : list str) : forall (tfs : list Q) (P : Q -> Prop),
  Forall P tfs -> Forall (fun p => P (snd p)) (combine toks tfs).
Proof.
  induction toks as [|t toks IH]; intros tfs P H; [constructor|].
  destruct H as [|x tfs Hx Hrest]; simpl; constructor; auto.
Qed.

Lemma select_takes_all perc (toks : list str) : forall (tfs : list Q) prequery,
  length tfs = length toks ->
  Forall (fun q => Qle_bool perc q = true) tfs ->
  NoDup (prequery ++ toks) -> (length prequery < 10)%nat ->
  select perc prequery (combine toks tfs) = firstn 10 (prequery ++ toks).
Proof.
  induction toks as [|t toks IH]; intros tfs pre Hlen Hall Hnd Hpre.
  - change (combine [] tfs) with (@nil (str * Q)). cbn [select].
    rewrite app_nil_r. symmetry. apply firstn_all2. lia.
  - destruct tfs as [|q tfs]; [discriminate|].
    inversion Hall as [|? ? Hq Hrest]; subst. simpl select. rewrite Hq.
    assert (Hadd : set_add t pre = pre ++ [t]).
    { unfold set_add. assert (E : mem t pre = false).
      { apply mem_false. intros Hin. apply NoDup_remove_2 in Hnd.
        apply Hnd. apply in_or_app. left. exact Hin. }
      rewrite E. reflexivity. }
    rewrite Hadd.
    replace (pre ++ t :: toks) with ((pre ++ [t]) ++ toks)
      by (rewrite <- app_assoc; reflexivity).
    destruct (Z.geb_spec (Z.of_nat (length (pre ++ [t]))) 10) as [Hfull|Hroom].
    + rewrite length_app in Hfull. simpl in Hfull.
      replace 10%nat with (length (pre ++ [t]) + 0)%nat
        by (rewrite length_app; simpl; lia).
      rewrite firstn_app_2. simpl. rewrite app_nil_r. reflexivity.
    + apply IH.
      * simpl in Hlen. lia.
      * exact Hrest.
      * rewrite <- app_assoc. exact Hnd.
      * lia.
Qed.

Lemma filter_mem_firstn (l : list str) : forall n,
  NoDup l -> filter (fun t => mem t (firstn n l)) l = firstn n l.
Proof.
  induction l as [|x l IH]; intros n Hnd; [destruct n; reflexivity|].
  inversion Hnd as [|? ? Hx Hl]; subst. destruct n as [|n].
  - simpl. apply mem_false in Hx.
    clear. induction l as [|y l IH]; [reflexivity | exact IH].
  - cbn [firstn filter].
    assert (E : mem x (x :: firstn n l) = true)
      by (apply mem_In; left; reflexivity).
    rewrite E. f_equal. etransitivity; [|apply (IH n Hl)].
    apply filter_ext_in. intros t Ht. unfold mem. simpl.
    assert (Hne : str_eqb t x = false).
    { apply str_eqb_false. intros ->. contradiction. }
    rewrite Hne. reflexivity.
Qed.

(** For a claim whose text is in the ASCII range: when the dictionary knows
    none of the tokens, every score is 0 whatever the logarithms are, and a
    query that is produced holds, after the title tokens that are not among
    them, the first tokens in the order in which [__get_tokens_with_tfs]
    stored them, which reads the last sentence of the claim first: the
    first 10 at most, cut to 7 when there are more than 8. *)
Theorem unknown_tokens_give_the_first_tokens :
  forall c dictionary article_count query,
  is_ascii (text c) = true ->
  (forall t, token2id dictionary t = None) ->
  get_query_tokens log c dictionary article_count = Ok query ->
  exists toks tfidfs,
    scores log c dictionary article_count = Ok (toks, tfidfs)
    /\ toks <> []
    /\ Forall (fun x => x == 0) tfidfs
    /\ query = title_front (title c) (truncate (firstn 10 toks))
               ++ truncate (firstn 10 toks).
Proof.
  intros c dictionary article_count query Hascii Hdict H.
  unfold get_query_tokens in H.
  destruct (scores log c dictionary article_count) as [[toks tfidfs]| |] eqn:Es;
    simpl in H; try discriminate.
  destruct (scores_shape _ _ _ _ _ Hascii Es) as [Hnd [tfs [Hlen Htf]]].
  assert (Hidf : __get_idfs log toks dictionary article_count
                 = map (fun _ => 0) toks).
  { unfold __get_idfs. apply map_ext. intros t. unfold idf.
    rewrite Hdict. reflexivity. }
  rewrite Hidf in Htf.
  pose proof (products_with_zero_idfs tfs toks) as Hzero.
  rewrite normalize_all_zero in Htf by exact Hzero.
  assert (Hall : Forall (fun x => x == 0) tfidfs) by (rewrite Htf; exact Hzero).
  assert (Hlen' : length tfidfs = length toks).
  { rewrite Htf, length_map, length_combine, length_map. lia. }
  destruct tfidfs as [|x0 rest0] eqn:Etf; [discriminate|]. rewrite <- Etf in *.
  assert (Hne : tfidfs <> []) by (rewrite Etf; discriminate).
  rewrite get_cutoff_value in H by exact Hne.
  rewrite (steepest_bucket_constant tfidfs 0) in H by assumption.
  cbv beta iota delta [bind] in H.
  assert (Hperc : percentile tfidfs 0 = Ok (percentile_value tfidfs 0))
    by (rewrite Etf; reflexivity).
  rewrite Hperc in H. injection H as <-.
  exists toks, tfidfs. split; [reflexivity|].
  split; [intros ->; rewrite Etf in Hlen'; discriminate|].
  split; [exact Hall|]. rewrite assemble_shape. unfold body.
  assert (Hp : percentile_value tfidfs 0 == 0)
    by (apply percentile_value_constant; [assumption | assumption | lia]).
  rewrite (sort_desc_equal_keys _ 0)
    by (apply (combine_keys toks tfidfs (fun q => q == 0)), Hall).
  rewrite (select_takes_all _ toks tfidfs []);
    change (@nil str ++ toks) with toks.
  - cbv zeta. rewrite filter_mem_firstn by exact Hnd. reflexivity.
  - exact Hlen'.
  - apply Forall_forall. intros q Hq. rewrite Forall_forall in Hall.
    apply Qle_bool_iff. rewrite Hp, (Hall q Hq). apply Qle_refl.
  - exact Hnd.
  - simpl. lia.
Qed.

End UnknownTokens.

Lemma unknown_tokens_give_the_first_tokens_witness :
  exists toks tfidfs,
    Query.scores Query.log_any Query.stayed_claim Query.empty_dictionary 1
    = Ok (toks, tfidfs)
    /\ toks <> []
    /\ Forall (fun x => x == 0)%Q tfidfs
    /\ map lit ["notes"; "she"; "stayed"; "he"; "left"]%string
       = Query.title_front (Segmenter.title Query.stayed_claim)
           (Query.truncate (firstn 10 toks))
         ++ Query.truncate (firstn 10 toks).
Proof.
  apply (unknown_tokens_give_the_first_tokens Query.log_any Query.stayed_claim
           Query.empty_dictionary 1).
  - reflexivity.
  - reflexivity.
  - vm_compute. reflexivity.
Defined.

Example stayed_claim_tokens :
  match Query.scores Query.log_any Query.stayed_claim Query.empty_dictionary 1
  with
  | Ok (toks, _) => toks = map lit ["she"; "stayed"; "he"; "left"]%string
  | _ => False
  end.
Proof. vm_compute. reflexivity. Qed.

(** ** Classification looks at the name only *)

Section TemplateNames.

Import Wiki.

Lemma lower_char_pipe c : lower_char c = "|"%char -> c = "|"%char.
Proof.
  destruct c as [[] [] [] [] [] [] [] []]; vm_compute; intros H;
    try discriminate; reflexivity.
Qed.

Lemma lower_pipe_free s : ~ In "|"%char s -> ~ In "|"%char (lower s).
Proof.
  intros H Hin. apply in_map_iff in Hin. destruct Hin as [c [Hc Hin]].
  apply lower_char_pipe in Hc. subst c. contradiction.
Qed.

Lemma split_head_before_pipe a b :
  ~ In "|"%char a -> hd [] (split ["|"%char] (a ++ "|"%char :: b)) = a.
Proof.
  intros H. unfold split. rewrite split_go_app_free by exact H.
  simpl. rewrite app_nil_r. apply rev_involutive.
Qed.

Lemma split_head_no_pipe a :
  ~ In "|"%char a -> hd [] (split ["|"%char] a) = a.
Proof.
  intros H. unfold split. rewrite <- (app_nil_r a) at 1.
  rewrite split_go_app_free by exact H. simpl. rewrite app_nil_r.
  apply rev_involutive.
Qed.

(** Both classifiers look at the text before the first pipe only, and there
    neither at the case of the letters, nor at braces, nor at white space
    around the name: whatever parameters follow the first pipe, the template
    is classified like its name alone. *)
Theorem classification_ignores_parameters :
  forall name parameters set_citation quote_identifier,
  ~ In "|"%char name ->
  template_name (name ++ lit "|" ++ parameters) = template_name name
  /\ is_cn (name ++ lit "|" ++ parameters) set_citation
     = is_cn name set_citation
  /\ is_quote (name ++ lit "|" ++ parameters) quote_identifier
     = is_quote name quote_identifier
  /\ template_name (lower name) = template_name name.
Proof.
  intros name parameters cs q H.
  assert (E : template_name (name ++ lit "|" ++ parameters)
              = template_name name).
  { unfold template_name. change (lit "|") with ["|"%char].
    unfold lower. rewrite map_app. simpl map.
    fold (lower name). fold (lower parameters).
    change (lower_char "|"%char) with "|"%char.
    rewrite split_head_before_pipe by (apply lower_pipe_free, H).
    rewrite split_head_no_pipe by (apply lower_pipe_free, H). reflexivity. }
  split; [exact E|]. split; [unfold is_cn; rewrite E; reflexivity|].
  split; [unfold is_quote; rewrite E; reflexivity|].
  unfold template_name. rewrite (lowered_fix (lower name)) by apply lowered_lower.
  reflexivity.
Qed.

Lemma classification_ignores_parameters_witness :
  template_name (lit "{{ Citation Needed " ++ lit "|" ++ lit "date=May 2017}}")
  = lit "citation needed"
  /\ is_cn (lit "{{ Citation Needed " ++ lit "|" ++ lit "date=May 2017}}")
       [lit "citation needed"] = true
  /\ is_quote (lit "{{ Citation Needed " ++ lit "|" ++ lit "date=May 2017}}")
       (lit "quote") = false
  /\ template_name (lower (lit "{{ Citation Needed "))
     = lit "citation needed".
Proof.
  apply (classification_ignores_parameters (lit "{{ Citation Needed ")
           (lit "date=May 2017}}") [lit "citation needed"] (lit "quote")).
  vm_compute. intuition discriminate.
Defined.

End TemplateNames.

(** ** Counting the tokens in the article *)

Section TermFrequencies.

Import Num Query TokenTables.
Local Open Scope Q_scope.

Lemma str_eqb_sym a b : str_eqb a b = str_eqb b a.
Proof.
  destruct (str_eqb b a) eqn:E.
  - apply str_eqb_true in E. apply str_eqb_true. congruence.
  - apply str_eqb_false in E. apply str_eqb_false. congruence.
Qed.

(** One word of the article: the first entry that equals it is counted. *)
Lemma count_word_at w (toks : list str) : forall (tfs : list Q) k,
  length tfs = length toks -> (k < length toks)%nat ->
  nth k (count_word w toks tfs) 0
  == nth k tfs 0
     + (if str_eqb (lower (nth k toks [])) w
           && negb (mem w (map lower (firstn k toks)))
        then 1 else 0).
Proof.
  induction toks as [|t toks IH]; intros tfs k Hlen Hk;
    [simpl in Hk; lia|].
  destruct tfs as [|tf tfs]; [discriminate|].
  simpl count_word.
  destruct (str_eqb (lower t) w) eqn:E.
  - destruct k as [|k]; cbn [nth firstn map]; [rewrite E; reflexivity|].
    unfold mem. cbn [existsb]. rewrite (str_eqb_sym w (lower t)), E.
    simpl. rewrite andb_false_r. ring.
  - destruct k as [|k]; cbn [nth firstn map]; [rewrite E; simpl; ring|].
    unfold mem. cbn [existsb]. rewrite (str_eqb_sym w (lower t)), E.
    simpl. apply IH; simpl in *; lia.
Qed.

Lemma occurrences_cons t word words :
  occurrences t (word :: words)
  == (if str_eqb t (lower word) then 1 else 0) + occurrences t words.
Proof.
  unfold occurrences. simpl filter.
  destruct (str_eqb t (lower word)); simpl length.
  - rewrite Nat2Z.inj_succ, <- Z.add_1_l, inject_Z_plus. reflexivity.
  - ring.
Qed.

(** The loop over the words of the article, on tables with one frequency
    for each token, leaves the tokens and their weights as they are and
    adds to the frequency of a token the number of words of the article
    that are this token once both are lower-cased.  Of a token that is
    stored more than once only the first entry is counted: the loop stops
    at the first match, and a later entry keeps its frequency. *)
Theorem term_frequencies_count_occurrences : forall words st k,
  length (token_tfs st) = length (tokens st) ->
  (k < length (tokens st))%nat ->
  tokens (fold_left count words st) = tokens st
  /\ token_weights (fold_left count words st) = token_weights st
  /\ nth k (token_tfs (fold_left count words st)) 0
     == nth k (token_tfs st) 0
        + (if repeats (tokens st) k then 0
           else occurrences (lower (nth k (tokens st) [])) words).
Proof.
  induction words as [|word words IH]; intros st k Hlen Hk.
  - split; [reflexivity|]. split; [reflexivity|].
    unfold occurrences. simpl. destruct (repeats (tokens st) k); ring.
  - simpl fold_left.
    assert (Hlen' : length (token_tfs (count st word))
                    = length (tokens (count st word)))
      by (unfold count; simpl; rewrite count_word_length; exact Hlen).
    destruct (IH (count st word) k Hlen' Hk) as [Ht [Hw Hn]].
    split; [exact Ht|]. split; [exact Hw|].
    rewrite Hn. simpl tokens. simpl token_tfs.
    rewrite count_word_at by assumption.
    pose proof (occurrences_cons (lower (nth k (tokens st) [])) word words)
      as Hocc.
    unfold repeats.
    destruct (str_eqb (lower (nth k (tokens st) [])) (lower word)) eqn:E.
    + apply str_eqb_true in E. rewrite <- E.
      destruct (mem (lower (nth k (tokens st) []))
                  (map lower (firstn k (tokens st)))); simpl.
      * ring.
      * rewrite Hocc. ring.
    + simpl.
      destruct (mem (lower (nth k (tokens st) []))
                  (map lower (firstn k (tokens st)))).
      * ring.
      * rewrite Hocc. ring.
Qed.

Lemma term_frequencies_count_occurrences_witness :
  nth 1 (token_tfs
           (fold_left count [lit "Green"; lit "Tea"; lit "tea"]
              (mkTf [lit "green"; lit "tea"] [1; 1] [0; 0]))) 0
  == 0 + (if repeats [lit "green"; lit "tea"] 1 then 0
          else occurrences (lower (lit "tea"))
                 [lit "Green"; lit "Tea"; lit "tea"]).
Proof.
  apply (term_frequencies_count_occurrences
           [lit "Green"; lit "Tea"; lit "tea"]
           (mkTf [lit "green"; lit "tea"] [1; 1] [0; 0]) 1).
  - reflexivity.
  - simpl. lia.
Defined.

(** A token stored twice, as happens to a token outside the ASCII range:
    the two words of the article go to the first entry. *)
Example count_with_a_repeated_token :
  token_tfs
    (fold_left count [lit "caf" ++ ["233"%char]; lit "caf" ++ ["233"%char]]
       (mkTf [lit "caf" ++ ["233"%char]; lit "caf" ++ ["233"%char]]
          [1; 1] [0; 0]))
  = [0 + 1 + 1; 0].
Proof. reflexivity. Qed.

End TermFrequencies.

(** ** A citation template between texts without braces *)

Section FlatCitation.

Import Wiki Positions.

Lemma scan_step_flat st i c :
  c <> lbrace -> c <> rbrace ->
  (in_template st = true -> n_open st <> n_close st) ->
  scan_step st i c
  = mkScan (n_open st) (n_close st) (starts st) (ends st) (in_template st)
      (Some c).
Proof.
  intros Hl Hr Hguard. destruct st as [o k sts ens it p]. unfold scan_step.
  simpl in *.
  assert (El : Ascii.eqb c lbrace = false)
    by (apply Ascii.eqb_neq; exact Hl).
  assert (Er : Ascii.eqb c rbrace = false)
    by (apply Ascii.eqb_neq; exact Hr).
  rewrite El, Er. rewrite andb_false_r. simpl.
  destruct it; simpl; [|reflexivity].
  destruct (Z.eqb_spec o k) as [E|E]; [|reflexivity].
  exfalso. apply Hguard; auto.
Qed.

Lemma scan_from_flat a : forall st i,
  flat a -> prev_c st <> Some lbrace ->
  (in_template st = true -> n_open st <> n_close st) ->
  exists p,
    p <> Some lbrace
    /\ scan_from st i a
       = mkScan (n_open st) (n_close st) (starts st) (ends st)
           (in_template st) p.
Proof.
  induction a as [|c a IH]; intros st i Hflat Hp Hguard.
  - exists (prev_c st). split; [exact Hp|]. destruct st; reflexivity.
  - inversion Hflat as [|? ? [Hl Hr] Hrest]; subst. simpl scan_from.
    rewrite scan_step_flat by assumption.
    destruct (IH (mkScan (n_open st) (n_close st) (starts st) (ends st)
                    (in_template st) (Some c)) (i + 1) Hrest)
      as [p [Hp' Hrun]]; simpl; [congruence | exact Hguard|].
    exists p. split; [exact Hp' | exact Hrun].
Qed.

Lemma scan_from_flat_in a : forall st i,
  flat a -> in_template st = true -> n_open st <> n_close st ->
  exists p,
    scan_from st i a
    = mkScan (n_open st) (n_close st) (starts st) (ends st) true p.
Proof.
  induction a as [|c a IH]; intros st i Hflat Hin Hguard.
  - exists (prev_c st). destruct st. simpl in Hin. subst. reflexivity.
  - inversion Hflat as [|? ? [Hl Hr] Hrest]; subst. simpl scan_from.
    rewrite scan_step_flat by (assumption || (intros _; exact Hguard)).
    rewrite Hin.
    destruct (IH (mkScan (n_open st) (n_close st) (starts st) (ends st)
                    true (Some c)) (i + 1) Hrest eq_refl Hguard)
      as [p Hrun].
    exists p. exact Hrun.
Qed.

Lemma scan_from_app x : forall st i y,
  scan_from st i (x ++ y)
  = scan_from (scan_from st i x) (i + Z.of_nat (length x)) y.
Proof.
  induction x as [|c x IH]; intros st i y; simpl scan_from.
  - simpl. rewrite Z.add_0_r. reflexivity.
  - rewrite IH. f_equal. simpl length. lia.
Qed.

Lemma opt_ascii_eqb_noopen p :
  p <> Some lbrace -> opt_ascii_eqb lbrace p = false.
Proof.
  intros H. destruct p as [d|]; [|reflexivity]. unfold opt_ascii_eqb.
  apply Ascii.eqb_neq. intros <-. apply H. reflexivity.
Qed.

Lemma scan_from_cons st i c s :
  scan_from st i (c :: s) = scan_from (scan_step st i c) (i + 1) s.
Proof. reflexivity. Qed.

Lemma scan_step_first_open o k sts ens p i :
  p <> Some lbrace ->
  scan_step (mkScan o k sts ens false p) i lbrace
  = mkScan o k sts ens false (Some lbrace).
Proof.
  intros H. unfold scan_step. cbn [in_template prev_c negb andb].
  rewrite (opt_ascii_eqb_noopen p H). rewrite andb_false_r. reflexivity.
Qed.

Lemma scan_step_second_open o sts ens i :
  scan_step (mkScan o 0 sts ens false (Some lbrace)) i lbrace
  = mkScan 2 0 (sts ++ [i - 1]) ens true (Some lbrace).
Proof. reflexivity. Qed.

Lemma scan_step_close_inner sts ens p i :
  scan_step (mkScan 2 0 sts ens true p) i rbrace
  = mkScan 2 1 sts ens true (Some rbrace).
Proof. reflexivity. Qed.

Lemma scan_step_close_last sts ens p i :
  scan_step (mkScan 2 1 sts ens true p) i rbrace
  = mkScan 0 0 sts (ens ++ [i]) false (Some rbrace).
Proof. reflexivity. Qed.

(** The scanner on a template with a flat body between flat texts records
    the one span of the template. *)
Lemma scan_flat_template a body b :
  flat a -> flat body -> flat b ->
  starts (scan (a ++ (lit "{{" ++ body ++ lit "}}") ++ b))
  = [Z.of_nat (length a)]
  /\ ends (scan (a ++ (lit "{{" ++ body ++ lit "}}") ++ b))
     = [Z.of_nat (length a) + Z.of_nat (length body) + 3].
Proof.
  intros Ha Hbody Hb. unfold scan.
  rewrite scan_from_app.
  assert (H0 : prev_c scan_init <> Some lbrace) by (simpl; discriminate).
  assert (G0 : in_template scan_init = true ->
               n_open scan_init <> n_close scan_init)
    by (simpl; intros H; discriminate H).
  destruct (scan_from_flat a scan_init 0 Ha H0 G0) as [p1 [Hp1 ->]].
  cbn [n_open n_close starts ends in_template scan_init].
  change (lit "{{") with [lbrace; lbrace].
  change (lit "}}") with [rbrace; rbrace].
  cbn [app].
  rewrite !scan_from_cons.
  rewrite scan_step_first_open by exact Hp1.
  rewrite scan_step_second_open.
  rewrite <- app_assoc. rewrite scan_from_app.
  match goal with
  | |- context [scan_from ?st ?i body] =>
      destruct (scan_from_flat_in body st i Hbody) as [p2 Hrun2];
        [reflexivity | cbn; lia|]; rewrite Hrun2
  end.
  cbn [n_open n_close starts ends in_template app].
  rewrite !scan_from_cons.
  rewrite scan_step_close_inner, scan_step_close_last.
  match goal with
  | |- context [scan_from ?st ?i b] =>
      assert (H2 : prev_c st <> Some lbrace) by (simpl; discriminate);
      assert (G2 : in_template st = true -> n_open st <> n_close st)
        by (simpl; intros H; discriminate H);
      destruct (scan_from_flat b st i Hb H2 G2) as [p3 [Hp3 ->]]
  end.
  cbn [n_open n_close starts ends in_template app].
  split; f_equal; lia.
Qed.

Lemma clip_in_range len i : 0 <= i <= len -> clip len i = i.
Proof.
  intros H. unfold clip. destruct (Z.ltb_spec i 0); lia.
Qed.

Lemma slice_prefix {A} (a r : list A) :
  slice (a ++ r) (Some 0) (Some (Z.of_nat (length a))) = a.
Proof.
  unfold slice. rewrite !clip_in_range by (rewrite length_app; lia).
  rewrite Z.sub_0_r, Nat2Z.id. simpl skipn.
  rewrite firstn_app, Nat.sub_diag, firstn_all. simpl. apply app_nil_r.
Qed.

Lemma slice_middle {A} (a m b : list A) :
  slice (a ++ m ++ b) (Some (Z.of_nat (length a)))
    (Some (Z.of_nat (length a) + Z.of_nat (length m))) = m.
Proof.
  unfold slice. rewrite !clip_in_range by (rewrite !length_app; lia).
  replace (Z.to_nat (Z.of_nat (length a) + Z.of_nat (length m)
                     - Z.of_nat (length a))) with (length m) by lia.
  rewrite Nat2Z.id, skipn_app, skipn_all, Nat.sub_diag. simpl.
  rewrite firstn_app, Nat.sub_diag, firstn_all. simpl. apply app_nil_r.
Qed.

Lemma slice_suffix {A} (a b : list A) :
  slice (a ++ b) (Some (Z.of_nat (length a))) None = b.
Proof.
  unfold slice. rewrite clip_in_range by (rewrite length_app; lia).
  rewrite Nat2Z.id, skipn_app, skipn_all, Nat.sub_diag. simpl.
  apply firstn_all2. rewrite length_app. lia.
Qed.

(** A citation-needed template whose body holds no brace, between two texts
    that hold none, is replaced by the marker where it stands: the text
    before it, the marker, the text after it. *)
Theorem rewriter_marks_flat_citation :
  forall a body b set_citation quote_identifier text_identifier,
  flat a -> flat body -> flat b ->
  is_cn (lit "{{" ++ body ++ lit "}}") set_citation = true ->
  replace_citation_templates (a ++ (lit "{{" ++ body ++ lit "}}") ++ b)
    set_citation quote_identifier text_identifier
  = a ++ CNMARK ++ b.
Proof.
  intros a body b cs q t Ha Hbody Hb Hcn.
  destruct (scan_flat_template a body b Ha Hbody Hb) as [Hs He].
  unfold replace_citation_templates. rewrite Hs, He.
  set (template := lit "{{" ++ body ++ lit "}}") in *.
  assert (Hlen : Z.of_nat (length template)
                 = Z.of_nat (length body) + 4).
  { unfold template. rewrite !length_app. simpl length. lia. }
  assert (Ht : templates (a ++ template ++ b) [Z.of_nat (length a)]
                 [Z.of_nat (length a) + Z.of_nat (length body) + 3]
               = [template]).
  { unfold templates, zip. cbn [combine map fst snd]. f_equal.
    replace (Z.of_nat (length a) + Z.of_nat (length body) + 3 + 1)
      with (Z.of_nat (length a) + Z.of_nat (length template)) by lia.
    apply slice_middle. }
  assert (Hp : pieces (a ++ template ++ b) [Z.of_nat (length a)]
                 [Z.of_nat (length a) + Z.of_nat (length body) + 3]
               = [a; b]).
  { unfold pieces, zip. cbn [combine map fst snd app].
    change (-1 + 1) with 0. f_equal; [apply slice_prefix|]. f_equal.
    replace (Z.of_nat (length a) + Z.of_nat (length body) + 3 + 1)
      with (Z.of_nat (length (a ++ template)))
      by (rewrite length_app; lia).
    rewrite app_assoc. apply slice_suffix. }
  rewrite Ht, Hp. cbn [emit_all]. unfold emit. rewrite Hcn, Hp.
  cbn [nth app last concat]. rewrite app_nil_r. reflexivity.
Qed.

Lemma rewriter_marks_flat_citation_witness :
  replace_citation_templates
    (lit "Tea is old" ++ (lit "{{" ++ lit "Citation needed|date=May" ++ lit "}}")
       ++ lit ". It is green.")
    [lit "citation needed"] (lit "quote") (lit "text")
  = lit "Tea is old" ++ CNMARK ++ lit ". It is green.".
Proof.
  apply (rewriter_marks_flat_citation (lit "Tea is old")
           (lit "Citation needed|date=May") (lit ". It is green.")
           [lit "citation needed"] (lit "quote") (lit "text")).
  - repeat constructor; discriminate.
  - repeat constructor; discriminate.
  - repeat constructor; discriminate.
  - reflexivity.
Defined.

End FlatCitation.
